(** * Prescriptivism client UI: layout, text cursor mapping and screen dispatch

    A shallow embedding of [src/Client/UI.cc] and of the declarations of
    the [pr.client.ui] module interface it implements, followed by the
    properties of the embedding. *)

From Stdlib Require Import ZArith List Bool Lia.
From Stdlib Require Import Floats.SpecFloat.
From Stdlib Require Import Reals Lra.
Import ListNotations.
Local Open Scope Z_scope.

(** ** Fixed-width integers

    The code computes with [i32], [i16], [u32] and [usz]; they are integers
    of [Z] reduced to the range of their width after every operation. *)
Module Int.

Definition signed (w z : Z) : Z := (z + 2 ^ (w - 1)) mod 2 ^ w - 2 ^ (w - 1).
Definition unsigned (w z : Z) : Z := z mod 2 ^ w.

Definition i16 : Z -> Z := signed 16.
Definition i32 : Z -> Z := signed 32.
Definition u32 : Z -> Z := unsigned 32.
Definition usz : Z -> Z := unsigned 64.

Definition INT_MIN : Z := -2147483648.
Definition INT_MAX : Z := 2147483647.

(** [in_i32 z]: [z] is the value of some [i32]. *)
Definition in_i32 (z : Z) : Prop := INT_MIN <= z <= INT_MAX.
Definition in_i32b (z : Z) : bool := (INT_MIN <=? z) && (z <=? INT_MAX).

Definition add32 (a b : Z) : Z := i32 (a + b).
Definition sub32 (a b : Z) : Z := i32 (a - b).
(** C++ integer division truncates toward zero: [Z.quot]. *)
Definition div32 (a b : Z) : Z := i32 (Z.quot a b).
(** [std::abs] on [i32]. *)
Definition abs32 (a : Z) : Z := i32 (Z.abs a).

(** [std::saturate_cast<i16>]. *)
Definition saturate_i16 (z : Z) : Z := Z.max (-32768) (Z.min 32767 z).

End Int.

(** ** Floating point

    [TextEdit] interpolates with [std::lerp] on the quotient of two
    [f32]; IEEE 754 binary32 and binary64 are the instances of the
    Standard Library's [SpecFloat] at (24, 128) and (53, 1024). *)
Module Float.

Definition f32_of_Z (n : Z) : spec_float := binary_normalize 24 128 n 0 false.
Definition f64_of_Z (n : Z) : spec_float := binary_normalize 53 1024 n 0 false.

(** Widening a binary32 to binary64 is exact. *)
Definition f64_of_f32 (f : spec_float) : spec_float :=
  match f with
  | S754_finite s m e => binary_normalize 53 1024 (cond_Zopp s (Zpos m)) e s
  | _ => f
  end.

Definition f32_div : spec_float -> spec_float -> spec_float := SFdiv 24 128.
Definition f64_add : spec_float -> spec_float -> spec_float := SFadd 53 1024.
Definition f64_sub : spec_float -> spec_float -> spec_float := SFsub 53 1024.
Definition f64_mul : spec_float -> spec_float -> spec_float := SFmul 53 1024.

Definition zero : spec_float := S754_zero false.
Definition one : spec_float := f64_of_Z 1.

(** [std::lerp(a, b, t)] on [double], the algorithm of libstdc++ and
    libc++. *)
Definition lerp (a b t : spec_float) : spec_float :=
  if (SFleb a zero && SFleb zero b) || (SFleb zero a && SFleb b zero)
  then f64_add (f64_mul t b) (f64_mul (f64_sub one t) a)
  else if SFeqb t one then b
  else
    let x := f64_add a (f64_mul t (f64_sub b a)) in
    if Bool.eqb (SFltb one t) (SFltb a b)
    then (if SFltb b x then x else b)
    else (if SFltb x b then x else b).

(** Conversion of a [double] to [i32] truncates toward zero.  C++ leaves the
    conversion of a NaN, an infinity or a value out of range undefined; the
    model returns [INT_MIN] there, as the conversion instruction of x86-64
    does. *)
Definition trunc_i32 (f : spec_float) : Z :=
  match f with
  | S754_zero _ => 0
  | S754_finite s m e =>
      let mag := if 0 <=? e then Zpos m * 2 ^ e else Zpos m / 2 ^ (- e) in
      let v := cond_Zopp s mag in
      if Int.in_i32b v then v else Int.INT_MIN
  | _ => Int.INT_MIN
  end.

End Float.

(** The expression [i32(std::lerp(x1, x2, f32(num) / f32(den)))] with [i32]
    arguments: the two end points are converted to [double], the parameter
    is a [float] quotient widened to [double]. *)
Definition lerp_i32 (x1 x2 num den : Z) : Z :=
  Float.trunc_i32
    (Float.lerp (Float.f64_of_Z x1) (Float.f64_of_Z x2)
       (Float.f64_of_f32 (Float.f32_div (Float.f32_of_Z num) (Float.f32_of_Z den)))).

(** ** Geometry *)

(** Modelled from the spec: [xy], [Size] and [AABB] are declared in the
    renderer interface, outside the sources at hand; a point is a pair of
    integers, a size a width/height pair, and an axis-aligned box an origin
    plus a size. *)
Record xy : Type := XY { x : Z; y : Z }.
Record Size : Type := SZ { wd : Z; ht : Z }.
Record AABB : Type := Box { origin : xy; size : Size }.

Definition Size_eqb (a b : Size) : bool := (wd a =? wd b) && (ht a =? ht b).

Module Anchor.
Inductive t : Type :=
  | North | NorthEast | East | SouthEast | South | SouthWest | West | NorthWest | Center.
Definition Default : t := SouthWest.
Definition all : list t :=
  [North; NorthEast; East; SouthEast; South; SouthWest; West; NorthWest; Center].
End Anchor.

Module Position.
Import Int.

Definition Centered : Z := INT_MIN.

Record t : Type := Make {
  base : xy;
  xadjust : Z;   (* i16 *)
  yadjust : Z;   (* i16 *)
  anchor : Anchor.t
}.

(** The three constructors of [Position]. *)
Definition default : t := Make (XY 0 0) 0 0 Anchor.Default.
Definition at_xy (b : xy) (a : Anchor.t) : t := Make b 0 0 a.
Definition at_ (bx by_ : Z) (a : Anchor.t) : t := Make (XY bx by_) 0 0 a.

Definition HCenter (by_ : Z) (a : Anchor.t) : t := at_ Centered by_ a.
Definition VCenter (bx : Z) (a : Anchor.t) : t := at_ bx Centered a.
Definition Center (a : Anchor.t) : t := at_ Centered Centered a.

Definition anchor_to (a : Anchor.t) (p : t) : t :=
  Make (base p) (xadjust p) (yadjust p) a.

Definition hoffset (offset : Z) (p : t) : t :=
  Make (base p) (i16 (xadjust p + saturate_i16 offset)) (yadjust p) (anchor p).

Definition voffset (offset : Z) (p : t) : t :=
  Make (base p) (xadjust p) (i16 (yadjust p + saturate_i16 offset)) (anchor p).

(** The lambda [Clamp] of [Position::relative]. *)
Definition Clamp (val obj_size total_size : Z) : Z :=
  if val =? Centered then div32 (sub32 total_size obj_size) 2
  else if val <? 0 then sub32 (add32 total_size val) obj_size
  else val.

(** The lambda [Adjust] of [Position::relative], on the point computed so
    far. *)
Definition Adjust (p : t) (pt : xy) (xa ya : Z) : xy :=
  XY (if x (base p) =? Centered then x pt else sub32 (x pt) xa)
     (if y (base p) =? Centered then y pt else sub32 (y pt) ya).

Definition relative (p : t) (parent : xy) (parent_size object_size : Size) : xy :=
  let sx := wd parent_size in
  let sy := ht parent_size in
  let obj_wd := wd object_size in
  let obj_ht := ht object_size in
  let pt :=
    XY (add32 (add32 (i32 (x parent)) (Clamp (x (base p)) obj_wd sx)) (xadjust p))
       (add32 (add32 (i32 (y parent)) (Clamp (y (base p)) obj_ht sy)) (yadjust p)) in
  match anchor p with
  | Anchor.North => Adjust p pt (div32 obj_wd 2) obj_ht
  | Anchor.NorthEast => Adjust p pt obj_wd obj_ht
  | Anchor.East => Adjust p pt obj_wd (div32 obj_ht 2)
  | Anchor.SouthEast => Adjust p pt obj_wd 0
  | Anchor.South => Adjust p pt (div32 obj_wd 2) 0
  | Anchor.SouthWest => pt
  | Anchor.West => Adjust p pt 0 (div32 obj_ht 2)
  | Anchor.NorthWest => Adjust p pt 0 obj_ht
  | Anchor.Center => Adjust p pt (div32 obj_wd 2) (div32 obj_ht 2)
  end.

Definition relative_box (p : t) (parent_box : AABB) (object_size : Size) : xy :=
  relative p (origin parent_box) (size parent_box) object_size.

Definition absolute (p : t) (screen_size object_size : Size) : xy :=
  relative p (XY 0 0) screen_size object_size.

End Position.

(** ** Shaped text *)

(** Modelled from the spec: [ShapedText] and its [Cluster] are declared by
    the renderer, outside the sources at hand.  A shaped text has the metrics
    [width], [height] and [depth] and a size (what [size()] returns); a
    cluster maps the logical index of a character to the pixel offset at
    which it starts. *)
Record Cluster : Type := CL { index : Z; xoffs : Z }.
Record ShapedText : Type := Shaped { width : Z; height : Z; depth : Z; shaped_size : Size }.

(** ** Input *)

Inductive Key : Type :=
  | SDLK_BACKSPACE | SDLK_DELETE | SDLK_LEFT | SDLK_RIGHT | SDLK_HOME | SDLK_END
  | SDLK_V | SDLK_INSERT
  | SDLK_other (code : Z).

Definition SDL_KMOD_SHIFT : Z := 3.     (* 0x0003 *)
Definition SDL_KMOD_CTRL : Z := 192.    (* 0x00C0 *)

Record Event : Type := Ev { key : Key; mod_ : Z }.
Record MouseState : Type := Mouse { pos : xy; left : bool; right : bool; middle : bool }.

(** A text is a [std::u32string]: a list of code points. *)
Definition u32string : Type := list Z.

(** What the code observes and changes of SDL: the clipboard and whether
    text input is being captured. *)
Record Sdl : Type := SDL { clipboard : option u32string; text_input_active : bool }.

Module InputSystem.
Record t : Type := Make {
  was_selected : bool;
  text_input : u32string;
  kb_events : list Event;
  mouse : MouseState;
  quit : bool
}.

Definition update_selection (is_element_selected : bool) (st : t * Sdl) : t * Sdl :=
  let (input, sdl) := st in
  if Bool.eqb (was_selected input) is_element_selected then st
  else (Make is_element_selected (text_input input) (kb_events input) (mouse input) (quit input),
        SDL (clipboard sdl) is_element_selected).
End InputSystem.

(** ** Widgets *)

Module Widget.
(** The members of [Widget] and of its base [Element]; [impl] holds the
    members of the derived class.  The parent is not stored: operations that
    read [parent->bounding_box] take that box as an argument. *)
Record t (T : Type) : Type := Make {
  hovered : bool;
  selectable : bool;
  selected : bool;
  visible : bool;
  needs_refresh : bool;
  pos : Position.t;
  bounding_box : AABB;
  impl : T
}.
Arguments Make {T}.
Arguments hovered {T}.
Arguments selectable {T}.
Arguments selected {T}.
Arguments visible {T}.
Arguments needs_refresh {T}.
Arguments pos {T}.
Arguments bounding_box {T}.
Arguments impl {T}.

Section Ops.
Context {T : Type}.

(** The constructor [Widget(parent, pos)]. *)
Definition create (p : Position.t) (i : T) : t T :=
  Make false false false true false p (Box (XY 0 0) (SZ 0 0)) i.

Definition set_hovered (b : bool) (w : t T) : t T :=
  Make b (selectable w) (selected w) (visible w) (needs_refresh w) (pos w) (bounding_box w) (impl w).
Definition set_selected (b : bool) (w : t T) : t T :=
  Make (hovered w) (selectable w) b (visible w) (needs_refresh w) (pos w) (bounding_box w) (impl w).
Definition set_needs_refresh (b : bool) (w : t T) : t T :=
  Make (hovered w) (selectable w) (selected w) (visible w) b (pos w) (bounding_box w) (impl w).
Definition set_pos (p : Position.t) (w : t T) : t T :=
  Make (hovered w) (selectable w) (selected w) (visible w) (needs_refresh w) p (bounding_box w) (impl w).
Definition SetBoundingBox (b : AABB) (w : t T) : t T :=
  Make (hovered w) (selectable w) (selected w) (visible w) (needs_refresh w) (pos w) b (impl w).
Definition set_impl (i : T) (w : t T) : t T :=
  Make (hovered w) (selectable w) (selected w) (visible w) (needs_refresh w) (pos w) (bounding_box w) i.

Definition reset_properties (w : t T) : t T := set_selected false (set_hovered false w).

Definition rpos (parent_box : AABB) (w : t T) : xy :=
  Position.relative_box (pos w) parent_box (size (bounding_box w)).

Definition rbox (parent_box : AABB) (w : t T) : AABB :=
  Box (rpos parent_box w) (size (bounding_box w)).
End Ops.
End Widget.

(** ** TextEdit *)

Module TextEdit.
Import Int.

(** The members of [TextEdit] and of its base [TextBox] that the cursor
    code reads or writes. *)
Record data : Type := Make {
  label : ShapedText;
  cursor_offs : Z;
  text : u32string;
  clusters : list Cluster;
  dirty : bool;
  hide_text : bool;
  cursor : Z;
  no_blink_ticks : Z   (* u32 *)
}.

Definition t : Type := Widget.t data.

Definition set_cursor (c : Z) (d : data) : data :=
  Make (label d) (cursor_offs d) (text d) (clusters d) (dirty d) (hide_text d) c (no_blink_ticks d).
Definition set_text (s : u32string) (d : data) : data :=
  Make (label d) (cursor_offs d) s (clusters d) (dirty d) (hide_text d) (cursor d) (no_blink_ticks d).
Definition set_dirty (b : bool) (d : data) : data :=
  Make (label d) (cursor_offs d) (text d) (clusters d) b (hide_text d) (cursor d) (no_blink_ticks d).
Definition set_no_blink_ticks (n : Z) (d : data) : data :=
  Make (label d) (cursor_offs d) (text d) (clusters d) (dirty d) (hide_text d) (cursor d) n.
Definition set_cursor_offs (o : Z) (d : data) : data :=
  Make (label d) o (text d) (clusters d) (dirty d) (hide_text d) (cursor d) (no_blink_ticks d).
Definition set_shaped (l : ShapedText) (cl : list Cluster) (d : data) : data :=
  Make l (cursor_offs d) (text d) cl (dirty d) (hide_text d) (cursor d) (no_blink_ticks d).

(** [i32(text.size())]. *)
Definition text_size (d : data) : Z := i32 (Z.of_nat (length (text d))).

(** [TextBox::TextPos]. *)
Definition TextPos (parent_box : AABB) (w : t) (txt : ShapedText) : xy :=
  Position.relative_box
    (Position.voffset (i32 (depth txt)) (Position.Center Anchor.Default))
    (Widget.rbox parent_box w) (shaped_size txt).

(** *** Cursor index to pixel offset ([TextEdit::draw]) *)

(** [std::ranges::lower_bound] projected on the cluster index: binary search
    for the first position whose index is not less than [value].  [None]
    when the fuel does not suffice or a probe falls outside the list. *)
Fixpoint lower_bound_loop (fuel : nat) (l : list Cluster) (value : Z)
    (first len : nat) : option nat :=
  match fuel with
  | O => None
  | S fuel' =>
      if (len =? 0)%nat then Some first
      else
        let half := (len / 2)%nat in
        let mid := (first + half)%nat in
        match nth_error l mid with
        | None => None
        | Some c =>
            if index c <? value
            then lower_bound_loop fuel' l value (mid + 1)%nat (len - (half + 1))%nat
            else lower_bound_loop fuel' l value first half
        end
  end.

Definition lower_bound (l : list Cluster) (value : Z) : option nat :=
  lower_bound_loop (S (length l)) l value 0%nat (length l).

(** The lambda that computes [cursor_offs]: [N] is [i32(text.size())],
    [wdt] is [label.width].  [None] stands for the undefined behaviour of
    [std::prev] at the first position and of reading through an invalid
    iterator. *)
Definition cursor_offset (cl : list Cluster) (N wdt cur : Z) : option Z :=
  if cur =? 0 then Some 0
  else if cur =? N then Some (i32 wdt)
  else
    match lower_bound cl cur with
    | None => None
    | Some O => None
    | Some (S p as it) =>
        match nth_error cl p with
        | None => None
        | Some prev =>
            let x1 := xoffs prev in
            let i1 := index prev in
            match nth_error cl it with
            | Some c =>
                if index c =? cur then Some (xoffs c)
                else Some (lerp_i32 x1 (xoffs c) (sub32 cur i1) (sub32 (index c) i1))
            | None =>
                Some (lerp_i32 x1 (i32 wdt) (sub32 cur i1) (sub32 N i1))
            end
        end
    end.

(** What [TextEdit::draw] needs of the renderer: the shaping service and the
    phase of the blinking cursor. *)
Record Renderer : Type := Rend {
  make_text : u32string -> ShapedText * list Cluster;
  blink_cursor : bool
}.

Definition bullet : Z := 8226.  (* U+2022 *)

(** The state changes of [TextEdit::draw]; the draw calls themselves have
    no effect on the widget. *)
Definition draw (r : Renderer) (w : t) : option t :=
  let w1 :=
    if dirty (Widget.impl w) then
      let d := set_dirty false (Widget.impl w) in
      let shown := if hide_text d then repeat bullet (length (text d)) else text d in
      let (shaped, cl) := make_text r shown in
      Widget.set_needs_refresh true (Widget.set_impl (set_shaped shaped cl d) w)
    else w in
  let d1 := Widget.impl w1 in
  let d2 := if no_blink_ticks d1 =? 0 then d1
            else set_no_blink_ticks (u32 (no_blink_ticks d1 - 1)) d1 in
  if Widget.selected w1 && negb (match clusters d2 with [] => true | _ => false end)
     && (negb (no_blink_ticks d2 =? 0) || blink_cursor r)
  then
    match cursor_offset (clusters d2) (text_size d2) (width (label d2)) (cursor d2) with
    | Some o => Some (Widget.set_impl (set_cursor_offs o d2) w1)
    | None => None
    end
  else Some (Widget.set_impl (set_cursor_offs (-1) d2) w1).

(** *** Click to cursor index ([TextEdit::event_click]) *)

Section ClickLoop.
(** [interp x1 x2 num den] is [i32(std::lerp(x1, x2, f32(num) / f32(den)))]. *)
Variable interp : Z -> Z -> Z -> Z -> Z.
(** [N] is [i32(text.size())], [x0] the left edge of the text and [mx] the
    mouse position. *)
Variables N x0 mx : Z.

(** The lambda [xoffs] of the loop body. *)
Definition click_xoffs (cur : Z) (c : Cluster) (prev : option Cluster) : Z :=
  if cur =? index c then xoffs c
  else
    let prev_x := match prev with Some p => xoffs p | None => 0 end in
    let prev_i := match prev with Some p => index p | None => 0 end in
    interp prev_x (xoffs c) (sub32 cur prev_i) (sub32 (index c) prev_i).

(** The [while] loop.  The iterator [it] is the part of the cluster list
    from its position on: [it != clusters.end()] is [it <> []] and [++it]
    drops the head.  The result is the cursor on leaving the loop, [None]
    when the fuel does not suffice. *)
Fixpoint click_loop (fuel : nat) (cur d : Z) (it : list Cluster)
    (prev : option Cluster) : option Z :=
  match fuel with
  | O => None
  | S fuel' =>
      if cur <? N then
        match it with
        | [] => Some cur
        | c :: rest =>
            let nd := abs32 (sub32 (add32 x0 (click_xoffs cur c prev)) mx) in
            if d <? nd then Some (sub32 cur 1)
            else
              let cur' := add32 cur 1 in
              click_loop fuel' cur' nd (if index c <? cur' then rest else it) (Some c)
        end
      else Some cur
  end.
End ClickLoop.

(** [std::clamp]. *)
Definition clamp (v lo hi : Z) : Z := if v <? lo then lo else if hi <? v then hi else v.

(** The left and right edge of the text, [x0] and [x1] of [event_click]. *)
Definition text_left (parent_box : AABB) (w : t) : Z :=
  i32 (x (TextPos parent_box w (label (Widget.impl w)))).
Definition text_right (parent_box : AABB) (w : t) : Z :=
  add32 (text_left parent_box w) (i32 (width (label (Widget.impl w)))).

Definition event_click (input : InputSystem.t) (parent_box : AABB) (w : t) : option t :=
  let d := set_no_blink_ticks 20 (Widget.impl w) in
  let N := text_size d in
  let mx := i32 (x (pos (InputSystem.mouse input))) in
  let x0 := text_left parent_box w in
  let x1 := text_right parent_box w in
  if mx <? x0 then Some (Widget.set_impl (set_cursor 0 d) w)
  else if x1 <? mx then Some (Widget.set_impl (set_cursor N d) w)
  else if (length (clusters d) <? 2)%nat then Some (Widget.set_impl (set_cursor 0 d) w)
  else
    match click_loop lerp_i32 N x0 mx (S (Z.to_nat N)) 0 (abs32 (sub32 x0 mx))
            (clusters d) None with
    | Some c => Some (Widget.set_impl (set_cursor (clamp c 0 N) d) w)
    | None => None
    end.

(** *** Keyboard and text input ([TextEdit::event_input]) *)

(** [std::u32string::insert(pos, str)]; [None] is [std::out_of_range]. *)
Definition insert (p : Z) (str s : u32string) : option u32string :=
  if (0 <=? p) && (p <=? Z.of_nat (length s))
  then Some (firstn (Z.to_nat p) s ++ str ++ skipn (Z.to_nat p) s)
  else None.

(** [std::u32string::erase(pos, n)]; [None] is [std::out_of_range]. *)
Definition erase (p n : Z) (s : u32string) : option u32string :=
  if (0 <=? p) && (p <=? Z.of_nat (length s))
  then Some (firstn (Z.to_nat p) s ++ skipn (Z.to_nat (p + n)) s)
  else None.

(** The characters of [ws]: space, tab, line feed, carriage return,
    vertical tab and form feed. *)
Definition ws : list Z := [32; 9; 10; 13; 11; 12].
Definition is_ws (c : Z) : bool := existsb (Z.eqb c) ws.

Fixpoint drop_while (f : Z -> bool) (s : u32string) : u32string :=
  match s with
  | [] => []
  | c :: rest => if f c then drop_while f rest else s
  end.

(** The stream operations of the support library: [trim_back] removes
    trailing white space, [drop_back_until_any] removes characters from the
    back until the last one is in the given set. *)
Definition trim_back (s : u32string) : u32string := rev (drop_while is_ws (rev s)).
Definition drop_back_until_any (s : u32string) : u32string :=
  rev (drop_while (fun c => negb (is_ws c)) (rev s)).

(** The lambda [Paste]. *)
Definition Paste (sdl : Sdl) (d : data) : data :=
  match clipboard sdl with
  | Some clip => set_dirty true (set_text (text d ++ clip) d)
  | None => d
  end.

Definition has_mod (m mask : Z) : bool := negb (Z.land m mask =? 0).

(** The body of the loop over [kb_events], after [no_blink_ticks = 20]. *)
Definition handle_key (sdl : Sdl) (d : data) (ev : Event) : option data :=
  let d := set_no_blink_ticks 20 d in
  match key ev with
  | SDLK_BACKSPACE =>
      if has_mod (mod_ ev) SDL_KMOD_CTRL then
        if (0 <=? cursor d) && (cursor d <=? Z.of_nat (length (text d))) then
          let segment := firstn (Z.to_nat (cursor d)) (text d) in
          let p := Z.of_nat (length (drop_back_until_any (trim_back segment))) in
          match erase p (usz (cursor d - p)) (text d) with
          | Some s => Some (set_dirty true (set_cursor (i32 p) (set_text s d)))
          | None => None
          end
        else None
      else if negb (cursor d =? 0) then
        let c := sub32 (cursor d) 1 in
        match erase c 1 (text d) with
        | Some s => Some (set_dirty true (set_text s (set_cursor c d)))
        | None => None
        end
      else Some d
  | SDLK_DELETE =>
      if negb (cursor d =? text_size d) then
        match erase (cursor d) 1 (text d) with
        | Some s => Some (set_dirty true (set_text s d))
        | None => None
        end
      else Some d
  | SDLK_LEFT => Some (set_cursor (Z.max 0 (sub32 (cursor d) 1)) d)
  | SDLK_RIGHT => Some (set_cursor (Z.min (text_size d) (add32 (cursor d) 1)) d)
  | SDLK_HOME => Some (set_cursor 0 d)
  | SDLK_END => Some (set_cursor (text_size d) d)
  | SDLK_V => Some (if has_mod (mod_ ev) SDL_KMOD_CTRL then Paste sdl d else d)
  | SDLK_INSERT => Some (if has_mod (mod_ ev) SDL_KMOD_SHIFT then Paste sdl d else d)
  | SDLK_other _ => Some d
  end.

Fixpoint handle_keys (sdl : Sdl) (d : data) (evs : list Event) : option data :=
  match evs with
  | [] => Some d
  | ev :: rest =>
      match handle_key sdl d ev with
      | Some d' => handle_keys sdl d' rest
      | None => None
      end
  end.

(** The first statement of [event_input]: copy the text input into the
    buffer. *)
Definition copy_text_input (input : InputSystem.t) (d : data) : option data :=
  match InputSystem.text_input input with
  | [] => Some d
  | ti =>
      let d1 := set_dirty true (set_no_blink_ticks 20 d) in
      match insert (cursor d1) ti (text d1) with
      | Some s => Some (set_cursor (add32 (cursor d1) (i32 (Z.of_nat (length ti)))) (set_text s d1))
      | None => None
      end
  end.

Definition event_input (sdl : Sdl) (input : InputSystem.t) (w : t) : option t :=
  match copy_text_input input (Widget.impl w) with
  | None => None
  | Some d1 =>
      match handle_keys sdl d1 (InputSystem.kb_events input) with
      | Some d2 => Some (Widget.set_impl d2 w)
      | None => None
      end
  end.

End TextEdit.

(** ** Cards *)

Module Card.
Import Int.

Inductive Scale : Type := OtherPlayer | Field | Large.

(** [NumScales], the enumerator that counts the scales. *)
Definition NumScales : Z := 3.

Definition Scale_index (s : Scale) : Z :=
  match s with OtherPlayer => 0 | Field => 1 | Large => 2 end.

Definition Scale_eqb (a b : Scale) : bool := Scale_index a =? Scale_index b.

(** [Scale(s - 1)]; there is no scale below [OtherPlayer]. *)
Definition Scale_pred (s : Scale) : option Scale :=
  match s with Large => Some Field | Field => Some OtherPlayer | OtherPlayer => None end.

Definition CardSize (s : Scale) : Size :=
  match s with OtherPlayer => SZ 60 90 | Field => SZ 120 180 | Large => SZ 240 360 end.

Definition Offset (s : Scale) : Z :=
  match s with OtherPlayer => 1 | Field => 2 | Large => 4 end.

(** The members of [Card] that layout reads or writes; [code_pos],
    [special_pos] and [name_pos] are the positions of the child labels.  The
    identity of the card, its glyph count and the font sizes of the labels
    play no part in the placement and are left out. *)
Record data : Type := Make {
  scale : Scale;
  scale_changed : bool;
  code_pos : Position.t;
  special_pos : Position.t;
  name_pos : Position.t
}.

Definition t : Type := Widget.t data.

(** The constructor [Card(parent, pos)]. *)
Definition create (p : Position.t) : t :=
  Widget.create p (Make Field true Position.default Position.default Position.default).

(** What the card database, which is outside the sources at hand, says of
    a [CardId]: [$$Count] is no card, and a card is a sound card or a power
    card. *)
Inductive IdKind : Type := NoCard | SoundCard | PowerCard.

(** [Card::set_id], as far as layout reads it: nothing happens for
    [$$Count] and for a power card; for a sound card the labels get their
    texts and the card asks for a refresh. *)
Definition set_id (ct : IdKind) (c : t) : t :=
  match ct with
  | SoundCard => Widget.set_needs_refresh true c
  | NoCard | PowerCard => c
  end.

(** [TRIVIAL_CACHING_SETTER(Card, Scale, scale, scale_changed = true)]. *)
Definition set_scale (new_value : Scale) (c : t) : t :=
  let d := Widget.impl c in
  if Scale_eqb (scale d) new_value then c
  else Widget.set_needs_refresh true
         (Widget.set_impl (Make new_value true (code_pos d) (special_pos d) (name_pos d)) c).

(** [Card::refresh]; [code_ht] is the height that the renderer gives the
    code label, [code.size(r).ht]. *)
Definition refresh (code_ht : Z) (parent_box : AABB) (c : t) : t :=
  let d := Widget.impl c in
  let s := scale d in
  let c1 := Widget.SetBoundingBox
              (Box (Position.relative_box (Widget.pos c) parent_box (CardSize s)) (CardSize s)) c in
  if negb (scale_changed d) then c1
  else
    Widget.set_impl
      (Make s false
         (Position.at_ (Offset s) (i32 (- Offset s)) Anchor.Default)
         (Position.HCenter (i32 (10 * Offset s)) Anchor.Default)
         (Position.at_ (Offset s) (i32 (- (i32 (4 * Offset s + code_ht)))) Anchor.Default))
      c1.
End Card.

Module CardGroup.
Import Int.

Definition CardGaps (s : Card.Scale) : Z :=
  match s with Card.OtherPlayer => 5 | Card.Field => 10 | Card.Large => 20 end.

Record data : Type := Make {
  scale : Card.Scale;
  max_width : Z;
  autoscale : bool;
  cards : list Card.t
}.

Definition t : Type := Widget.t data.

(** The constructor [CardGroup(parent, pos)], without cards. *)
Definition create (p : Position.t) : t :=
  Widget.create p (Make Card.Field 0 false []).

Definition set_cards (cs : list Card.t) (d : data) : data :=
  Make (scale d) (max_width d) (autoscale d) cs.

(** [CardGroup::add]: the new card is created at the default position,
    gets its id, and the group asks for a refresh. *)
Definition add (c : Card.IdKind) (g : t) : t :=
  Widget.set_needs_refresh true
    (Widget.set_impl
       (set_cards (cards (Widget.impl g) ++ [Card.set_id c (Card.create Position.default)])
          (Widget.impl g)) g).

(** The three caching setters. *)
Definition set_autoscale (new_value : bool) (g : t) : t :=
  let d := Widget.impl g in
  if Bool.eqb (autoscale d) new_value then g
  else Widget.set_needs_refresh true
         (Widget.set_impl (Make (scale d) (max_width d) new_value (cards d)) g).
Definition set_max_width (new_value : Z) (g : t) : t :=
  let d := Widget.impl g in
  if max_width d =? new_value then g
  else Widget.set_needs_refresh true
         (Widget.set_impl (Make (scale d) new_value (autoscale d) (cards d)) g).
Definition set_scale (new_value : Card.Scale) (g : t) : t :=
  let d := Widget.impl g in
  if Card.Scale_eqb (scale d) new_value then g
  else Widget.set_needs_refresh true
         (Widget.set_impl (Make new_value (max_width d) (autoscale d) (cards d)) g).

(** The width that the loop of [refresh] computes for [count] cards at scale
    [s], in [usz] arithmetic converted to [i32]. *)
Definition row_width (count : Z) (s : Card.Scale) : Z :=
  i32 (usz (usz (count * wd (Card.CardSize s)) + usz (usz (count - 1) * CardGaps s))).

(** The loop [while (s != scale)] of [refresh], started at [s]; [None] when
    the fuel does not suffice or the scale runs below [OtherPlayer]. *)
Fixpoint autoscale_loop (fuel : nat) (scale_ : Card.Scale) (count width_ : Z)
    (s : Card.Scale) : option Card.Scale :=
  match fuel with
  | O => None
  | S fuel' =>
      if Card.Scale_eqb s scale_ then Some s
      else if row_width count s <? width_ then Some s
      else
        match Card.Scale_pred s with
        | Some s' => autoscale_loop fuel' scale_ count width_ s'
        | None => None
        end
  end.

(** The scale that [refresh] selects. *)
Definition select_scale (g : t) : option Card.Scale :=
  let d := Widget.impl g in
  let width_ := if negb (max_width d =? 0) then max_width d
                else wd (size (Widget.bounding_box g)) in
  if autoscale d
  then autoscale_loop (Z.to_nat Card.NumScales) (scale d)
         (Z.of_nat (length (cards d))) width_ Card.Large
  else Some (scale d).

(** The first loop over the cards: give each card the scale and its
    position in the row; returns the cards and the final [x]. *)
Fixpoint place_cards (s : Card.Scale) (x_ : Z) (cs : list Card.t) : list Card.t * Z :=
  match cs with
  | [] => ([], x_)
  | c :: rest =>
      let c' := Widget.set_pos (Position.VCenter x_ Anchor.Default) (Card.set_scale s c) in
      let (rest', xf) := place_cards s (add32 x_ (add32 (wd (Card.CardSize s)) (CardGaps s))) rest in
      (c' :: rest', xf)
  end.

(** [CardGroup::refresh]; [code_ht] gives the height of the code label of a
    card as the renderer reports it. *)
Definition refresh (code_ht : Card.t -> Z) (parent_box : AABB) (g : t) : option t :=
  match cards (Widget.impl g) with
  | [] => Some g
  | _ =>
      match select_scale g with
      | None => None
      | Some s =>
          let (placed, xf) := place_cards s 0 (cards (Widget.impl g)) in
          let sz := SZ (sub32 xf (CardGaps s)) (ht (Card.CardSize s)) in
          let box := Box (Position.relative_box (Widget.pos g) parent_box sz) sz in
          let g1 := Widget.SetBoundingBox box g in
          Some (Widget.set_impl
                  (set_cards (map (fun c => Card.refresh (code_ht c) box c) placed)
                     (Widget.impl g1)) g1)
      end
  end.

End CardGroup.

(** ** Screen *)

(** The virtual functions of a widget, for widgets whose derived members have
    type [T] and a renderer of type [R].  Each receives the bounding box of
    the parent and returns the widget as the call leaves it: as the widgets
    of the source do, a virtual function changes the widget it is called on
    and neither its siblings nor the input. *)
Class Virtuals (R T : Type) : Type := {
  virtual_refresh : R -> AABB -> Widget.t T -> Widget.t T;
  virtual_event_click : InputSystem.t -> AABB -> Widget.t T -> Widget.t T;
  virtual_event_input : InputSystem.t -> AABB -> Widget.t T -> Widget.t T
}.

(** [Widget] itself: the virtual functions with their empty default
    bodies. *)
Definition Widget_defaults (R T : Type) : Virtuals R T := {|
  virtual_refresh := fun _ _ w => w;
  virtual_event_click := fun _ _ w => w;
  virtual_event_input := fun _ _ w => w
|}.

(** The virtual calls a screen makes, by the position of the child. *)
Inductive Call : Type :=
  | CallRefresh (i : nat)
  | CallEventClick (i : nat)
  | CallEventInput (i : nat).

(** [replace_nth i v l]: the list [l] with the element at [i] replaced. *)
Fixpoint replace_nth {A : Type} (i : nat) (v : A) (l : list A) : list A :=
  match l, i with
  | [], _ => []
  | _ :: rest, O => v :: rest
  | a :: rest, S j => a :: replace_nth j v rest
  end.

Module Screen.

Record t (T : Type) : Type := Make {
  bounding_box : AABB;
  children : list (Widget.t T);
  selected_element : option nat;   (* position of the selected child *)
  prev_size : Size
}.
Arguments Make {T}.
Arguments bounding_box {T}.
Arguments children {T}.
Arguments selected_element {T}.
Arguments prev_size {T}.

Section Ops.
Context {R T : Type} {V : Virtuals R T}.
(** [r.size()] and [AABB::contains], both declared by the renderer
    interface. *)
Variable rsize : R -> Size.
Variable contains : AABB -> xy -> bool.

(** A loop of [Screen::refresh] over the children from position [i] on:
    a child that satisfies [cond] has its flag cleared and is refreshed. *)
Fixpoint refresh_children (cond : Widget.t T -> bool) (r : R) (box : AABB)
    (i : nat) (l : list (Widget.t T)) : list (Widget.t T) * list Call :=
  match l with
  | [] => ([], [])
  | e :: rest =>
      let (rest', calls) := refresh_children cond r box (S i) rest in
      if cond e
      then (virtual_refresh r box (Widget.set_needs_refresh false e) :: rest',
            CallRefresh i :: calls)
      else (e :: rest', calls)
  end.

(** [Screen::refresh]. *)
Definition refresh (r : R) (s : t T) : t T * list Call :=
  let box := Box (XY 0 0) (rsize r) in
  if Size_eqb (prev_size s) (rsize r) then
    let (cs, calls) := refresh_children Widget.needs_refresh r box 0 (children s) in
    (Make box cs (selected_element s) (prev_size s), calls)
  else
    let (cs, calls) :=
      refresh_children (fun e => Widget.visible e || Widget.needs_refresh e) r box 0
        (children s) in
    (Make box cs (selected_element s) (rsize r), calls).

(** The body of the loop of [Screen::tick] for the child [e] at position
    [i]; [sel] is [selected_element]. *)
Definition tick_child (input : InputSystem.t) (box : AABB) (i : nat)
    (sel : option nat) (e : Widget.t T) : Widget.t T * option nat * list Call :=
  if Widget.visible e then
    let e1 := Widget.reset_properties e in
    let e2 := Widget.set_hovered
                (contains (Widget.bounding_box e1) (pos (InputSystem.mouse input))) e1 in
    if Widget.hovered e2 && left (InputSystem.mouse input) then
      (virtual_event_click input box e2,
       (if Widget.selectable e2 then Some i else sel),
       [CallEventClick i])
    else (e2, sel, [])
  else (e, sel, []).

(** The child [e] is visible and under the mouse during a left click. *)
Definition clicked_on (input : InputSystem.t) (e : Widget.t T) : bool :=
  Widget.visible e
  && contains (Widget.bounding_box e) (pos (InputSystem.mouse input))
  && left (InputSystem.mouse input).

(** The child [e] as the loop of [Screen::tick] leaves it. *)
Definition ticked (input : InputSystem.t) (box : AABB) (e : Widget.t T) : Widget.t T :=
  fst (fst (tick_child input box 0 None e)).

(** The loop of [Screen::tick] over the visible children, from position [i]
    on. *)
Fixpoint tick_children (input : InputSystem.t) (box : AABB) (i : nat)
    (sel : option nat) (l : list (Widget.t T))
    : list (Widget.t T) * option nat * list Call :=
  match l with
  | [] => ([], sel, [])
  | e :: rest =>
      let '(e', sel', calls) := tick_child input box i sel e in
      let '(rest', sel'', calls') := tick_children input box (S i) sel' rest in
      (e' :: rest', sel'', calls ++ calls')
  end.

(** [Screen::tick].  [None] when [selected_element] does not point to a
    child of the screen. *)
Definition tick (input : InputSystem.t) (sdl : Sdl) (s : t T)
    : option (t T * InputSystem.t * Sdl * list Call) :=
  let sel0 := if left (InputSystem.mouse input) then None else selected_element s in
  let '(cs, sel, calls) := tick_children input (bounding_box s) 0 sel0 (children s) in
  match sel with
  | Some i =>
      match nth_error cs i with
      | Some e =>
          let e' := virtual_event_input input (bounding_box s) (Widget.set_selected true e) in
          let (input', sdl') := InputSystem.update_selection true (input, sdl) in
          Some (Make (bounding_box s) (replace_nth i e' cs) sel (prev_size s),
                input', sdl', calls ++ [CallEventInput i])
      | None => None
      end
  | None =>
      let (input', sdl') := InputSystem.update_selection false (input, sdl) in
      Some (Make (bounding_box s) cs None (prev_size s), input', sdl', calls)
  end.

End Ops.
End Screen.

(** * Vocabulary of the properties *)

Section Vocabulary.
Import Int.

(** The point [Position::relative] holds before the anchor is applied. *)
Definition resolved (p : Position.t) (parent : xy) (parent_size object_size : Size) : xy :=
  XY (add32 (add32 (i32 (x parent))
               (Position.Clamp (x (Position.base p)) (wd object_size) (wd parent_size)))
        (Position.xadjust p))
     (add32 (add32 (i32 (y parent))
               (Position.Clamp (y (Position.base p)) (ht object_size) (ht parent_size)))
        (Position.yadjust p)).

(** The extent of the object that an anchor subtracts on each axis. *)
Definition anchor_extent (a : Anchor.t) (object_size : Size) : Z * Z :=
  let w := wd object_size in
  let h := ht object_size in
  match a with
  | Anchor.North => (div32 w 2, h)
  | Anchor.NorthEast => (w, h)
  | Anchor.East => (w, div32 h 2)
  | Anchor.SouthEast => (w, 0)
  | Anchor.South => (div32 w 2, 0)
  | Anchor.SouthWest => (0, 0)
  | Anchor.West => (0, div32 h 2)
  | Anchor.NorthWest => (0, h)
  | Anchor.Center => (div32 w 2, div32 h 2)
  end.

(** The width of a row of [count] cards at scale [s]. *)
Definition total_width (count : Z) (s : Card.Scale) : Z :=
  count * wd (Card.CardSize s) + (count - 1) * CardGroup.CardGaps s.

(** The width against which [refresh] tests a row. *)
Definition available_width (g : CardGroup.t) : Z :=
  if CardGroup.max_width (Widget.impl g) =? 0
  then wd (size (Widget.bounding_box g))
  else CardGroup.max_width (Widget.impl g).

(** A group of four sound cards with scale [s], automatic scaling and a
    maximum width of 300, built with the operations of [CardGroup]. *)
Definition four_cards (s : Card.Scale) : CardGroup.t :=
  CardGroup.set_scale s
    (CardGroup.set_max_width 300
       (CardGroup.set_autoscale true
          (CardGroup.add Card.SoundCard (CardGroup.add Card.SoundCard
             (CardGroup.add Card.SoundCard (CardGroup.add Card.SoundCard
                (CardGroup.create Position.default))))))).

(** The step from one card of the row to the next. *)
Definition card_step (s : Card.Scale) : Z := wd (Card.CardSize s) + CardGroup.CardGaps s.

(** The clusters are sorted ascending by index. *)
Fixpoint sorted_by_index (l : list Cluster) : bool :=
  match l with
  | a :: ((b :: _) as rest) => (index a <=? index b) && sorted_by_index rest
  | _ => true
  end.

(** Well-formed shaping output: sorted, and the first cluster has index 0. *)
Definition well_formed (l : list Cluster) : bool :=
  sorted_by_index l && match l with c :: _ => index c =? 0 | [] => false end.

(** The first cluster whose index is at least [c], with the cluster before
    it, found by walking the list; [prev] is the cluster before [l]. *)
Fixpoint bracket (c : Z) (prev : option Cluster) (l : list Cluster)
    : option Cluster * option Cluster :=
  match l with
  | [] => (prev, None)
  | k :: rest => if c <=? index k then (prev, Some k) else bracket c (Some k) rest
  end.

(** The linear interpolation [lerp(x1, x2, num / den)] of the
    specification, [x1 + (x2 - x1) * num / den], as a fraction: numerator and
    denominator. *)
Definition interpolate (x1 x2 num den : Z) : Z * Z :=
  (den * x1 + num * (x2 - x1), den).

(** The whole pixels of a fraction of a pixel. *)
Definition whole_pixels (f : Z * Z) : Z := fst f / snd f.

(** The mapping from cursor index to pixel offset as the specification words
    it, as a fraction of a pixel. *)
Definition cursor_offset_spec (cl : list Cluster) (N wdt c : Z) : option (Z * Z) :=
  if c =? 0 then Some (0, 1)
  else if c =? N then Some (wdt, 1)
  else
    match find (fun k => index k =? c) cl with
    | Some k => Some (xoffs k, 1)
    | None =>
        match bracket c None cl with
        | (Some p, Some k) =>
            Some (interpolate (xoffs p) (xoffs k) (c - index p) (index k - index p))
        | (Some p, None) =>
            Some (interpolate (xoffs p) wdt (c - index p) (N - index p))
        | (None, _) => None
        end
    end.

(** ** The value of a float *)

(** [bpow e] is 2 to the power [e], as a real number. *)
Definition bpow (e : Z) : R := powerRZ 2 e.

(** The real number a float stands for; 0 for the infinities and NaN. *)
Definition SF2R (f : spec_float) : R :=
  match f with
  | S754_finite s m e => IZR (cond_Zopp s (Zpos m)) * bpow e
  | _ => 0%R
  end.

(** The float [f] is finite, not zero, has the sign [s] and a mantissa of
    [prec] bits. *)
Definition normal (prec : Z) (s : bool) (f : spec_float) : Prop :=
  match f with
  | S754_finite s' m _ => s' = s /\ Zpos (digits2_pos m) = prec
  | _ => False
  end.

(** [p] splits [l] into the clusters with an index below [c] and the
    others. *)
Definition partition_at (l : list Cluster) (c : Z) (p : nat) : Prop :=
  (p <= length l)%nat /\
  (forall j k, (j < p)%nat -> nth_error l j = Some k -> index k < c) /\
  (forall j k, (p <= j)%nat -> nth_error l j = Some k -> c <= index k).

(** The length of the clipboard text, 0 when there is none. *)
Definition clipboard_length (sdl : Sdl) : Z :=
  match clipboard sdl with Some clip => Z.of_nat (length clip) | None => 0 end.

(** The cursor lies within the text. *)
Definition cursor_in_text (d : TextEdit.data) : Prop :=
  0 <= TextEdit.cursor d <= Z.of_nat (length (TextEdit.text d)).

(** A text edit holding the text "fluff" shaped with the ligature "fl" as
    one cluster, the cursor after the first character. *)
Definition fluff : TextEdit.t :=
  Widget.SetBoundingBox (Box (XY 0 0) (SZ 256 30))
    (Widget.create (Position.at_ 20 20 Anchor.Default)
       (TextEdit.Make (Shaped 50 12 3 (SZ 50 12)) (-1)
          [102; 108; 117; 102; 102]
          [CL 0 0; CL 2 20; CL 3 30; CL 4 40]
          false false 1 0)).

(** A click in the middle of "fluff" while the text "ab" is typed and
    Ctrl+Backspace, Left, Delete and Ctrl+V are pressed. *)
Definition typing : InputSystem.t :=
  InputSystem.Make true [97; 98]
    [Ev SDLK_BACKSPACE 64; Ev SDLK_LEFT 0; Ev SDLK_DELETE 0; Ev SDLK_V 128]
    (Mouse (XY 148 30) true false false) false.

End Vocabulary.

(** ** A concrete screen *)

(** A box contains the points from its origin up to, not including, its
    far corner. *)
Definition contains_half_open (b : AABB) (p : xy) : bool :=
  (x (origin b) <=? x p) && (x p <? x (origin b) + wd (size b))
  && (y (origin b) <=? y p) && (y p <? y (origin b) + ht (size b)).

(** A widget with the virtual functions of [Widget] at a box. *)
Definition plain (selectable_ visible_ needs_refresh_ : bool) (b : AABB) : Widget.t unit :=
  Widget.Make false selectable_ false visible_ needs_refresh_ Position.default b tt.

(** A screen of three children: a selectable one and one that is not, both
    under the point (15, 15), and a hidden one that asked for a refresh; the
    hidden child is the selected one. *)
Definition three_children : Screen.t unit :=
  Screen.Make (Box (XY 0 0) (SZ 800 600))
    [plain true true false (Box (XY 10 10) (SZ 100 20));
     plain false true false (Box (XY 0 0) (SZ 50 50));
     plain true false true (Box (XY 200 200) (SZ 10 10))]
    (Some 2%nat) (SZ 800 600).

(** The input of a tick with a left click at [p] and no keys. *)
Definition left_click_at (p : xy) : InputSystem.t :=
  InputSystem.Make true [] [] (Mouse p true false false) false.

(** Widgets whose [event_click] asks for a refresh and whose other virtual
    functions are those of [Widget]. *)
Definition click_marks : Virtuals Size unit := {|
  virtual_refresh := fun _ _ w => w;
  virtual_event_click := fun _ _ w => Widget.set_needs_refresh true w;
  virtual_event_input := fun _ _ w => w
|}.

(** * Further operations *)

(** ** InputSystem::process_events *)

(** The events of SDL that [process_events] tells apart; the text of a text
    input event is the text that [text::ToUTF32] returns for it. *)
Inductive SDL_Event : Type :=
  | SDL_EVENT_QUIT
  | SDL_EVENT_MOUSE_BUTTON_DOWN (button : Z)
  | SDL_EVENT_KEY_DOWN (k : Key) (m : Z)
  | SDL_EVENT_TEXT_INPUT (txt : u32string)
  | SDL_EVENT_unhandled.

Definition SDL_BUTTON_LEFT : Z := 1.
Definition SDL_BUTTON_MIDDLE : Z := 2.
Definition SDL_BUTTON_RIGHT : Z := 3.

(** [SDLK_F12], 0x40000045. *)
Definition SDLK_F12 : Key := SDLK_other 1073741893.

Definition is_F12 (k : Key) : bool :=
  match k with SDLK_other code => code =? 1073741893 | _ => false end.

(** The body of the loop over [SDL_PollEvent]; the number counts the calls
    of [renderer.reload_shaders()]. *)
Definition process_event (st : InputSystem.t * nat) (event : SDL_Event)
    : InputSystem.t * nat :=
  let (input, reloads) := st in
  match event with
  | SDL_EVENT_QUIT =>
      (InputSystem.Make (InputSystem.was_selected input) (InputSystem.text_input input)
         (InputSystem.kb_events input) (InputSystem.mouse input) true, reloads)
  | SDL_EVENT_MOUSE_BUTTON_DOWN button =>
      let m := InputSystem.mouse input in
      let m1 := if button =? SDL_BUTTON_LEFT
                then Mouse (pos m) true (right m) (middle m) else m in
      let m2 := if button =? SDL_BUTTON_RIGHT
                then Mouse (pos m1) (left m1) true (middle m1) else m1 in
      let m3 := if button =? SDL_BUTTON_MIDDLE
                then Mouse (pos m2) (left m2) (right m2) true else m2 in
      (InputSystem.Make (InputSystem.was_selected input) (InputSystem.text_input input)
         (InputSystem.kb_events input) m3 (InputSystem.quit input), reloads)
  | SDL_EVENT_KEY_DOWN k m =>
      (InputSystem.Make (InputSystem.was_selected input) (InputSystem.text_input input)
         (InputSystem.kb_events input ++ [Ev k m]) (InputSystem.mouse input)
         (InputSystem.quit input),
       if is_F12 k then S reloads else reloads)
  | SDL_EVENT_TEXT_INPUT txt =>
      (InputSystem.Make (InputSystem.was_selected input) (InputSystem.text_input input ++ txt)
         (InputSystem.kb_events input) (InputSystem.mouse input) (InputSystem.quit input),
       reloads)
  | SDL_EVENT_unhandled => st
  end.

(** [InputSystem::process_events] on the pending events of SDL;
    [mouse_pos] is the mouse position as [SDL_GetMouseState] and the height
    of the renderer give it. *)
Definition process_events (mouse_pos : xy) (events : list SDL_Event)
    (input : InputSystem.t) : InputSystem.t * nat :=
  fold_left process_event events
    (InputSystem.Make (InputSystem.was_selected input) [] []
       (Mouse mouse_pos false false false) (InputSystem.quit input), 0%nat).

(** A run of polls, one per tick, each with its mouse position and pending
    events. *)
Fixpoint process_polls (polls : list (xy * list SDL_Event)) (input : InputSystem.t)
    : InputSystem.t :=
  match polls with
  | [] => input
  | (p, events) :: rest => process_polls rest (fst (process_events p events input))
  end.

(** ** Screen::Create *)

(** [Screen::Create]: the constructed widget [w] becomes the last child. *)
Definition Create {T : Type} (w : Widget.t T) (s : Screen.t T) : Screen.t T :=
  Screen.Make (Screen.bounding_box s) (Screen.children s ++ [w])
    (Screen.selected_element s) (Screen.prev_size s).

(** * Vocabulary of the further properties *)

(** [selected_element] points to a child of the screen. *)
Definition selection_valid {T : Type} (s : Screen.t T) : Prop :=
  forall i, Screen.selected_element s = Some i -> (i < length (Screen.children s))%nat.

(** The positions, counted from [i], of the elements of [l] that satisfy
    [f], in ascending order. *)
Fixpoint positions {A : Type} (f : A -> bool) (i : nat) (l : list A) : list nat :=
  match l with
  | [] => []
  | a :: rest => if f a then i :: positions f (S i) rest else positions f (S i) rest
  end.

(** The last element of a list, if any. *)
Definition last_of {A : Type} (l : list A) : option A :=
  match rev l with a :: _ => Some a | [] => None end.

(** A run of draws of a text edit, one renderer state per frame. *)
Fixpoint draws (rs : list TextEdit.Renderer) (w : TextEdit.t) : option TextEdit.t :=
  match rs with
  | [] => Some w
  | r :: rest =>
      match TextEdit.draw r w with
      | Some w' => draws rest w'
      | None => None
      end
  end.

(** One cluster per character from index [i] on, each starting right of
    [prev_x]. *)
Fixpoint per_character_from (i prev_x : Z) (cl : list Cluster) : bool :=
  match cl with
  | [] => true
  | c :: rest => (index c =? i) && (prev_x <? xoffs c) && per_character_from (i + 1) (xoffs c) rest
  end.

(** The shaping of a text without ligatures: the cluster of the first
    character is (0, 0), and every further character has a cluster of its
    own further right. *)
Definition per_character (cl : list Cluster) : bool :=
  match cl with
  | c :: rest => (index c =? 0) && (xoffs c =? 0) && per_character_from 1 0 rest
  | [] => false
  end.

(** The widget [w] with the text edit members [d]. *)
Definition with_data (d : TextEdit.data) (w : TextEdit.t) : TextEdit.t := Widget.set_impl d w.

(** The key presses of a poll, in the order of arrival. *)
Definition keys_of (events : list SDL_Event) : list Event :=
  flat_map (fun ev => match ev with SDL_EVENT_KEY_DOWN k m => [Ev k m] | _ => [] end) events.

(** The text typed during a poll. *)
Definition texts_of (events : list SDL_Event) : u32string :=
  flat_map (fun ev => match ev with SDL_EVENT_TEXT_INPUT txt => txt | _ => [] end) events.

(** Some event of the poll is a press of the mouse button [b]. *)
Definition pressed (b : Z) (events : list SDL_Event) : bool :=
  existsb (fun ev => match ev with SDL_EVENT_MOUSE_BUTTON_DOWN b' => b' =? b | _ => false end)
    events.

(** Some event of the poll asks to quit. *)
Definition quit_seen (events : list SDL_Event) : bool :=
  existsb (fun ev => match ev with SDL_EVENT_QUIT => true | _ => false end) events.

(** The number of presses of F12 in a poll. *)
Definition F12_presses (events : list SDL_Event) : nat :=
  length (filter (fun ev => match ev with SDL_EVENT_KEY_DOWN k _ => is_F12 k | _ => false end)
            events).

(** A text edit holding the text "abc", one cluster per character, each
    character 10 wide; the text spans x = 133 to x = 163 in a parent box at
    the origin. *)
Definition abc : TextEdit.t :=
  Widget.SetBoundingBox (Box (XY 0 0) (SZ 256 30))
    (Widget.create (Position.at_ 20 20 Anchor.Default)
       (TextEdit.Make (Shaped 30 12 3 (SZ 30 12)) (-1) [97; 98; 99]
          [CL 0 0; CL 1 10; CL 2 20] false false 0 0)).

(** The key events that reach the text: Backspace, Delete and the two paste
    shortcuts. *)
Definition edits (ev : Event) : bool :=
  match key ev with
  | SDLK_BACKSPACE | SDLK_DELETE => true
  | SDLK_V => TextEdit.has_mod (mod_ ev) SDL_KMOD_CTRL
  | SDLK_INSERT => TextEdit.has_mod (mod_ ev) SDL_KMOD_SHIFT
  | _ => false
  end.

(** The input of a frame in which [ti] was typed and the keys [evs] were
    pressed, the mouse at rest. *)
Definition frame_input (ti : u32string) (evs : list Event) : InputSystem.t :=
  InputSystem.Make true ti evs (Mouse (XY 0 0) false false false) false.

(** The clusters that the cursor code of [TextEdit::draw] reads: those of
    the renderer when the text is reshaped, the stored ones otherwise. *)
Definition drawn_clusters (r : TextEdit.Renderer) (d : TextEdit.data) : list Cluster :=
  if TextEdit.dirty d then
    snd (TextEdit.make_text r
           (if TextEdit.hide_text d then repeat TextEdit.bullet (length (TextEdit.text d))
            else TextEdit.text d))
  else TextEdit.clusters d.

(** The widget [w] holding the text [s]. *)
Definition with_text (s : u32string) (w : TextEdit.t) : TextEdit.t :=
  Widget.set_impl (TextEdit.set_text s (Widget.impl w)) w.

(** A renderer that shapes every character 10 wide into a cluster of its
    own, with the given phase of the blinking cursor. *)
Definition monospace (blink : bool) : TextEdit.Renderer :=
  TextEdit.Rend
    (fun s =>
       let n := Z.of_nat (length s) in
       (Shaped (10 * n) 12 3 (SZ (10 * n) 12),
        map (fun i => CL (Z.of_nat i) (10 * Z.of_nat i)) (seq 0 (length s))))
    blink.

(** The text edit [abc] selected, after "d" was typed at its end and before
    it is drawn again. *)
Definition abcd_typed : TextEdit.t :=
  Widget.set_selected true
    (Widget.set_impl
       (TextEdit.Make (Shaped 30 12 3 (SZ 30 12)) (-1) [97; 98; 99; 100]
          [CL 0 0; CL 1 10; CL 2 20] true false 4 20) abc).

(** * Properties *)

(** ** Fixed-width integers *)

Section IntFacts.
Import Int.

Lemma i32_id (z : Z) : in_i32 z -> i32 z = z.
Proof.
  unfold in_i32, INT_MIN, INT_MAX, i32, signed. intros H.
  change (2 ^ (32 - 1)) with 2147483648. change (2 ^ 32) with 4294967296.
  rewrite Z.mod_small; lia.
Qed.

Lemma i32_range (z : Z) : in_i32 (i32 z).
Proof.
  unfold in_i32, INT_MIN, INT_MAX, i32, signed.
  change (2 ^ (32 - 1)) with 2147483648. change (2 ^ 32) with 4294967296.
  pose proof (Z.mod_pos_bound (z + 2147483648) 4294967296). lia.
Qed.

Lemma i32_idem (z : Z) : i32 (i32 z) = i32 z.
Proof. apply i32_id, i32_range. Qed.

Lemma i32_add_l (a b : Z) : i32 (i32 a + b) = i32 (a + b).
Proof.
  unfold i32, signed. f_equal.
  replace ((a + 2 ^ (32 - 1)) mod 2 ^ 32 - 2 ^ (32 - 1) + b + 2 ^ (32 - 1))
    with ((a + 2 ^ (32 - 1)) mod 2 ^ 32 + b) by lia.
  rewrite Zplus_mod_idemp_l. f_equal. lia.
Qed.

Lemma i32_add_r (a b : Z) : i32 (a + i32 b) = i32 (a + b).
Proof. rewrite Z.add_comm, i32_add_l. f_equal. lia. Qed.

Lemma i32_sub_l (a b : Z) : i32 (i32 a - b) = i32 (a - b).
Proof. unfold Z.sub. apply i32_add_l. Qed.

Lemma sub32_exact (a b : Z) : in_i32 (a - b) -> sub32 a b = a - b.
Proof. apply i32_id. Qed.

Lemma add32_exact (a b : Z) : in_i32 (a + b) -> add32 a b = a + b.
Proof. apply i32_id. Qed.

Lemma quot2_in_i32 (z : Z) : in_i32 z -> in_i32 (z ÷ 2).
Proof.
  unfold in_i32, INT_MIN, INT_MAX. intros H.
  pose proof (Z.quot_rem z 2 ltac:(lia)) as E.
  pose proof (Z.rem_bound_abs z 2 ltac:(lia)) as B. lia.
Qed.

End IntFacts.

(** ** Position::relative *)

Section PositionFacts.
Import Int.

Lemma add32_sub32_0 (a b : Z) : sub32 (add32 a b) 0 = add32 a b.
Proof. unfold sub32, add32. rewrite Z.sub_0_r. apply i32_idem. Qed.

Lemma relative_unfold (p : Position.t) (parent : xy) (ps os : Size) :
  Position.relative p parent ps os =
  Position.Adjust p (resolved p parent ps os)
    (fst (anchor_extent (Position.anchor p) os))
    (snd (anchor_extent (Position.anchor p) os)).
Proof.
  unfold Position.relative, resolved.
  destruct (Position.anchor p); cbn [anchor_extent fst snd]; try reflexivity.
  unfold Position.Adjust; cbn [x y].
  rewrite !add32_sub32_0.
  destruct (x (Position.base p) =? Position.Centered),
           (y (Position.base p) =? Position.Centered); reflexivity.
Qed.

Lemma relative_x_centered (by_ xa ya : Z) (a : Anchor.t) (parent : xy) (ps os : Size) :
  x (Position.relative (Position.Make (XY Position.Centered by_) xa ya a) parent ps os) =
  add32 (add32 (i32 (x parent)) (div32 (sub32 (wd ps) (wd os)) 2)) xa.
Proof.
  rewrite relative_unfold. unfold Position.Adjust, resolved, Position.Clamp.
  cbn [x y Position.base Position.xadjust Position.yadjust].
  rewrite Z.eqb_refl. reflexivity.
Qed.

Lemma relative_y_centered (bx xa ya : Z) (a : Anchor.t) (parent : xy) (ps os : Size) :
  y (Position.relative (Position.Make (XY bx Position.Centered) xa ya a) parent ps os) =
  add32 (add32 (i32 (y parent)) (div32 (sub32 (ht ps) (ht os)) 2)) ya.
Proof.
  rewrite relative_unfold. unfold Position.Adjust, resolved, Position.Clamp.
  cbn [x y Position.base Position.xadjust Position.yadjust].
  rewrite Z.eqb_refl. reflexivity.
Qed.

(** On an axis without overflow the centred coordinate is the origin plus
    half the free space plus the adjustment. *)
Lemma centered_coordinate (o total obj adj : Z) :
  in_i32 (total - obj) -> in_i32 (o + (total - obj) ÷ 2 + adj) ->
  add32 (add32 (i32 o) (div32 (sub32 total obj) 2)) adj = o + (total - obj) ÷ 2 + adj.
Proof.
  intros H1 H2. unfold add32, div32, sub32.
  rewrite (i32_id (total - obj)) by assumption.
  rewrite (i32_id ((total - obj) ÷ 2)) by (apply quot2_in_i32; assumption).
  rewrite i32_add_l, <- Z.add_assoc, i32_add_l, Z.add_assoc. apply i32_id. assumption.
Qed.

(** C4: on an axis whose base coordinate is the sentinel [Centered] the
    anchor plays no part: the x coordinate of a position centred in x, the
    y coordinate of a position centred in y, and both coordinates of
    [Position::Center()] are the same with each of the nine anchors as with
    [Anchor::SouthWest], for every container origin, container size and
    object size. *)
Theorem centered_axis_ignores_anchor :
  (forall by_ xa ya a parent ps os,
      x (Position.relative (Position.Make (XY Position.Centered by_) xa ya a) parent ps os) =
      x (Position.relative (Position.Make (XY Position.Centered by_) xa ya Anchor.SouthWest)
           parent ps os)) /\
  (forall bx xa ya a parent ps os,
      y (Position.relative (Position.Make (XY bx Position.Centered) xa ya a) parent ps os) =
      y (Position.relative (Position.Make (XY bx Position.Centered) xa ya Anchor.SouthWest)
           parent ps os)) /\
  (forall a parent ps os,
      Position.relative (Position.Center a) parent ps os =
      Position.relative (Position.Center Anchor.SouthWest) parent ps os).
Proof.
  split; [| split].
  - intros. rewrite !relative_x_centered. reflexivity.
  - intros. rewrite !relative_y_centered. reflexivity.
  - intros a parent ps os. unfold Position.Center, Position.at_.
    pose proof (relative_x_centered Position.Centered 0 0 a parent ps os) as Hx.
    pose proof (relative_y_centered Position.Centered 0 0 a parent ps os) as Hy.
    pose proof (relative_x_centered Position.Centered 0 0 Anchor.SouthWest parent ps os) as Hx'.
    pose proof (relative_y_centered Position.Centered 0 0 Anchor.SouthWest parent ps os) as Hy'.
    destruct (Position.relative _ _ _ _) as [x1 y1] in Hx, Hy |- *.
    destruct (Position.relative _ _ _ _) as [x2 y2] in Hx', Hy' |- *.
    cbn [x y] in *. congruence.
Qed.

(** C2, as stated, fails: [Position::Center().voffset(5)], the position
    [TextBox::TextPos] builds, is centred in y, and in a 200x100 container at
    the origin a 50x20 object is placed at y = 45, not at (100 - 20) / 2. *)
Lemma adjustment_applies_on_centered_axis :
  y (Position.base (Position.voffset 5 (Position.Center Anchor.Default))) = Position.Centered /\
  y (Position.relative (Position.voffset 5 (Position.Center Anchor.Default))
       (XY 0 0) (SZ 200 100) (SZ 50 20)) = 45 /\
  45 <> 0 + (100 - 20) ÷ 2.
Proof. repeat split. vm_compute. discriminate. Qed.

(** C2, amended: on an axis whose base coordinate is the sentinel
    [Centered], the resolved coordinate is the container origin plus
    (containerSize - objectSize) / 2 plus the adjustment of that axis; the
    adjustment is applied, only the anchor is skipped. *)
Theorem centered_axis_keeps_adjustment (p : Position.t) (parent : xy) (ps os : Size) :
  (x (Position.base p) = Position.Centered ->
   in_i32 (wd ps - wd os) ->
   in_i32 (x parent + (wd ps - wd os) ÷ 2 + Position.xadjust p) ->
   x (Position.relative p parent ps os) =
   x parent + (wd ps - wd os) ÷ 2 + Position.xadjust p) /\
  (y (Position.base p) = Position.Centered ->
   in_i32 (ht ps - ht os) ->
   in_i32 (y parent + (ht ps - ht os) ÷ 2 + Position.yadjust p) ->
   y (Position.relative p parent ps os) =
   y parent + (ht ps - ht os) ÷ 2 + Position.yadjust p).
Proof.
  destruct p as [[bx by_] xa ya a]; cbn [Position.base Position.xadjust Position.yadjust x y].
  split; intros -> H1 H2.
  - rewrite relative_x_centered. apply centered_coordinate; assumption.
  - rewrite relative_y_centered. apply centered_coordinate; assumption.
Qed.

(** A position centred in y with an offset of 5, in a container at (10, 20). *)
Lemma centered_axis_keeps_adjustment_witness :
  y (Position.relative (Position.voffset 5 (Position.Center Anchor.North))
       (XY 10 20) (SZ 200 100) (SZ 50 20)) = 20 + (100 - 20) ÷ 2 + 5.
Proof.
  apply (proj2 (centered_axis_keeps_adjustment
                  (Position.voffset 5 (Position.Center Anchor.North))
                  (XY 10 20) (SZ 200 100) (SZ 50 20))).
  - reflexivity.
  - vm_compute. split; discriminate.
  - vm_compute. split; discriminate.
Defined.

(** C3, as stated, fails twice: [Position{0, 0, Anchor::Center}] in a
    200x100 container with a 50x20 object resolves to (-25, -10), and the
    division of the centred case truncates toward zero instead of flooring,
    as a 13 wide object in a 10 wide container shows. *)
Lemma anchor_center_is_not_centered :
  Position.absolute (Position.at_ 0 0 Anchor.Center) (SZ 200 100) (SZ 50 20) <> XY 75 40 /\
  Position.Clamp Position.Centered 13 10 <> (10 - 13) / 2.
Proof. split; vm_compute; discriminate. Qed.

(** C3, amended: [Position::relative] resolves the base coordinate of each
    axis, for every anchor, as follows: the sentinel [Centered] yields
    (containerSize - objectSize) / 2 with the division truncating toward
    zero, another negative value yields containerSize + base - objectSize,
    and any other value is used as it is; the anchor then subtracts its
    extent on the axes that are not centred.  [Position::Center()] in a
    200x100 container with a 50x20 object resolves to (75, 40), and
    [Position{0, 0, Anchor::Center}] to (-25, -10). *)
Theorem base_coordinate_resolution :
  (forall val obj total,
      (val = Position.Centered -> in_i32 (total - obj) ->
       Position.Clamp val obj total = (total - obj) ÷ 2) /\
      (val <> Position.Centered -> val < 0 -> in_i32 (total + val - obj) ->
       Position.Clamp val obj total = total + val - obj) /\
      (0 <= val -> Position.Clamp val obj total = val)) /\
  (forall p parent ps os,
      Position.relative p parent ps os =
      Position.Adjust p (resolved p parent ps os)
        (fst (anchor_extent (Position.anchor p) os))
        (snd (anchor_extent (Position.anchor p) os))) /\
  Position.absolute (Position.Center Anchor.Default) (SZ 200 100) (SZ 50 20) = XY 75 40 /\
  Position.absolute (Position.at_ 0 0 Anchor.Center) (SZ 200 100) (SZ 50 20) = XY (-25) (-10).
Proof.
  split; [| split; [| split; reflexivity]].
  - intros val obj total. unfold Position.Clamp. repeat split.
    + intros -> H. rewrite Z.eqb_refl. unfold div32, sub32.
      rewrite (i32_id (total - obj)) by assumption.
      apply i32_id, quot2_in_i32; assumption.
    + intros Hc Hn H. destruct (Z.eqb_spec val Position.Centered); [contradiction |].
      destruct (Z.ltb_spec val 0); [| lia].
      unfold sub32, add32. rewrite i32_sub_l. apply i32_id. assumption.
    + intros H. destruct (Z.eqb_spec val Position.Centered) as [E | _].
      * unfold Position.Centered, INT_MIN in E. lia.
      * destruct (Z.ltb_spec val 0); [lia | reflexivity].
  - intros. apply relative_unfold.
Qed.

(** The three cases of the base coordinate for a 20 wide object in a 100 wide container. *)
Lemma base_coordinate_resolution_witness :
  Position.Clamp Position.Centered 20 100 = (100 - 20) ÷ 2 /\
  Position.Clamp (-1) 20 100 = 100 + (-1) - 20 /\
  Position.Clamp 7 20 100 = 7.
Proof.
  pose proof (proj1 base_coordinate_resolution) as H.
  split; [| split].
  - apply (proj1 (H Position.Centered 20 100)); [reflexivity | vm_compute; split; discriminate].
  - apply (proj1 (proj2 (H (-1) 20 100)));
      [vm_compute; discriminate | lia | vm_compute; split; discriminate].
  - apply (proj2 (proj2 (H 7 20 100))). lia.
Defined.

End PositionFacts.

(** ** CardGroup::refresh *)

Section CardGroupFacts.
Import Int.

Lemma usz_small (z : Z) : 0 <= z <= INT_MAX -> usz z = z.
Proof.
  unfold usz, unsigned, INT_MAX. intros H. apply Z.mod_small.
  change (2 ^ 64) with 18446744073709551616. lia.
Qed.

Lemma row_width_exact (count : Z) (s : Card.Scale) :
  1 <= count -> count * 260 <= INT_MAX ->
  CardGroup.row_width count s = total_width count s.
Proof.
  intros H1 H2. unfold CardGroup.row_width, total_width, INT_MAX in *.
  assert (0 <= count * wd (Card.CardSize s) <= INT_MAX /\
          0 <= (count - 1) * CardGroup.CardGaps s <= INT_MAX /\
          0 <= count * wd (Card.CardSize s) + (count - 1) * CardGroup.CardGaps s <= INT_MAX)
    as (A & B & C) by (unfold INT_MAX; destruct s; cbn; lia).
  rewrite (usz_small (count - 1)) by (unfold INT_MAX; lia).
  rewrite (usz_small (count * _)) by assumption.
  rewrite (usz_small ((count - 1) * _)) by assumption.
  rewrite usz_small by assumption.
  apply i32_id. unfold in_i32, INT_MIN, INT_MAX in *. lia.
Qed.

Lemma Scale_eqb_eq (a b : Card.Scale) : Card.Scale_eqb a b = true <-> a = b.
Proof. destruct a, b; cbn; split; congruence. Qed.

Lemma add32_step (s : Card.Scale) :
  add32 (wd (Card.CardSize s)) (CardGroup.CardGaps s) = card_step s.
Proof. destruct s; reflexivity. Qed.

Lemma place_cards_length (s : Card.Scale) (cs : list Card.t) :
  forall x0, length (fst (CardGroup.place_cards s x0 cs)) = length cs.
Proof.
  induction cs as [| c rest IH]; intros x0; cbn [CardGroup.place_cards]; [reflexivity |].
  specialize (IH (add32 x0 (add32 (wd (Card.CardSize s)) (CardGroup.CardGaps s)))).
  destruct (CardGroup.place_cards s _ rest) as [rest' xf]. cbn [fst length] in *. congruence.
Qed.

Lemma place_cards_final (s : Card.Scale) (cs : list Card.t) :
  forall x0, cs <> [] ->
  snd (CardGroup.place_cards s x0 cs) = i32 (x0 + Z.of_nat (length cs) * card_step s).
Proof.
  induction cs as [| c rest IH]; intros x0 Hne; [contradiction |].
  cbn [CardGroup.place_cards]. rewrite add32_step.
  specialize (IH (add32 x0 (card_step s))).
  destruct rest as [| c2 rest2].
  - cbn [CardGroup.place_cards snd length]. unfold add32. f_equal.
    change (Z.of_nat 1) with 1. lia.
  - specialize (IH ltac:(discriminate)).
    destruct (CardGroup.place_cards s _ (c2 :: rest2)) as [rest' xf]. cbn [snd] in *.
    rewrite IH. unfold add32. rewrite i32_add_l. f_equal.
    change (length (c :: c2 :: rest2)) with (S (length (c2 :: rest2))). lia.
Qed.

Lemma set_scale_scale (s : Card.Scale) (c : Card.t) :
  Card.scale (Widget.impl (Card.set_scale s c)) = s.
Proof.
  unfold Card.set_scale.
  destruct (Card.Scale_eqb (Card.scale (Widget.impl c)) s) eqn:E.
  - apply Scale_eqb_eq. assumption.
  - reflexivity.
Qed.

Lemma place_cards_scale (s : Card.Scale) (cs : list Card.t) :
  forall x0, Forall (fun c => Card.scale (Widget.impl c) = s)
               (fst (CardGroup.place_cards s x0 cs)).
Proof.
  induction cs as [| c rest IH]; intros x0; cbn [CardGroup.place_cards]; [constructor |].
  specialize (IH (add32 x0 (add32 (wd (Card.CardSize s)) (CardGroup.CardGaps s)))).
  destruct (CardGroup.place_cards s _ rest) as [rest' xf]. cbn [fst] in *.
  constructor; [| assumption]. cbn. apply set_scale_scale.
Qed.

Lemma refresh_scale (h : Z) (box : AABB) (c : Card.t) :
  Card.scale (Widget.impl (Card.refresh h box c)) = Card.scale (Widget.impl c).
Proof. unfold Card.refresh. destruct (Card.scale_changed (Widget.impl c)); reflexivity. Qed.

(** The loop of [refresh] started at the largest scale: it returns, and the
    result is the configured scale or a larger scale that fits, with every
    scale above it too wide. *)
Lemma autoscale_loop_spec (sc : Card.Scale) (count width_ : Z) :
  exists s,
    CardGroup.autoscale_loop (Z.to_nat Card.NumScales) sc count width_ Card.Large = Some s /\
    Card.Scale_index sc <= Card.Scale_index s /\
    (s <> sc -> CardGroup.row_width count s < width_) /\
    (forall t, Card.Scale_index s < Card.Scale_index t ->
               width_ <= CardGroup.row_width count t).
Proof.
  change (Z.to_nat Card.NumScales) with 3%nat.
  destruct (Z.ltb_spec (CardGroup.row_width count Card.Large) width_) as [HL | HL];
  destruct (Z.ltb_spec (CardGroup.row_width count Card.Field) width_) as [HF | HF];
  destruct sc; cbn [CardGroup.autoscale_loop Card.Scale_eqb Card.Scale_index Z.eqb Card.Scale_pred];
  repeat match goal with
  | |- context [?a <? ?b] =>
      destruct (Z.ltb_spec a b); try lia
  end;
  eexists; (split; [reflexivity |]); cbn;
  (split; [lia |]); (split; [try congruence; intros; lia |]);
  intros [] ?; cbn in *; lia.
Qed.

(** C1, as stated, fails: a group as its constructor leaves it has the scale
    [Field]; with four cards, automatic scaling and 300 available, [refresh]
    selects [Field], scale 1, and the bounding box becomes 510 wide, although
    the row at scale 0 would fit. *)
Lemma autoscale_stops_at_configured_scale :
  CardGroup.cards (Widget.impl (four_cards Card.Field)) <> [] /\
  CardGroup.autoscale (Widget.impl (four_cards Card.Field)) = true /\
  available_width (four_cards Card.Field) = 300 /\
  total_width 4 Card.OtherPlayer = 255 /\
  total_width 4 Card.Field = 510 /\
  CardGroup.select_scale (four_cards Card.Field) <> Some Card.OtherPlayer /\
  CardGroup.select_scale (four_cards Card.Field) = Some Card.Field /\
  option_map (fun g => wd (size (Widget.bounding_box g)))
    (CardGroup.refresh (fun _ => 0) (Box (XY 0 0) (SZ 800 600)) (four_cards Card.Field))
  = Some 510.
Proof. repeat split; try discriminate; vm_compute; reflexivity. Qed.

(** C1, amended: for every non-empty CardGroup with autoscaling enabled
    (and few enough cards for the row widths to fit an [i32]),
    [CardGroup::refresh] evaluates the scale levels from the largest down to
    the scale configured for the group: it selects the largest level above
    the configured scale whose total row width
    count*cardWidth(level) + (count-1)*gap(level) is strictly less than the
    available width ([max_width] if nonzero, otherwise the current width of
    the group), and the configured scale itself, whatever its width, when no
    level above it fits; all cards get the selected scale and the bounding
    box gets the total width at that scale.  For 4 cards, 300 available and
    the configured scale 0, the selected scale is 0 and the bounding box
    becomes 255 wide. *)
Theorem autoscale_selects_largest_fitting_above_configured :
  (forall (code_ht : Card.t -> Z) (parent_box : AABB) (g : CardGroup.t),
      CardGroup.cards (Widget.impl g) <> [] ->
      CardGroup.autoscale (Widget.impl g) = true ->
      Z.of_nat (length (CardGroup.cards (Widget.impl g))) * 260 <= INT_MAX ->
      exists s g',
        CardGroup.select_scale g = Some s /\
        CardGroup.refresh code_ht parent_box g = Some g' /\
        Card.Scale_index (CardGroup.scale (Widget.impl g)) <= Card.Scale_index s /\
        (s <> CardGroup.scale (Widget.impl g) ->
         total_width (Z.of_nat (length (CardGroup.cards (Widget.impl g)))) s
         < available_width g) /\
        (forall t, Card.Scale_index s < Card.Scale_index t ->
                   available_width g
                   <= total_width (Z.of_nat (length (CardGroup.cards (Widget.impl g)))) t) /\
        wd (size (Widget.bounding_box g'))
        = total_width (Z.of_nat (length (CardGroup.cards (Widget.impl g)))) s /\
        length (CardGroup.cards (Widget.impl g')) = length (CardGroup.cards (Widget.impl g)) /\
        Forall (fun c => Card.scale (Widget.impl c) = s) (CardGroup.cards (Widget.impl g'))) /\
  CardGroup.select_scale (four_cards Card.OtherPlayer) = Some Card.OtherPlayer /\
  option_map (fun g => wd (size (Widget.bounding_box g)))
    (CardGroup.refresh (fun _ => 0) (Box (XY 0 0) (SZ 800 600)) (four_cards Card.OtherPlayer))
  = Some 255.
Proof.
  split; [| split; reflexivity].
  intros code_ht parent_box g Hne Hauto Hcount.
  set (cs := CardGroup.cards (Widget.impl g)) in *.
  set (count := Z.of_nat (length cs)) in *.
  assert (1 <= count) as Hpos.
  { subst count. destruct cs; [contradiction | cbn [length]; lia]. }
  assert (CardGroup.select_scale g
          = CardGroup.autoscale_loop (Z.to_nat Card.NumScales)
              (CardGroup.scale (Widget.impl g)) count (available_width g) Card.Large) as Hsel.
  { unfold CardGroup.select_scale, available_width. rewrite Hauto.
    destruct (CardGroup.max_width (Widget.impl g) =? 0); reflexivity. }
  destruct (autoscale_loop_spec (CardGroup.scale (Widget.impl g)) count (available_width g))
    as (s & Hloop & Hge & Hfit & Habove).
  rewrite Hloop in Hsel.
  unfold CardGroup.refresh. fold cs. rewrite Hsel.
  pose proof (place_cards_final s cs 0 Hne) as Hfinal.
  pose proof (place_cards_length s cs 0) as Hlen.
  pose proof (place_cards_scale s cs 0) as Hscale.
  destruct (CardGroup.place_cards s 0 cs) as [placed xf]. cbn [fst snd] in *.
  destruct cs as [| c0 rest] eqn:Ecs; [contradiction |].
  eexists s, _. split; [reflexivity |]. split; [reflexivity |].
  split; [assumption |].
  split; [intros H; rewrite <- row_width_exact by assumption; auto |].
  split; [intros t H; rewrite <- row_width_exact by assumption; auto |].
  cbn [Widget.bounding_box Widget.SetBoundingBox size wd Widget.impl Widget.set_impl
       CardGroup.cards CardGroup.set_cards].
  split; [| split].
  - rewrite Hfinal. unfold sub32. rewrite i32_sub_l.
    fold count. unfold total_width, card_step.
    replace (0 + count * (wd (Card.CardSize s) + CardGroup.CardGaps s) - CardGroup.CardGaps s)
      with (count * wd (Card.CardSize s) + (count - 1) * CardGroup.CardGaps s) by lia.
    clearbody count.
    apply i32_id. unfold in_i32, INT_MIN, INT_MAX in *.
    destruct s; cbn [wd Card.CardSize CardGroup.CardGaps]; lia.
  - rewrite length_map. assumption.
  - apply Forall_map. eapply Forall_impl; [| exact Hscale].
    intros c Hc. cbn beta. rewrite refresh_scale. assumption.
Qed.

(** Four cards with the configured scale [OtherPlayer] and 300 available. *)
Lemma autoscale_selects_largest_fitting_above_configured_witness :
  exists s g',
    CardGroup.select_scale (four_cards Card.OtherPlayer) = Some s /\
    CardGroup.refresh (fun _ => 0) (Box (XY 0 0) (SZ 800 600)) (four_cards Card.OtherPlayer)
    = Some g' /\
    wd (size (Widget.bounding_box g')) = total_width 4 s.
Proof.
  destruct (proj1 autoscale_selects_largest_fitting_above_configured
              (fun _ => 0) (Box (XY 0 0) (SZ 800 600)) (four_cards Card.OtherPlayer))
    as (s & g' & H1 & H2 & _ & _ & _ & H3 & _).
  - discriminate.
  - reflexivity.
  - vm_compute. discriminate.
  - exists s, g'. repeat split; assumption.
Defined.

End CardGroupFacts.

(** * Floating point: rounding *)

Section FloatFacts.
Local Open Scope R_scope.

Lemma bpow_pos (e : Z) : 0 < bpow e.
Proof. apply powerRZ_lt. lra. Qed.

Lemma bpow_add (a b : Z) : bpow (a + b) = bpow a * bpow b.
Proof. apply powerRZ_add. lra. Qed.

Lemma bpow_IZR (e : Z) : (0 <= e)%Z -> bpow e = IZR (2 ^ e).
Proof.
  intros H. unfold bpow. rewrite <- (Z2Nat.id e H) at 1.
  rewrite <- pow_powerRZ, pow_IZR, Z2Nat.id by assumption. reflexivity.
Qed.

Lemma bpow_0 : bpow 0 = 1.
Proof. reflexivity. Qed.

Lemma bpow_opp (e : Z) : bpow (- e) = / bpow e.
Proof.
  pose proof (bpow_add e (- e)) as H. rewrite Z.add_opp_diag_r, bpow_0 in H.
  pose proof (bpow_pos e). apply (Rmult_eq_reg_l (bpow e)); [| lra].
  rewrite Rinv_r by lra. lra.
Qed.

Lemma bpow_le (a b : Z) : (a <= b)%Z -> bpow a <= bpow b.
Proof.
  intros H. replace b with (a + (b - a))%Z by lia. rewrite bpow_add.
  pose proof (bpow_pos a).
  assert (1 <= bpow (b - a)).
  { rewrite bpow_IZR by lia. apply IZR_le.
    assert (0 < 2 ^ (b - a))%Z by (apply Z.pow_pos_nonneg; lia). lia. }
  nra.
Qed.

Lemma bpow_lt (a b : Z) : (a < b)%Z -> bpow a < bpow b.
Proof.
  intros H. replace b with (a + (b - a))%Z by lia. rewrite bpow_add.
  pose proof (bpow_pos a).
  assert (2 <= bpow (b - a)).
  { rewrite bpow_IZR by lia. apply IZR_le.
    change 2%Z with (2 ^ 1)%Z at 1. apply Z.pow_le_mono_r; lia. }
  nra.
Qed.

Lemma bpow_lt_inv (a b : Z) : bpow a < bpow b -> (a < b)%Z.
Proof.
  intros H. destruct (Z_lt_le_dec a b) as [| Hle]; [assumption |].
  apply bpow_le in Hle. lra.
Qed.

Lemma bpow_succ (e : Z) : bpow (e + 1) = 2 * bpow e.
Proof. rewrite bpow_add. change (bpow 1) with (2 * 1). lra. Qed.

(** ** Digits *)

Lemma digits2_pos_spec (m : positive) :
  (2 ^ (Zpos (digits2_pos m) - 1) <= Zpos m < 2 ^ Zpos (digits2_pos m))%Z.
Proof.
  induction m as [p IH | p IH |]; cbn [digits2_pos].
  - rewrite Pos2Z.inj_succ. change (Zpos p~1) with (2 * Zpos p + 1)%Z.
    replace (Z.succ (Zpos (digits2_pos p)) - 1)%Z with (Zpos (digits2_pos p)) by lia.
    rewrite Z.pow_succ_r by lia.
    assert (2 ^ Zpos (digits2_pos p) = 2 * 2 ^ (Zpos (digits2_pos p) - 1))%Z as E
      by (rewrite <- Z.pow_succ_r by lia; f_equal; lia).
    lia.
  - rewrite Pos2Z.inj_succ. change (Zpos p~0) with (2 * Zpos p)%Z.
    replace (Z.succ (Zpos (digits2_pos p)) - 1)%Z with (Zpos (digits2_pos p)) by lia.
    rewrite Z.pow_succ_r by lia.
    assert (2 ^ Zpos (digits2_pos p) = 2 * 2 ^ (Zpos (digits2_pos p) - 1))%Z as E
      by (rewrite <- Z.pow_succ_r by lia; f_equal; lia).
    lia.
  - cbn. lia.
Qed.

Lemma digits2_pos_unique (m : positive) (k : Z) :
  (2 ^ (k - 1) <= Zpos m < 2 ^ k)%Z -> Zpos (digits2_pos m) = k.
Proof.
  intros [H1 H2]. pose proof (digits2_pos_spec m) as [D1 D2].
  assert (0 < k)%Z.
  { destruct (Z_lt_le_dec 0 k); [assumption |].
    assert (2 ^ k <= 1)%Z; [| lia].
    destruct (Z.eq_dec k 0) as [-> | ?]; [cbn; lia |].
    rewrite Z.pow_neg_r by lia. lia. }
  destruct (Z.lt_trichotomy (Zpos (digits2_pos m)) k) as [Hlt | [E | Hgt]]; [| assumption |].
  - assert (2 ^ Zpos (digits2_pos m) <= 2 ^ (k - 1))%Z by (apply Z.pow_le_mono_r; lia). lia.
  - assert (2 ^ k <= 2 ^ (Zpos (digits2_pos m) - 1))%Z by (apply Z.pow_le_mono_r; lia). lia.
Qed.

(** ** Shifting to the right *)

Lemma shr_1_m (mrs : shr_record) :
  (0 <= shr_m mrs)%Z -> shr_m (shr_1 mrs) = (shr_m mrs / 2)%Z /\ (0 <= shr_m (shr_1 mrs))%Z.
Proof.
  destruct mrs as [m r s]. cbn [shr_m shr_1]. intros H.
  destruct m as [| [p | p |] | p]; cbn [shr_m].
  - split; [reflexivity | lia].
  - split; [| lia]. change (Zpos p~1) with (2 * Zpos p + 1)%Z.
    apply (Z.div_unique _ 2 (Zpos p) 1); lia.
  - split; [| lia]. change (Zpos p~0) with (2 * Zpos p)%Z.
    apply (Z.div_unique _ 2 (Zpos p) 0); lia.
  - split; [reflexivity | lia].
  - lia.
Qed.

Lemma iter_pos_shr_m (p : positive) :
  forall mrs, (0 <= shr_m mrs)%Z ->
    shr_m (SpecFloat.iter_pos shr_1 p mrs) = (shr_m mrs / 2 ^ Zpos p)%Z /\
    (0 <= shr_m (SpecFloat.iter_pos shr_1 p mrs))%Z.
Proof.
  induction p as [p IH | p IH |]; intros mrs H; cbn [SpecFloat.iter_pos].
  - destruct (shr_1_m mrs H) as [E1 P1].
    destruct (IH _ P1) as [E2 P2]. destruct (IH _ P2) as [E3 P3].
    split; [| assumption]. rewrite E3, E2, E1. change (Zpos p~1) with (2 * Zpos p + 1)%Z.
    replace (2 * Zpos p + 1)%Z with (1 + Zpos p + Zpos p)%Z by lia.
    rewrite !Z.pow_add_r by lia. rewrite !Z.div_div by lia.
    change (2 ^ 1)%Z with 2%Z. f_equal. lia.
  - destruct (IH _ H) as [E2 P2]. destruct (IH _ P2) as [E3 P3].
    split; [| assumption]. rewrite E3, E2. change (Zpos p~0) with (2 * Zpos p)%Z.
    replace (2 * Zpos p)%Z with (Zpos p + Zpos p)%Z by lia.
    rewrite !Z.pow_add_r by lia. rewrite !Z.div_div by lia. reflexivity.
  - destruct (shr_1_m mrs H) as [E1 P1]. split; [| assumption]. rewrite E1. reflexivity.
Qed.

Lemma shr_record_of_loc_m (m : Z) (l : location) : shr_m (shr_record_of_loc m l) = m.
Proof. destruct l as [| []]; reflexivity. Qed.

Lemma shr_m_spec (mrs : shr_record) (e n : Z) :
  (0 <= shr_m mrs)%Z -> (0 <= n)%Z ->
  shr_m (fst (shr mrs e n)) = (shr_m mrs / 2 ^ n)%Z /\ snd (shr mrs e n) = (e + n)%Z.
Proof.
  intros Hm Hn. unfold shr. destruct n as [| p | p]; [| | lia].
  - cbn [fst snd]. rewrite Z.div_1_r. split; [reflexivity | lia].
  - cbn [fst snd]. split; [apply iter_pos_shr_m; assumption | reflexivity].
Qed.

Lemma round_nearest_even_range (m : Z) (l : location) :
  (m <= round_nearest_even m l <= m + 1)%Z.
Proof.
  unfold round_nearest_even. destruct l as [| []]; try lia. destruct (Z.even m); lia.
Qed.

Lemma Zdigits2_pos (m : positive) : Zdigits2 (Zpos m) = Zpos (digits2_pos m).
Proof. reflexivity. Qed.

(** ** Rounding

    A mantissa of at least [prec] bits that stands for a real number [X]
    between itself and its successor is rounded to a float of [prec] bits
    within one unit in the last place of [X]; a mantissa of [prec] bits is
    kept as it is. *)
Lemma binary_round_aux_spec (prec emax : Z) (s : bool) (mx : positive) (ex : Z)
    (l : location) (X : R) :
  (0 < prec)%Z ->
  (prec <= Zpos (digits2_pos mx))%Z ->
  (emin prec emax <= Zpos (digits2_pos mx) + ex - prec)%Z ->
  (Zpos (digits2_pos mx) + ex + 1 <= emax)%Z ->
  IZR (Zpos mx) * bpow ex <= X < (IZR (Zpos mx) + 1) * bpow ex ->
  exists m' e',
    binary_round_aux prec emax s (Zpos mx) ex l = S754_finite s m' e' /\
    Zpos (digits2_pos m') = prec /\
    Rabs (IZR (Zpos m') * bpow e' - X) <= bpow (1 - prec) * X /\
    (l = loc_Exact -> Zpos (digits2_pos mx) = prec -> m' = mx /\ e' = ex).
Proof.
  intros Hprec Hd Hmin Hmax HX.
  pose proof (digits2_pos_spec mx) as [D1 D2].
  set (d := Zpos (digits2_pos mx)) in *.
  set (n := (d - prec)%Z).
  assert (0 <= n)%Z as Hn by (subst n; lia).
  unfold binary_round_aux, shr_fexp. rewrite Zdigits2_pos. fold d.
  assert (fexp prec emax (d + ex) = d + ex - prec)%Z as ->
    by (unfold fexp; apply Z.max_l; lia).
  replace (d + ex - prec - ex)%Z with n by (subst n; lia).
  pose proof (shr_m_spec (shr_record_of_loc (Zpos mx) l) ex n) as Hshr.
  rewrite shr_record_of_loc_m in Hshr. specialize (Hshr ltac:(lia) Hn).
  destruct (shr (shr_record_of_loc (Zpos mx) l) ex n) as [mrs' e'] eqn:E1.
  cbn [fst snd] in Hshr. destruct Hshr as [Hm0 ->].
  set (m0 := shr_m mrs') in *.
  assert (0 < 2 ^ n)%Z as Hpn by (apply Z.pow_pos_nonneg; lia).
  assert (2 ^ d = 2 ^ prec * 2 ^ n)%Z as Hd2
    by (rewrite <- Z.pow_add_r by lia; f_equal; subst n; lia).
  assert (2 ^ (d - 1) = 2 ^ (prec - 1) * 2 ^ n)%Z as Hd1
    by (rewrite <- Z.pow_add_r by lia; f_equal; subst n; lia).
  assert (2 ^ (prec - 1) <= m0 < 2 ^ prec)%Z as Hm0r.
  { rewrite Hm0. split.
    - apply Z.div_le_lower_bound; lia.
    - apply Z.div_lt_upper_bound; lia. }
  assert (m0 * 2 ^ n <= Zpos mx < (m0 + 1) * 2 ^ n)%Z as Hbr.
  { pose proof (Z.div_mod (Zpos mx) (2 ^ n) ltac:(lia)) as Hdm.
    pose proof (Z.mod_pos_bound (Zpos mx) (2 ^ n) Hpn). rewrite <- Hm0 in Hdm. lia. }
  pose proof (round_nearest_even_range m0 (loc_of_shr_record mrs')) as Hr.
  set (m1 := round_nearest_even m0 (loc_of_shr_record mrs')) in *.
  assert (0 < 2 ^ (prec - 1))%Z as Hpp by (apply Z.pow_pos_nonneg; lia).
  assert (2 ^ prec = 2 * 2 ^ (prec - 1))%Z as Hp2
    by (rewrite <- Z.pow_succ_r by lia; f_equal; lia).
  (* the real number between the two neighbours *)
  pose proof (bpow_pos ex) as Hbex. pose proof (bpow_pos (ex + n)) as Hbe'.
  assert (bpow (ex + n) = IZR (2 ^ n) * bpow ex) as Hbn
    by (rewrite Z.add_comm, bpow_add, bpow_IZR by lia; reflexivity).
  assert (IZR m0 * bpow (ex + n) <= X < (IZR m0 + 1) * bpow (ex + n)) as HX0.
  { rewrite Hbn.
    assert (IZR m0 * IZR (2 ^ n) <= IZR (Zpos mx)) as B1
      by (rewrite <- mult_IZR; apply IZR_le; lia).
    assert (IZR (Zpos mx) + 1 <= (IZR m0 + 1) * IZR (2 ^ n)) as B3
      by (rewrite <- (plus_IZR _ 1), <- (plus_IZR m0 1), <- mult_IZR; apply IZR_le; lia).
    split; [| apply Rlt_le_trans with (1 := proj2 HX)]; nra. }
  assert (bpow (ex + n) <= bpow (1 - prec) * X) as Hulp.
  { assert (bpow (prec - 1) * bpow (ex + n) <= X) as Hlow.
    { rewrite bpow_IZR by lia. apply Rle_trans with (2 := proj1 HX0).
      apply Rmult_le_compat_r; [lra |]. apply IZR_le. lia. }
    assert (bpow (1 - prec) * bpow (prec - 1) = 1) as Hone
      by (rewrite <- bpow_add; replace (1 - prec + (prec - 1))%Z with 0%Z by lia; reflexivity).
    pose proof (bpow_pos (1 - prec)). nra. }
  assert (Rabs (IZR m1 * bpow (ex + n) - X) <= bpow (1 - prec) * X) as Herr.
  { apply Rle_trans with (2 := Hulp). apply Rabs_le.
    destruct Hr as [R1 R2]. apply IZR_le in R1. apply IZR_le in R2.
    rewrite plus_IZR in R2. nra. }
  destruct (Z_lt_le_dec m1 (2 ^ prec)) as [Hlt | Hge].
  - destruct m1 as [| q |] eqn:Em1; [lia | | lia].
    assert (Zpos (digits2_pos q) = prec) as Hdq by (apply digits2_pos_unique; lia).
    rewrite Zdigits2_pos, Hdq.
    assert (fexp prec emax (prec + (ex + n)) - (ex + n) = 0)%Z as ->
      by (unfold fexp; subst n; lia).
    cbn [shr shr_record_of_loc shr_m].
    destruct (Z.leb_spec (ex + n) (emax - prec)) as [_ | Hbad]; [| subst n; lia].
    exists q, (ex + n)%Z. split; [reflexivity |]. split; [assumption |].
    split; [assumption |].
    intros -> Hdp. assert (n = 0)%Z as Hn0 by (subst n; lia).
    rewrite Hn0 in *. unfold shr in E1. cbn [shr_record_of_loc] in E1.
    injection E1 as <-. cbn [loc_of_shr_record round_nearest_even shr_m] in *.
    subst m0 m1. split; [congruence | lia].
  - assert (m1 = 2 ^ prec)%Z as Em1 by lia.
    destruct m1 as [| q |] eqn:Eq1; [lia | | lia].
    assert (Zpos (digits2_pos q) = prec + 1)%Z as Hdq.
    { apply digits2_pos_unique. rewrite Em1. replace (prec + 1 - 1)%Z with prec by lia.
      split; [lia |]. rewrite Z.pow_add_r by lia. change (2 ^ 1)%Z with 2%Z. lia. }
    rewrite Zdigits2_pos, Hdq.
    assert (fexp prec emax (prec + 1 + (ex + n)) - (ex + n) = 1)%Z as ->
      by (unfold fexp; subst n; lia).
    cbn [shr shr_record_of_loc SpecFloat.iter_pos].
    destruct (shr_1_m (Build_shr_record (Zpos q) false false) ltac:(cbn; lia)) as [Hh _].
    cbn [shr_m] in Hh. rewrite Hh, Em1, Hp2, Z.mul_comm, Z.div_mul by lia.
    destruct (2 ^ (prec - 1))%Z as [| q' |] eqn:Eq'; [lia | | lia].
    destruct (Z.leb_spec (ex + n + 1) (emax - prec)) as [_ | Hbad]; [| subst n; lia].
    exists q', (ex + n + 1)%Z. split; [reflexivity |].
    split; [apply digits2_pos_unique; rewrite <- Eq'; lia |].
    split.
    + rewrite bpow_succ. rewrite Em1, Hp2, mult_IZR in Herr.
      replace (IZR (Zpos q') * (2 * bpow (ex + n)) - X)
        with (2 * IZR (Zpos q') * bpow (ex + n) - X) by lra.
      exact Herr.
    + intros -> Hdp. exfalso. assert (n = 0)%Z as Hn0 by (subst n; lia).
      rewrite Hn0 in *. unfold shr in E1. cbn [shr_record_of_loc] in E1.
      injection E1 as <-. cbn [loc_of_shr_record round_nearest_even shr_m] in *.
      subst m0. injection Eq1 as ->. lia.
Qed.

Lemma shl_align_spec (mx : positive) (ex ex' : Z) :
  ((ex' <= ex)%Z ->
   snd (shl_align mx ex ex') = ex' /\
   Zpos (fst (shl_align mx ex ex')) = (Zpos mx * 2 ^ (ex - ex'))%Z) /\
  ((ex <= ex')%Z -> shl_align mx ex ex' = (mx, ex)).
Proof.
  unfold shl_align. split; intros H.
  - destruct (ex' - ex)%Z as [| p | p] eqn:E; cbn [fst snd].
    + assert (ex = ex') as -> by lia. rewrite Z.sub_diag, Z.mul_1_r. split; reflexivity.
    + lia.
    + split; [reflexivity |]. change (Pos.iter xO mx p) with (shift_pos p mx).
      rewrite shift_pos_correct. replace (ex - ex')%Z with (Zpos p) by lia.
      rewrite Z.mul_comm. reflexivity.
  - destruct (ex' - ex)%Z as [| p | p] eqn:E; [reflexivity | reflexivity | lia].
Qed.

(** The digits of a mantissa, from the size of the number it stands for. *)
Lemma digits_range (m : positive) (e lo hi : Z) :
  bpow lo <= IZR (Zpos m) * bpow e < bpow hi ->
  (lo < Zpos (digits2_pos m) + e <= hi)%Z.
Proof.
  intros [H1 H2]. pose proof (digits2_pos_spec m) as [D1 D2].
  set (d := Zpos (digits2_pos m)) in *.
  assert (0 < d)%Z by (subst d; lia).
  apply IZR_le in D1. apply IZR_lt in D2. rewrite <- bpow_IZR in D1, D2 by lia.
  pose proof (bpow_pos e).
  assert (bpow (d - 1 + e) <= IZR (Zpos m) * bpow e) by (rewrite bpow_add; nra).
  assert (IZR (Zpos m) * bpow e < bpow (d + e)) by (rewrite bpow_add; nra).
  assert (lo < d + e)%Z by (apply bpow_lt_inv; lra).
  assert (d - 1 + e < hi)%Z by (apply bpow_lt_inv; lra).
  lia.
Qed.

Lemma binary_round_spec (prec emax : Z) (s : bool) (mx : positive) (ex : Z) :
  (0 < prec)%Z ->
  (emin prec emax <= Zpos (digits2_pos mx) + ex - prec)%Z ->
  (Zpos (digits2_pos mx) + ex + 1 <= emax)%Z ->
  exists m' e',
    binary_round prec emax s mx ex = S754_finite s m' e' /\
    Zpos (digits2_pos m') = prec /\
    Rabs (IZR (Zpos m') * bpow e' - IZR (Zpos mx) * bpow ex)
    <= bpow (1 - prec) * (IZR (Zpos mx) * bpow ex) /\
    ((Zpos (digits2_pos mx) <= prec)%Z ->
     IZR (Zpos m') * bpow e' = IZR (Zpos mx) * bpow ex).
Proof.
  intros Hprec Hmin Hmax. unfold binary_round.
  pose proof (digits2_pos_spec mx) as [D1 D2].
  set (d := Zpos (digits2_pos mx)) in *.
  assert (fexp prec emax (d + ex) = d + ex - prec)%Z as ->
    by (unfold fexp; apply Z.max_l; lia).
  pose proof (bpow_pos ex) as Hbex.
  destruct (Z_lt_le_dec d prec) as [Hlt | Hge].
  - destruct (proj1 (shl_align_spec mx ex (d + ex - prec)) ltac:(lia)) as [Hez Hmz].
    destruct (shl_align mx ex (d + ex - prec)) as [mz ez]. cbn [fst snd] in *. subst ez.
    replace (ex - (d + ex - prec))%Z with (prec - d)%Z in Hmz by lia.
    assert (0 < 2 ^ (prec - d))%Z as Hpn by (apply Z.pow_pos_nonneg; lia).
    assert (Zpos (digits2_pos mz) = prec) as Hdz.
    { apply digits2_pos_unique. rewrite Hmz.
      assert (2 ^ (prec - 1) = 2 ^ (d - 1) * 2 ^ (prec - d))%Z as ->
        by (rewrite <- Z.pow_add_r by lia; f_equal; lia).
      assert (2 ^ prec = 2 ^ d * 2 ^ (prec - d))%Z as ->
        by (rewrite <- Z.pow_add_r by lia; f_equal; lia).
      nia. }
    assert (IZR (Zpos mz) * bpow (d + ex - prec) = IZR (Zpos mx) * bpow ex) as Hval.
    { rewrite Hmz, mult_IZR, <- bpow_IZR by lia. rewrite Rmult_assoc, <- bpow_add.
      do 2 f_equal. lia. }
    destruct (binary_round_aux_spec prec emax s mz (d + ex - prec) loc_Exact
                (IZR (Zpos mx) * bpow ex)) as (m' & e' & E & Hd' & Herr & Hex);
      try (rewrite Hdz; lia); try lia.
    { rewrite Hval. pose proof (bpow_pos (d + ex - prec)). rewrite <- Hval. nra. }
    exists m', e'. split; [assumption |]. split; [assumption |]. split; [assumption |].
    intros _. destruct (Hex eq_refl Hdz) as [-> ->]. assumption.
  - rewrite (proj2 (shl_align_spec mx ex (d + ex - prec))) by lia.
    destruct (binary_round_aux_spec prec emax s mx ex loc_Exact
                (IZR (Zpos mx) * bpow ex)) as (m' & e' & E & Hd' & Herr & Hex);
      try (fold d; lia); try lia.
    { nra. }
    exists m', e'. split; [assumption |]. split; [assumption |]. split; [assumption |].
    intros Hle. destruct (Hex eq_refl ltac:(fold d; lia)) as [-> ->]. reflexivity.
Qed.

(** [binary_normalize] of a number that is not zero, within the range of
    the normal numbers: a float of [prec] bits and of the sign of the
    number, within one unit in the last place; exact when the number has at
    most [prec] bits. *)
Lemma binary_normalize_spec (prec emax M e : Z) (sz : bool) (lo hi : Z) :
  (0 < prec)%Z -> M <> 0%Z ->
  (emin prec emax + prec - 1 <= lo)%Z -> (hi + 1 <= emax)%Z ->
  bpow lo <= Rabs (IZR M * bpow e) < bpow hi ->
  exists f,
    binary_normalize prec emax M e sz = f /\
    normal prec (M <? 0)%Z f /\
    Rabs (SF2R f - IZR M * bpow e) <= bpow (1 - prec) * Rabs (IZR M * bpow e) /\
    ((Z.abs M < 2 ^ prec)%Z -> SF2R f = IZR M * bpow e).
Proof.
  intros Hprec HM Hlo Hhi HX. pose proof (bpow_pos e) as Hbe.
  assert (forall (s : bool) (m : positive),
            M = cond_Zopp s (Zpos m) ->
            exists f, binary_round prec emax s m e = f /\ normal prec s f /\
              Rabs (SF2R f - IZR M * bpow e) <= bpow (1 - prec) * Rabs (IZR M * bpow e) /\
              ((Z.abs M < 2 ^ prec)%Z -> SF2R f = IZR M * bpow e)) as Hgen.
  { intros s m EM.
    assert (Rabs (IZR M * bpow e) = IZR (Zpos m) * bpow e) as Habs.
    { rewrite Rabs_mult, (Rabs_pos_eq (bpow e)) by lra. f_equal.
      rewrite <- abs_IZR. f_equal. subst M. destruct s; reflexivity. }
    rewrite Habs in *.
    pose proof (digits_range m e lo hi HX) as Hdr.
    destruct (binary_round_spec prec emax s m e Hprec ltac:(lia) ltac:(lia))
      as (m' & e' & E & Hd' & Herr & Hex).
    exists (S754_finite s m' e'). split; [assumption |]. split; [split; [reflexivity | assumption] |].
    assert (SF2R (S754_finite s m' e') - IZR M * bpow e
            = (if s then -1 else 1) * (IZR (Zpos m') * bpow e' - IZR (Zpos m) * bpow e)) as Hd.
    { cbn [SF2R]. subst M. destruct s; cbn [cond_Zopp]; rewrite ?opp_IZR; lra. }
    split.
    - rewrite Hd, Rabs_mult.
      replace (Rabs (if s then -1 else 1)) with 1; [lra |].
      destruct s; [rewrite Rabs_left by lra; lra | rewrite Rabs_pos_eq by lra; lra].
    - intros Hsmall.
      assert (Zpos (digits2_pos m) <= prec)%Z as Hdm.
      { pose proof (digits2_pos_spec m) as [D1 _].
        destruct (Z_lt_le_dec prec (Zpos (digits2_pos m))) as [Hbig |]; [| assumption].
        assert (2 ^ prec <= 2 ^ (Zpos (digits2_pos m) - 1))%Z
          by (apply Z.pow_le_mono_r; lia).
        subst M. destruct s; cbn [cond_Zopp] in Hsmall; lia. }
      specialize (Hex Hdm).
      apply Rminus_diag_uniq. rewrite Hd, Hex. lra. }
  unfold binary_normalize. destruct M as [| m | m]; [contradiction | |].
  - destruct (Hgen false m eq_refl) as (f & E & H). exists f. split; [assumption |]. exact H.
  - destruct (Hgen true m eq_refl) as (f & E & H). exists f. split; [assumption |]. exact H.
Qed.

Lemma SF2R_finite (s : bool) (m : positive) (e : Z) :
  SF2R (S754_finite s m e) = (if s then -1 else 1) * (IZR (Zpos m) * bpow e).
Proof. cbn [SF2R]. destruct s; cbn [cond_Zopp]; rewrite ?opp_IZR; lra. Qed.

Lemma Rabs_sign (s : bool) (r : R) : Rabs ((if s then -1 else 1) * r) = Rabs r.
Proof.
  rewrite Rabs_mult. destruct s; [rewrite (Rabs_left (-1)) by lra | rewrite (Rabs_pos_eq 1) by lra];
    lra.
Qed.

(** ** The operations on normal numbers *)

Lemma SFmul_spec (prec emax : Z) (x y : spec_float) (sx sy : bool) (lo hi : Z) :
  (0 < prec)%Z -> normal prec sx x -> normal prec sy y ->
  (emin prec emax + prec - 1 <= lo)%Z -> (hi + 1 <= emax)%Z ->
  bpow lo <= Rabs (SF2R x * SF2R y) < bpow hi ->
  exists f,
    SFmul prec emax x y = f /\ normal prec (xorb sx sy) f /\
    Rabs (SF2R f - SF2R x * SF2R y) <= bpow (1 - prec) * Rabs (SF2R x * SF2R y).
Proof.
  intros Hprec Hx Hy Hlo Hhi HX.
  destruct x as [| | | sx' mx ex]; try contradiction. destruct Hx as [-> Hdx].
  destruct y as [| | | sy' my ey]; try contradiction. destruct Hy as [-> Hdy].
  rewrite !SF2R_finite in *.
  pose proof (bpow_pos ex). pose proof (bpow_pos ey).
  set (P := IZR (Zpos (mx * my)) * bpow (ex + ey)).
  assert ((if sx then -1 else 1) * (IZR (Zpos mx) * bpow ex)
          * ((if sy then -1 else 1) * (IZR (Zpos my) * bpow ey))
          = (if xorb sx sy then -1 else 1) * P) as EP.
  { subst P. rewrite Pos2Z.inj_mul, mult_IZR, bpow_add.
    destruct sx, sy; cbn [xorb]; lra. }
  rewrite EP in *. rewrite Rabs_sign in HX.
  assert (0 < P) as HP.
  { subst P. apply Rmult_lt_0_compat; [apply IZR_lt; lia | apply bpow_pos]. }
  rewrite (Rabs_pos_eq P) in * by lra.
  pose proof (digits_range (mx * my) (ex + ey) lo hi HX) as Hdr.
  assert (prec <= Zpos (digits2_pos (mx * my)))%Z as Hdp.
  { pose proof (digits2_pos_spec mx) as [A1 _]. pose proof (digits2_pos_spec my) as [B1 _].
    pose proof (digits2_pos_spec (mx * my)) as [_ C2]. rewrite Hdx in A1. rewrite Hdy in B1.
    destruct (Z_lt_le_dec (Zpos (digits2_pos (mx * my))) prec) as [Hlt |]; [| assumption].
    assert (2 ^ Zpos (digits2_pos (mx * my)) <= 2 ^ (prec - 1))%Z
      by (apply Z.pow_le_mono_r; lia).
    assert (0 < 2 ^ (prec - 1))%Z by (apply Z.pow_pos_nonneg; lia).
    rewrite Pos2Z.inj_mul in C2. nia. }
  unfold SFmul.
  destruct (binary_round_aux_spec prec emax (xorb sx sy) (mx * my) (ex + ey) loc_Exact P)
    as (m' & e' & E & Hd' & Herr & _); try lia.
  { subst P. pose proof (bpow_pos (ex + ey)). nra. }
  exists (S754_finite (xorb sx sy) m' e'). split; [assumption |].
  split; [split; [reflexivity | assumption] |].
  rewrite SF2R_finite, <- Rmult_minus_distr_l, !Rabs_sign, (Rabs_pos_eq P) by lra.
  assumption.
Qed.

Lemma SFadd_spec (prec emax : Z) (sx sy : bool) (mx my : positive) (ex ey : Z) (lo hi : Z) :
  let x := S754_finite sx mx ex in
  let y := S754_finite sy my ey in
  (0 < prec)%Z ->
  (emin prec emax + prec - 1 <= lo)%Z -> (hi + 1 <= emax)%Z ->
  bpow lo <= Rabs (SF2R x + SF2R y) < bpow hi ->
  exists f s,
    SFadd prec emax x y = f /\ normal prec s f /\
    (s = true -> SF2R x + SF2R y < 0) /\ (s = false -> 0 < SF2R x + SF2R y) /\
    Rabs (SF2R f - (SF2R x + SF2R y)) <= bpow (1 - prec) * Rabs (SF2R x + SF2R y).
Proof.
  intros x y Hprec Hlo Hhi HX. subst x y. unfold SFadd.
  set (ez := Z.min ex ey).
  destruct (proj1 (shl_align_spec mx ex ez) ltac:(subst ez; lia)) as [_ Ex].
  destruct (proj1 (shl_align_spec my ey ez) ltac:(subst ez; lia)) as [_ Ey].
  set (M := (cond_Zopp sx (Zpos (fst (shl_align mx ex ez)))
             + cond_Zopp sy (Zpos (fst (shl_align my ey ez))))%Z).
  assert (IZR M * bpow ez = SF2R (S754_finite sx mx ex) + SF2R (S754_finite sy my ey)) as EM.
  { subst M. rewrite plus_IZR, Ex, Ey, !SF2R_finite.
    assert (forall (s : bool) (m : positive) (e : Z), (ez <= e)%Z ->
              IZR (cond_Zopp s (Zpos m * 2 ^ (e - ez))) * bpow ez
              = (if s then -1 else 1) * (IZR (Zpos m) * bpow e)) as Hal.
    { intros s m e He.
      assert (IZR (Zpos m * 2 ^ (e - ez)) * bpow ez = IZR (Zpos m) * bpow e) as Hv.
      { rewrite mult_IZR, <- bpow_IZR by lia. rewrite Rmult_assoc, <- bpow_add.
        do 2 f_equal. lia. }
      destruct s; cbn [cond_Zopp]; rewrite ?opp_IZR; lra. }
    rewrite Rmult_plus_distr_r, !Hal by (subst ez; lia). reflexivity. }
  rewrite <- EM in *.
  assert (M <> 0)%Z as HM.
  { intros E0. rewrite E0, Rmult_0_l, Rabs_R0 in HX. pose proof (bpow_pos lo). lra. }
  destruct (binary_normalize_spec prec emax M ez false lo hi Hprec HM Hlo Hhi HX)
    as (f & E & Hn & Herr & _).
  exists f, (M <? 0)%Z. split; [assumption |]. split; [assumption |].
  pose proof (bpow_pos ez) as Hbz.
  split; [| split; [| assumption]].
  - intros Hs. apply Z.ltb_lt in Hs. apply IZR_lt in Hs. nra.
  - intros Hs. apply Z.ltb_ge in Hs. assert (0 < M)%Z as Hp by lia. apply IZR_lt in Hp. nra.
Qed.

Lemma SFsub_spec (prec emax : Z) (sx sy : bool) (mx my : positive) (ex ey : Z) (lo hi : Z) :
  let x := S754_finite sx mx ex in
  let y := S754_finite sy my ey in
  (0 < prec)%Z ->
  (emin prec emax + prec - 1 <= lo)%Z -> (hi + 1 <= emax)%Z ->
  bpow lo <= Rabs (SF2R x - SF2R y) < bpow hi ->
  exists f s,
    SFsub prec emax x y = f /\ normal prec s f /\
    (s = true -> SF2R x - SF2R y < 0) /\ (s = false -> 0 < SF2R x - SF2R y) /\
    Rabs (SF2R f - (SF2R x - SF2R y)) <= bpow (1 - prec) * Rabs (SF2R x - SF2R y).
Proof.
  intros x y Hprec Hlo Hhi HX.
  assert (SFsub prec emax x y = SFadd prec emax x (S754_finite (negb sy) my ey)) as ->.
  { subst x y. unfold SFsub, SFadd. f_equal.
    destruct sy; cbn [negb cond_Zopp]; lia. }
  assert (SF2R x - SF2R y = SF2R x + SF2R (S754_finite (negb sy) my ey)) as EV.
  { subst x y. rewrite !SF2R_finite. destruct sy; cbn [negb]; lra. }
  rewrite EV in *. subst x.
  apply (SFadd_spec prec emax sx (negb sy) mx my ex ey lo hi); assumption.
Qed.

Lemma SFdiv_spec (prec emax : Z) (x y : spec_float) (lo hi : Z) :
  (0 < prec)%Z -> normal prec false x -> normal prec false y ->
  (emin prec emax + prec <= lo)%Z -> (hi + 1 <= emax)%Z ->
  bpow lo <= SF2R x / SF2R y < bpow hi ->
  exists f,
    SFdiv prec emax x y = f /\ normal prec false f /\
    Rabs (SF2R f - SF2R x / SF2R y) <= bpow (1 - prec) * (SF2R x / SF2R y).
Proof.
  intros Hprec Hx Hy Hlo Hhi HX.
  destruct x as [| | | sx' mx ex]; try contradiction. destruct Hx as [-> Hdx].
  destruct y as [| | | sy' my ey]; try contradiction. destruct Hy as [-> Hdy].
  rewrite !SF2R_finite, !Rmult_1_l in *.
  pose proof (bpow_pos ex) as Hbx. pose proof (bpow_pos ey) as Hby.
  pose proof (digits2_pos_spec mx) as [A1 A2]. pose proof (digits2_pos_spec my) as [B1 B2].
  rewrite Hdx in A1, A2. rewrite Hdy in B1, B2.
  assert (0 < 2 ^ (prec - 1))%Z as Hpp by (apply Z.pow_pos_nonneg; lia).
  assert (2 ^ prec = 2 * 2 ^ (prec - 1))%Z as Hp2
    by (rewrite <- Z.pow_succ_r by lia; f_equal; lia).
  set (X := IZR (Zpos mx) * bpow ex / (IZR (Zpos my) * bpow ey)) in *.
  assert (0 < IZR (Zpos my)) as Hmy by (apply IZR_lt; lia).
  assert (0 < IZR (Zpos mx)) as Hmx by (apply IZR_lt; lia).
  assert (X = IZR (Zpos mx) / IZR (Zpos my) * bpow (ex - ey)) as EX.
  { subst X. unfold Z.sub. rewrite bpow_add, bpow_opp. field. split; lra. }
  (* the exponent of the quotient *)
  assert (lo < ex - ey + 1)%Z as Hel.
  { apply bpow_lt_inv. apply Rle_lt_trans with (1 := proj1 HX). rewrite EX, bpow_succ.
    pose proof (bpow_pos (ex - ey)).
    assert (IZR (Zpos mx) / IZR (Zpos my) < 2); [| nra].
    apply IZR_lt in A2. apply IZR_le in B1. rewrite Hp2, mult_IZR in A2.
    apply (Rmult_lt_reg_r (IZR (Zpos my))); [lra |].
    unfold Rdiv. rewrite Rmult_assoc, Rinv_l by lra. lra. }
  unfold SFdiv, SFdiv_core_binary. rewrite !Zdigits2_pos, Hdx, Hdy.
  replace (prec + ex - (prec + ey))%Z with (ex - ey)%Z by lia.
  assert (fexp prec emax (ex - ey) = ex - ey - prec)%Z as ->
    by (unfold fexp; apply Z.max_l; lia).
  rewrite Z.min_l by lia.
  replace (ex - ey - (ex - ey - prec))%Z with prec by lia.
  assert (match prec with
          | Zpos _ => Z.shiftl (Zpos mx) prec
          | 0%Z => Zpos mx
          | Zneg _ => 0%Z
          end = (Zpos mx * 2 ^ prec)%Z) as ->
    by (destruct prec; [lia | apply Z.shiftl_mul_pow2; lia | lia]).
  pose proof (Z_div_mod (Zpos mx * 2 ^ prec) (Zpos my) ltac:(lia)) as Hdm.
  destruct (Z.div_eucl (Zpos mx * 2 ^ prec) (Zpos my)) as [q r]. destruct Hdm as [Hq Hr].
  assert (2 ^ (prec - 1) <= q)%Z as Hq1 by nia.
  destruct q as [| qp |]; [lia | | lia].
  assert (prec <= Zpos (digits2_pos qp))%Z as Hdq.
  { pose proof (digits2_pos_spec qp) as [_ C2].
    destruct (Z_lt_le_dec (Zpos (digits2_pos qp)) prec) as [Hlt |]; [| assumption].
    assert (2 ^ Zpos (digits2_pos qp) <= 2 ^ (prec - 1))%Z by (apply Z.pow_le_mono_r; lia).
    lia. }
  assert (IZR (Zpos qp) * bpow (ex - ey - prec) <= X
          < (IZR (Zpos qp) + 1) * bpow (ex - ey - prec)) as HXq.
  { assert (X = IZR (Zpos mx * 2 ^ prec) / IZR (Zpos my) * bpow (ex - ey - prec)) as ->.
    { rewrite EX, mult_IZR, <- bpow_IZR by lia.
      replace (ex - ey)%Z with (prec + (ex - ey - prec))%Z at 1 by lia.
      rewrite bpow_add. field. lra. }
    pose proof (bpow_pos (ex - ey - prec)).
    assert (IZR (Zpos qp) <= IZR (Zpos mx * 2 ^ prec) / IZR (Zpos my) < IZR (Zpos qp) + 1)
      as [Q1 Q2]; [| split; nra].
    rewrite Hq, plus_IZR, mult_IZR. destruct Hr as [R1 R2].
    apply IZR_le in R1. apply IZR_lt in R2. split.
    - apply (Rmult_le_reg_r (IZR (Zpos my))); [lra |].
      unfold Rdiv. rewrite Rmult_assoc, Rinv_l by lra. nra.
    - apply (Rmult_lt_reg_r (IZR (Zpos my))); [lra |].
      unfold Rdiv. rewrite Rmult_assoc, Rinv_l by lra. nra. }
  assert (lo < Zpos (digits2_pos qp) + (ex - ey - prec) /\
          Zpos (digits2_pos qp) + (ex - ey - prec) <= hi)%Z as [Hd1 Hd2].
  { pose proof (digits2_pos_spec qp) as [C1 C2].
    set (dq := Zpos (digits2_pos qp)) in *.
    assert (IZR (Zpos qp) + 1 <= bpow dq) as C3
      by (rewrite bpow_IZR, <- (plus_IZR _ 1) by lia; apply IZR_le; lia).
    apply IZR_le in C1. rewrite <- bpow_IZR in C1 by lia.
    pose proof (bpow_pos (ex - ey - prec)) as Hbe.
    assert (bpow (dq - 1 + (ex - ey - prec)) <= IZR (Zpos qp) * bpow (ex - ey - prec))
      by (rewrite bpow_add; nra).
    assert ((IZR (Zpos qp) + 1) * bpow (ex - ey - prec) <= bpow (dq + (ex - ey - prec)))
      by (rewrite bpow_add; nra).
    destruct HXq, HX. split.
    - apply bpow_lt_inv. lra.
    - assert (dq - 1 + (ex - ey - prec) < hi)%Z; [| lia].
      apply bpow_lt_inv. lra. }
  destruct (binary_round_aux_spec prec emax false qp (ex - ey - prec)
              (new_location (Zpos my) r) X) as (m' & e' & E & Hd' & Herr & _); try lia.
  { exact HXq. }
  cbn [xorb]. exists (S754_finite false m' e'). split; [exact E |].
  split; [split; [reflexivity | assumption] |].
  rewrite SF2R_finite, Rmult_1_l. exact Herr.
Qed.

(** Positive numbers of [prec] bits compare as the real numbers they stand
    for. *)
Lemma SFcompare_spec (prec : Z) (x y : spec_float) :
  (0 < prec)%Z -> normal prec false x -> normal prec false y ->
  exists c, SFcompare x y = Some c /\
    match c with
    | Lt => SF2R x < SF2R y
    | Eq => SF2R x = SF2R y
    | Gt => SF2R y < SF2R x
    end.
Proof.
  intros Hprec Hx Hy.
  destruct x as [| | | sx' mx ex]; try contradiction. destruct Hx as [-> Hdx].
  destruct y as [| | | sy' my ey]; try contradiction. destruct Hy as [-> Hdy].
  rewrite !SF2R_finite, !Rmult_1_l. cbn [SFcompare].
  pose proof (digits2_pos_spec mx) as [A1 A2]. pose proof (digits2_pos_spec my) as [B1 B2].
  rewrite Hdx in A1, A2. rewrite Hdy in B1, B2.
  assert (forall (m1 m2 : positive) (e1 e2 : Z),
            (2 ^ (prec - 1) <= Zpos m2)%Z -> (Zpos m1 < 2 ^ prec)%Z -> (e1 < e2)%Z ->
            IZR (Zpos m1) * bpow e1 < IZR (Zpos m2) * bpow e2) as Hlt.
  { intros m1 m2 e1 e2 H2 H1 He.
    apply IZR_le in H2. apply IZR_lt in H1. rewrite <- bpow_IZR in H1, H2 by lia.
    pose proof (bpow_pos e1). pose proof (bpow_pos e2).
    assert (bpow (prec + e1) <= bpow (prec - 1 + e2)) as Hb by (apply bpow_le; lia).
    rewrite !bpow_add in Hb. nra. }
  destruct (Z.compare_spec ex ey) as [-> | He | He].
  - change (Pos.compare_cont Eq mx my) with (Pos.compare mx my).
    pose proof (bpow_pos ey).
    destruct (Pos.compare_spec mx my) as [-> | Hm | Hm]; eexists; (split; [reflexivity |]).
    + reflexivity.
    + apply Rmult_lt_compat_r; [assumption | apply IZR_lt; lia].
    + apply Rmult_lt_compat_r; [assumption | apply IZR_lt; lia].
  - eexists. split; [reflexivity |]. apply Hlt; assumption.
  - eexists. split; [reflexivity |]. apply Hlt; assumption.
Qed.

Lemma SFltb_spec (prec : Z) (x y : spec_float) :
  (0 < prec)%Z -> normal prec false x -> normal prec false y ->
  if SFltb x y then SF2R x < SF2R y else SF2R y <= SF2R x.
Proof.
  intros Hprec Hx Hy. unfold SFltb.
  destruct (SFcompare_spec prec x y Hprec Hx Hy) as (c & -> & Hc). destruct c; lra.
Qed.

Lemma SFeqb_spec (prec : Z) (x y : spec_float) :
  (0 < prec)%Z -> normal prec false x -> normal prec false y ->
  if SFeqb x y then SF2R x = SF2R y else SF2R x <> SF2R y.
Proof.
  intros Hprec Hx Hy. unfold SFeqb.
  destruct (SFcompare_spec prec x y Hprec Hx Hy) as (c & -> & Hc). destruct c; lra.
Qed.

(** The conversion to [i32] of a positive number below 2^31 is its integer
    part. *)
Lemma trunc_i32_spec (prec : Z) (f : spec_float) :
  normal prec false f -> SF2R f < 2147483648 ->
  IZR (Float.trunc_i32 f) <= SF2R f < IZR (Float.trunc_i32 f) + 1.
Proof.
  intros Hf Hlt. destruct f as [| | | s m e]; try contradiction. destruct Hf as [-> _].
  rewrite SF2R_finite, Rmult_1_l in *. cbn [Float.trunc_i32 cond_Zopp].
  set (mag := if (0 <=? e)%Z then (Zpos m * 2 ^ e)%Z else (Zpos m / 2 ^ (- e))%Z).
  assert (IZR mag <= IZR (Zpos m) * bpow e < IZR mag + 1 /\ (0 <= mag)%Z) as [Hmag Hpos].
  { subst mag. destruct (Z.leb_spec 0 e) as [He | He].
    - rewrite mult_IZR, <- bpow_IZR by lia. split; [lra |].
      assert (0 < 2 ^ e)%Z by (apply Z.pow_pos_nonneg; lia). lia.
    - assert (0 < 2 ^ (- e))%Z as Hp by (apply Z.pow_pos_nonneg; lia).
      pose proof (Z.div_mod (Zpos m) (2 ^ (- e)) ltac:(lia)) as Hdm.
      pose proof (Z.mod_pos_bound (Zpos m) (2 ^ (- e)) Hp) as Hr.
      set (q := (Zpos m / 2 ^ (- e))%Z) in *.
      assert (0 <= q)%Z as Hq by (subst q; apply Z.div_pos; lia).
      split; [| assumption].
      assert (IZR q * IZR (2 ^ (- e)) <= IZR (Zpos m)) as Q1
        by (rewrite <- mult_IZR; apply IZR_le; lia).
      assert (IZR (Zpos m) + 1 <= (IZR q + 1) * IZR (2 ^ (- e))) as Q2
        by (rewrite <- (plus_IZR _ 1), <- (plus_IZR q 1), <- mult_IZR; apply IZR_le; lia).
      rewrite <- bpow_IZR in Q1, Q2 by lia.
      pose proof (bpow_pos e) as Hbe.
      assert (bpow (- e) * bpow e = 1) as Hone
        by (rewrite <- bpow_add; replace (- e + e)%Z with 0%Z by lia; reflexivity).
      split; nra. }
  assert (Int.in_i32b mag = true) as ->.
  { unfold Int.in_i32b, Int.INT_MIN, Int.INT_MAX.
    assert (mag < 2147483648)%Z by (apply lt_IZR; lra).
    apply andb_true_intro. split; [apply Z.leb_le | apply Z.leb_le]; lia. }
  exact Hmag.
Qed.

(** ** The conversions *)

Lemma f64_of_Z_spec (n : Z) :
  (0 < n < 2 ^ 53)%Z ->
  normal 53 false (Float.f64_of_Z n) /\ SF2R (Float.f64_of_Z n) = IZR n.
Proof.
  intros Hn. unfold Float.f64_of_Z.
  destruct (binary_normalize_spec 53 1024 n 0 false 0 53) as (f & -> & Hnorm & _ & Hex);
    try (unfold emin; lia).
  - rewrite bpow_0, Rmult_1_r, Rabs_pos_eq by (apply IZR_le; lia).
    rewrite bpow_IZR by lia. split; [apply IZR_le | apply IZR_lt]; lia.
  - destruct (Z.ltb_spec n 0) as [|_]; [lia |]. split; [assumption |].
    rewrite Hex by lia. rewrite bpow_0. lra.
Qed.

Lemma f32_of_Z_spec (n : Z) :
  (0 < n < 2 ^ 24)%Z ->
  normal 24 false (Float.f32_of_Z n) /\ SF2R (Float.f32_of_Z n) = IZR n.
Proof.
  intros Hn. unfold Float.f32_of_Z.
  destruct (binary_normalize_spec 24 128 n 0 false 0 24) as (f & -> & Hnorm & _ & Hex);
    try (unfold emin; lia).
  - rewrite bpow_0, Rmult_1_r, Rabs_pos_eq by (apply IZR_le; lia).
    rewrite bpow_IZR by lia. split; [apply IZR_le | apply IZR_lt]; lia.
  - destruct (Z.ltb_spec n 0) as [|_]; [lia |]. split; [assumption |].
    rewrite Hex by lia. rewrite bpow_0. lra.
Qed.

(** Widening a positive binary32 to binary64 is exact. *)
Lemma f64_of_f32_spec (f : spec_float) (lo hi : Z) :
  normal 24 false f -> (-1022 <= lo)%Z -> (hi <= 1023)%Z ->
  bpow lo <= SF2R f < bpow hi ->
  normal 53 false (Float.f64_of_f32 f) /\ SF2R (Float.f64_of_f32 f) = SF2R f.
Proof.
  intros Hf Hlo Hhi HX. destruct f as [| | | s m e]; try contradiction.
  destruct Hf as [-> Hd]. rewrite SF2R_finite, Rmult_1_l in *.
  unfold Float.f64_of_f32. cbn [cond_Zopp].
  pose proof (bpow_pos e) as Hbe.
  assert (0 < IZR (Zpos m)) as Hm by (apply IZR_lt; lia).
  destruct (binary_normalize_spec 53 1024 (Zpos m) e false lo hi)
    as (f & -> & Hnorm & _ & Hex); try (unfold emin; lia).
  - rewrite Rabs_pos_eq by nra. exact HX.
  - split; [exact Hnorm |]. apply Hex.
    pose proof (digits2_pos_spec m) as [_ D2]. rewrite Hd in D2. cbn [Z.abs].
    assert (2 ^ 24 < 2 ^ 53)%Z by (apply Z.pow_lt_mono_r; lia). lia.
Qed.

Lemma one_spec : normal 53 false Float.one /\ SF2R Float.one = 1.
Proof. exact (f64_of_Z_spec 1 ltac:(lia)). Qed.

(** ** Error propagation

    The three forms of [std::lerp] on numbers that carry the rounding
    errors of binary32 (2^-23) and binary64 (2^-52). *)

Lemma Rabs_le_inv (a b : R) : Rabs a <= b -> - b <= a <= b.
Proof. unfold Rabs. destruct (Rcase_abs a); lra. Qed.

Lemma errA (X tv x2 fv : R) :
  0 < X < 1 -> 1 <= x2 ->
  Rabs (tv - X) <= / 8388608 * X ->
  Rabs (fv - tv * x2) <= / 4503599627370496 * Rabs (tv * x2) ->
  Rabs (fv - X * x2) <= x2 / 4194304.
Proof.
  intros HX Hx2 Ht Hf.
  apply Rabs_le_inv in Ht.
  assert (0 < tv < 2) as Htv by lra.
  rewrite (Rabs_pos_eq (tv * x2)) in Hf by nra.
  apply Rabs_le_inv in Hf. apply Rabs_le.
  assert (0 <= tv * x2 <= 2 * x2) by nra.
  assert (- (x2 / 8388608) <= (tv - X) * x2 <= x2 / 8388608) by nra.
  lra.
Qed.

Lemma errB (X tv sv x1 yv : R) :
  0 < X < 1 -> 1 <= x1 ->
  Rabs (tv - X) <= / 8388608 * X ->
  Rabs (sv - (1 - tv)) <= / 4503599627370496 * Rabs (1 - tv) ->
  Rabs (yv - sv * x1) <= / 4503599627370496 * Rabs (sv * x1) ->
  Rabs (yv - x1 * (1 - X)) <= x1 / 4194304.
Proof.
  intros HX Hx1 Ht Hs Hy.
  apply Rabs_le_inv in Ht.
  assert (-1 < 1 - tv < 1) as Htv by lra.
  assert (Rabs (1 - tv) <= 1) as H1 by (apply Rabs_le; lra).
  apply Rabs_le_inv in Hs.
  assert (-2 <= sv <= 2) as Hsv by lra.
  assert (Rabs (sv * x1) <= 2 * x1) as H2 by (apply Rabs_le; nra).
  apply Rabs_le_inv in Hy. apply Rabs_le.
  assert (- (x1 / 8388608) <= (X - tv) * x1 <= x1 / 8388608) by nra.
  assert (- (x1 / 4503599627370496) <= (sv - (1 - tv)) * x1 <= x1 / 4503599627370496) by nra.
  lra.
Qed.

Lemma errC (W X tv x1 x2 dv pv xv : R) :
  0 < X < 1 -> 1 <= x1 <= W -> 1 <= x2 <= W ->
  Rabs (tv - X) <= / 8388608 * X ->
  Rabs (dv - (x2 - x1)) <= / 4503599627370496 * Rabs (x2 - x1) ->
  Rabs (pv - tv * dv) <= / 4503599627370496 * Rabs (tv * dv) ->
  Rabs (xv - (x1 + pv)) <= / 4503599627370496 * Rabs (x1 + pv) ->
  Rabs (xv - (x1 + X * (x2 - x1))) <= W / 4194304.
Proof.
  intros HX H1 H2 Ht Hd Hp Hx.
  apply Rabs_le_inv in Ht.
  assert (0 < tv < 2) as Htv by lra.
  assert (Rabs (x2 - x1) <= W) as HD by (apply Rabs_le; lra).
  apply Rabs_le_inv in Hd.
  assert (- (2 * W) <= dv <= 2 * W) as Hdv by lra.
  assert (Rabs (tv * dv) <= 4 * W) as Htd by (apply Rabs_le; nra).
  apply Rabs_le_inv in Hp.
  assert (- (5 * W) <= pv <= 5 * W) as Hpv by (pose proof (Rabs_le_inv _ _ Htd); lra).
  assert (Rabs (x1 + pv) <= 6 * W) as Hxp by (apply Rabs_le; lra).
  apply Rabs_le_inv in Hx. apply Rabs_le.
  assert (- (W / 8388608) <= (tv - X) * (x2 - x1) <= W / 8388608) as E1.
  { apply Rabs_le_inv in HD. nra. }
  assert (- (2 * W / 4503599627370496) <= tv * (dv - (x2 - x1)) <= 2 * W / 4503599627370496)
    as E2 by nra.
  assert (tv * dv - X * (x2 - x1) = tv * (dv - (x2 - x1)) + (tv - X) * (x2 - x1)) as E3 by ring.
  lra.
Qed.

(** The integer part of a number near the quotient [P / den]. *)
Lemma near_floor (r P den : Z) (rv W : R) :
  (0 < den)%Z ->
  IZR r <= rv < IZR r + 1 ->
  Rabs (rv - IZR P / IZR den) <= W / 4194304 ->
  IZR den * W <= 2097152 ->
  (P - den <= den * r <= P)%Z.
Proof.
  intros Hden Hr Herr HW. apply IZR_lt in Hden.
  apply Rabs_le_inv in Herr.
  assert (IZR den * (rv - IZR P / IZR den) = IZR den * rv - IZR P) as E by (field; lra).
  assert (- (1 / 2) <= IZR den * rv - IZR P <= 1 / 2) as Hb.
  { rewrite <- E. split; nra. }
  split.
  - assert (P - den - 1 < den * r)%Z; [| lia].
    apply lt_IZR. rewrite mult_IZR, !minus_IZR. nra.
  - assert (den * r < P + 1)%Z; [| lia].
    apply lt_IZR. rewrite mult_IZR, plus_IZR. nra.
Qed.

Lemma bpow_m23 : bpow (1 - 24) = / 8388608.
Proof. change (1 - 24)%Z with (- (23))%Z. rewrite bpow_opp, bpow_IZR by lia. reflexivity. Qed.

Lemma bpow_m52 : bpow (1 - 53) = / 4503599627370496.
Proof. change (1 - 53)%Z with (- (52))%Z. rewrite bpow_opp, bpow_IZR by lia. reflexivity. Qed.

Lemma bpow_Zneg (p : positive) : bpow (Zneg p) = / IZR (2 ^ Zpos p).
Proof.
  change (Zneg p) with (Z.opp (Zpos p)). rewrite bpow_opp, bpow_IZR by lia. reflexivity.
Qed.

(** Sums, differences and products of normal numbers. *)
Lemma SFadd_normal (prec emax : Z) (x y : spec_float) (sx sy : bool) (lo hi : Z) :
  (0 < prec)%Z -> normal prec sx x -> normal prec sy y ->
  (emin prec emax + prec - 1 <= lo)%Z -> (hi + 1 <= emax)%Z ->
  bpow lo <= Rabs (SF2R x + SF2R y) < bpow hi ->
  exists s,
    normal prec s (SFadd prec emax x y) /\
    (s = true -> SF2R x + SF2R y < 0) /\ (s = false -> 0 < SF2R x + SF2R y) /\
    Rabs (SF2R (SFadd prec emax x y) - (SF2R x + SF2R y))
    <= bpow (1 - prec) * Rabs (SF2R x + SF2R y).
Proof.
  intros Hprec Hx Hy Hlo Hhi HX.
  destruct x as [| | | sx' mx ex]; try contradiction.
  destruct y as [| | | sy' my ey]; try contradiction.
  destruct (SFadd_spec prec emax sx' sy' mx my ex ey lo hi Hprec Hlo Hhi HX)
    as (f & s & <- & H). exists s. exact H.
Qed.

Lemma SFsub_normal (prec emax : Z) (x y : spec_float) (sx sy : bool) (lo hi : Z) :
  (0 < prec)%Z -> normal prec sx x -> normal prec sy y ->
  (emin prec emax + prec - 1 <= lo)%Z -> (hi + 1 <= emax)%Z ->
  bpow lo <= Rabs (SF2R x - SF2R y) < bpow hi ->
  exists s,
    normal prec s (SFsub prec emax x y) /\
    (s = true -> SF2R x - SF2R y < 0) /\ (s = false -> 0 < SF2R x - SF2R y) /\
    Rabs (SF2R (SFsub prec emax x y) - (SF2R x - SF2R y))
    <= bpow (1 - prec) * Rabs (SF2R x - SF2R y).
Proof.
  intros Hprec Hx Hy Hlo Hhi HX.
  destruct x as [| | | sx' mx ex]; try contradiction.
  destruct y as [| | | sy' my ey]; try contradiction.
  destruct (SFsub_spec prec emax sx' sy' mx my ex ey lo hi Hprec Hlo Hhi HX)
    as (f & s & <- & H). exists s. exact H.
Qed.

Lemma SFmul_normal (prec emax : Z) (x y : spec_float) (sx sy : bool) (lo hi : Z) :
  (0 < prec)%Z -> normal prec sx x -> normal prec sy y ->
  (emin prec emax + prec - 1 <= lo)%Z -> (hi + 1 <= emax)%Z ->
  bpow lo <= Rabs (SF2R x * SF2R y) < bpow hi ->
  normal prec (xorb sx sy) (SFmul prec emax x y) /\
  Rabs (SF2R (SFmul prec emax x y) - SF2R x * SF2R y)
  <= bpow (1 - prec) * Rabs (SF2R x * SF2R y).
Proof.
  intros Hprec Hx Hy Hlo Hhi HX.
  destruct (SFmul_spec prec emax x y sx sy lo hi Hprec Hx Hy Hlo Hhi HX) as (f & <- & H).
  exact H.
Qed.

Lemma normal_pos (prec : Z) (f : spec_float) : normal prec false f -> 0 < SF2R f.
Proof.
  destruct f as [| | | s m e]; try contradiction. intros [-> _].
  rewrite SF2R_finite, Rmult_1_l. apply Rmult_lt_0_compat; [apply IZR_lt; lia | apply bpow_pos].
Qed.

Lemma normal_neg (prec : Z) (f : spec_float) : normal prec true f -> SF2R f < 0.
Proof.
  destruct f as [| | | s m e]; try contradiction. intros [-> _].
  rewrite SF2R_finite.
  assert (0 < IZR (Zpos m) * bpow e)
    by (apply Rmult_lt_0_compat; [apply IZR_lt; lia | apply bpow_pos]).
  lra.
Qed.

(** ** The interpolation of [TextEdit]

    The parameter of the interpolation: the binary32 quotient of two
    integers, widened to binary64. *)
Lemma lerp_parameter_spec (num den : Z) :
  (0 < num < den)%Z -> (den <= 2097152)%Z ->
  normal 53 false
    (Float.f64_of_f32 (Float.f32_div (Float.f32_of_Z num) (Float.f32_of_Z den))) /\
  Rabs (SF2R (Float.f64_of_f32 (Float.f32_div (Float.f32_of_Z num) (Float.f32_of_Z den)))
        - IZR num / IZR den)
  <= / 8388608 * (IZR num / IZR den).
Proof.
  intros Hnum Hden.
  destruct (f32_of_Z_spec num) as [Hn1 Hn2]; [change (2 ^ 24)%Z with 16777216%Z; lia |].
  destruct (f32_of_Z_spec den) as [Hd1 Hd2]; [change (2 ^ 24)%Z with 16777216%Z; lia |].
  assert (0 < IZR den) as Hdpos by (apply IZR_lt; lia).
  assert (1 <= IZR num) as Hn1' by (apply IZR_le; lia).
  assert (IZR num < IZR den) as Hnd by (apply IZR_lt; lia).
  assert (IZR den <= 2097152) as Hd' by (apply IZR_le; lia).
  assert (/ 2097152 <= IZR num / IZR den < 1) as HX.
  { split.
    - apply (Rmult_le_reg_r (IZR den)); [lra |].
      unfold Rdiv. rewrite Rmult_assoc, Rinv_l by lra. lra.
    - apply (Rmult_lt_reg_r (IZR den)); [lra |].
      unfold Rdiv. rewrite Rmult_assoc, Rinv_l by lra. lra. }
  unfold Float.f32_div.
  destruct (SFdiv_spec 24 128 (Float.f32_of_Z num) (Float.f32_of_Z den) (-21) 0)
    as (f & -> & Hnf & Herr); try assumption; try (unfold emin; lia).
  { rewrite Hn2, Hd2, (bpow_Zneg 21), bpow_0. exact HX. }
  rewrite Hn2, Hd2, bpow_m23 in Herr.
  pose proof (Rabs_le_inv _ _ Herr) as Hi.
  destruct (f64_of_f32_spec f (-22) 1 Hnf) as [Hn64 Hv64]; try lia.
  { rewrite (bpow_Zneg 22). change (bpow 1) with (2 * 1).
    change (IZR (2 ^ 22)) with 4194304. split; lra. }
  split; [assumption |]. rewrite Hv64. exact Herr.
Qed.

(** [std::lerp] when an end point is zero, and when none is. *)
Lemma lerp_zero_zero (t : spec_float) (s1 : bool) :
  normal 53 false t -> normal 53 s1 (Float.f64_sub Float.one t) ->
  Float.trunc_i32 (Float.lerp Float.zero Float.zero t) = 0%Z.
Proof.
  intros Ht Hs. unfold Float.lerp.
  destruct (Float.f64_sub Float.one t) as [| | | s' m' e']; try contradiction.
  destruct t as [| | | st mt et]; try contradiction.
  cbn [Float.zero SFleb SFcompare andb orb Float.f64_mul SFmul Float.f64_add SFadd].
  destruct (xorb st false), (xorb s' false); reflexivity.
Qed.

Lemma lerp_zero_left (b t : spec_float) (s1 : bool) :
  normal 53 false t -> normal 53 s1 (Float.f64_sub Float.one t) ->
  normal 53 false b -> normal 53 false (Float.f64_mul t b) ->
  Float.lerp Float.zero b t = Float.f64_mul t b.
Proof.
  intros Ht Hs Hb Hp. unfold Float.lerp.
  destruct (Float.f64_sub Float.one t) as [| | | s' m' e']; try contradiction.
  destruct (Float.f64_mul t b) as [| | | sp mp ep]; try contradiction.
  destruct b as [| | | sb mb eb]; try contradiction. destruct Hb as [-> _].
  cbn [Float.zero SFleb SFcompare andb orb Float.f64_mul SFmul Float.f64_add SFadd].
  reflexivity.
Qed.

Lemma lerp_zero_right (a t : spec_float) :
  normal 53 false t -> normal 53 false a ->
  normal 53 false (Float.f64_mul (Float.f64_sub Float.one t) a) ->
  Float.lerp a Float.zero t = Float.f64_mul (Float.f64_sub Float.one t) a.
Proof.
  intros Ht Ha Hp. unfold Float.lerp.
  destruct (Float.f64_mul (Float.f64_sub Float.one t) a) as [| | | sp mp ep];
    try contradiction.
  destruct a as [| | | sa ma ea]; try contradiction. destruct Ha as [-> _].
  destruct t as [| | | st mt et]; try contradiction.
  cbn [Float.zero SFleb SFcompare andb orb Float.f64_mul SFmul Float.f64_add SFadd].
  reflexivity.
Qed.

Lemma lerp_inner (a b t : spec_float) :
  normal 53 false a -> normal 53 false b ->
  Float.lerp a b t =
  if SFeqb t Float.one then b
  else
    let x := Float.f64_add a (Float.f64_mul t (Float.f64_sub b a)) in
    if Bool.eqb (SFltb Float.one t) (SFltb a b)
    then (if SFltb b x then x else b)
    else (if SFltb x b then x else b).
Proof.
  intros Ha Hb. unfold Float.lerp.
  destruct a as [| | | sa ma ea]; try contradiction. destruct Ha as [-> _].
  destruct b as [| | | sb mb eb]; try contradiction. destruct Hb as [-> _].
  reflexivity.
Qed.

Lemma SFsub_diag (prec emax : Z) (s : bool) (m : positive) (e : Z) :
  SFsub prec emax (S754_finite s m e) (S754_finite s m e) = S754_zero false.
Proof. unfold SFsub. rewrite Z.sub_diag. reflexivity. Qed.

Lemma trunc_near (r : spec_float) (P den : Z) (W : R) :
  normal 53 false r -> (0 < den)%Z ->
  Rabs (SF2R r - IZR P / IZR den) <= W / 4194304 ->
  IZR den * W <= 2097152 ->
  SF2R r < 2147483648 ->
  (P - den <= den * Float.trunc_i32 r <= P)%Z.
Proof.
  intros Hr Hden Herr HW Hlt.
  apply (near_floor (Float.trunc_i32 r) P den (SF2R r) W Hden); try assumption.
  apply (trunc_i32_spec 53); assumption.
Qed.

(** The interpolation of the code between two pixel offsets that are not
    negative lies within one pixel of the exact interpolation
    [P / den], [P = den * x1 + num * (x2 - x1)], and never beyond it. *)
Lemma lerp_i32_near (x1 x2 num den : Z) :
  (0 <= x1)%Z -> (0 <= x2)%Z -> (0 < num < den)%Z ->
  (den <= 2097152)%Z -> (den * x1 <= 2097152)%Z -> (den * x2 <= 2097152)%Z ->
  (den * x1 + num * (x2 - x1) - den <= den * lerp_i32 x1 x2 num den
   <= den * x1 + num * (x2 - x1))%Z.
Proof.
  intros H1 H2 Hnum Hden Hd1 Hd2. unfold lerp_i32.
  destruct (lerp_parameter_spec num den Hnum Hden) as [Ht Hterr].
  set (t := Float.f64_of_f32 _) in *.
  assert (0 < IZR den) as Hdpos by (apply IZR_lt; lia).
  assert (1 <= IZR num) as Hn1 by (apply IZR_le; lia).
  assert (IZR num + 1 <= IZR den) as Hnd
    by (rewrite <- (plus_IZR _ 1); apply IZR_le; lia).
  assert (IZR den <= 2097152) as Hd' by (apply IZR_le; lia).
  assert (x1 <= 1048576 /\ x2 <= 1048576)%Z as [Hx1b Hx2b] by (split; nia).
  assert (IZR den * IZR x1 <= 2097152) as HW1
    by (rewrite <- mult_IZR; apply IZR_le; assumption).
  assert (IZR den * IZR x2 <= 2097152) as HW2
    by (rewrite <- mult_IZR; apply IZR_le; assumption).
  set (X := IZR num / IZR den) in *.
  assert (X * IZR den = IZR num) as EX by (subst X; field; lra).
  assert (/ 2097152 <= X <= 1 - / 2097152) as HX by (split; nra).
  pose proof (Rabs_le_inv _ _ Hterr) as Hti.
  assert (/ 4194304 <= SF2R t < 1) as Htv by (split; nra).
  assert (forall P : Z, IZR P = IZR den * IZR x1 + IZR num * (IZR x2 - IZR x1) ->
            IZR P / IZR den = IZR x1 + X * (IZR x2 - IZR x1)) as HP.
  { intros P ->. subst X. field. lra. }
  assert (IZR (den * x1 + num * (x2 - x1))
          = IZR den * IZR x1 + IZR num * (IZR x2 - IZR x1)) as HPz
    by (rewrite plus_IZR, !mult_IZR, minus_IZR; reflexivity).
  destruct one_spec as [Hone Hone_v].
  (* 1 - t *)
  destruct (SFsub_normal 53 1024 Float.one t false false (-22) 1)
    as (s1 & Hs1 & Hs1n & _ & Hs1e); try assumption; try lia; try (unfold emin; lia).
  { rewrite Hone_v, (bpow_Zneg 22). change (bpow 1) with (2 * 1).
    change (IZR (2 ^ 22)) with 4194304. rewrite Rabs_pos_eq by lra. split; lra. }
  change (SFsub 53 1024) with Float.f64_sub in *.
  rewrite Hone_v, bpow_m52 in Hs1e. destruct s1; [specialize (Hs1n eq_refl); lra | clear Hs1n].
  destruct (Z.eq_dec x1 0) as [-> | Hx1]; destruct (Z.eq_dec x2 0) as [-> | Hx2].
  - (* both end points are zero *)
    change (Float.f64_of_Z 0) with Float.zero.
    rewrite (lerp_zero_zero t false Ht Hs1). lia.
  - (* from zero *)
    change (Float.f64_of_Z 0) with Float.zero.
    destruct (f64_of_Z_spec x2) as [Hb Hbv];
      [change (2 ^ 53)%Z with 9007199254740992%Z; lia |].
    assert (1 <= IZR x2) as Hx2r by (apply IZR_le; lia).
    assert (IZR x2 <= 2097152) as Hx2u by (apply IZR_le; lia).
    destruct (SFmul_normal 53 1024 t (Float.f64_of_Z x2) false false (-22) 23)
      as [Hp Hpe]; try assumption; try lia; try (unfold emin; lia).
    { rewrite Hbv, (bpow_Zneg 22), (bpow_IZR 23) by lia.
      change (IZR (2 ^ 22)) with 4194304. change (IZR (2 ^ 23)) with 8388608.
      rewrite Rabs_pos_eq by nra. split; nra. }
    change (SFmul 53 1024) with Float.f64_mul in *. cbn [xorb] in Hp.
    rewrite Hbv, bpow_m52 in Hpe.
    rewrite (lerp_zero_left _ t false Ht Hs1 Hb Hp).
    pose proof (errA X (SF2R t) (IZR x2) _ ltac:(lra) Hx2r Hterr Hpe) as Herr.
    apply (trunc_near _ _ den (IZR x2)); try assumption; try lia.
    + rewrite (HP _ HPz). replace (IZR 0 + X * (IZR x2 - IZR 0)) with (X * IZR x2) by lra.
      exact Herr.
    + apply Rabs_le_inv in Herr. nra.
  - (* to zero *)
    change (Float.f64_of_Z 0) with Float.zero.
    destruct (f64_of_Z_spec x1) as [Ha Hav];
      [change (2 ^ 53)%Z with 9007199254740992%Z; lia |].
    assert (1 <= IZR x1) as Hx1r by (apply IZR_le; lia).
    assert (IZR x1 <= 2097152) as Hx1u by (apply IZR_le; lia).
    pose proof (Rabs_le_inv _ _ Hs1e) as Hsi.
    rewrite Rabs_pos_eq in Hsi by lra.
    destruct (SFmul_normal 53 1024 (Float.f64_sub Float.one t) (Float.f64_of_Z x1)
                false false (-23) 23)
      as [Hp Hpe]; try assumption; try lia; try (unfold emin; lia).
    { rewrite Hav, (bpow_Zneg 23), (bpow_IZR 23) by lia.
      change (IZR (2 ^ 23)) with 8388608.
      rewrite Rabs_pos_eq by nra. split; nra. }
    change (SFmul 53 1024) with Float.f64_mul in *. cbn [xorb] in Hp.
    rewrite Hav, bpow_m52 in Hpe.
    rewrite (lerp_zero_right _ t Ht Ha Hp).
    pose proof (errB X (SF2R t) _ (IZR x1) _ ltac:(lra) Hx1r Hterr Hs1e Hpe) as Herr.
    apply (trunc_near _ _ den (IZR x1)); try assumption; try lia.
    + rewrite (HP _ HPz).
      replace (IZR x1 + X * (IZR 0 - IZR x1)) with (IZR x1 * (1 - X)) by lra.
      exact Herr.
    + apply Rabs_le_inv in Herr. nra.
  - (* between two positive offsets *)
    destruct (f64_of_Z_spec x1) as [Ha Hav];
      [change (2 ^ 53)%Z with 9007199254740992%Z; lia |].
    destruct (f64_of_Z_spec x2) as [Hb Hbv];
      [change (2 ^ 53)%Z with 9007199254740992%Z; lia |].
    assert (1 <= IZR x1 <= 1048576) as Hx1r by (split; apply IZR_le; lia).
    assert (1 <= IZR x2 <= 1048576) as Hx2r by (split; apply IZR_le; lia).
    set (a := Float.f64_of_Z x1) in *. set (b := Float.f64_of_Z x2) in *.
    rewrite (lerp_inner a b t Ha Hb).
    pose proof (SFeqb_spec 53 t Float.one ltac:(lia) Ht Hone) as Heq.
    destruct (SFeqb t Float.one); [lra | clear Heq].
    pose proof (SFltb_spec 53 Float.one t ltac:(lia) Hone Ht) as Hlt1.
    destruct (SFltb Float.one t); [lra | clear Hlt1].
    cbv zeta.
    pose proof (SFltb_spec 53 a b ltac:(lia) Ha Hb) as Hab. rewrite Hav, Hbv in Hab.
    destruct (Z.eq_dec x1 x2) as [E12 | N12].
    + (* equal end points *)
      assert (b = a) as -> by (subst a b; rewrite E12; reflexivity).
      destruct (SFltb a a); [lra |].
      assert (Float.f64_add a (Float.f64_mul t (Float.f64_sub a a)) = a) as ->.
      { destruct a as [| | | sa ma ea]; try contradiction.
        destruct t as [| | | st mt et]; try contradiction.
        unfold Float.f64_sub. rewrite SFsub_diag. reflexivity. }
      pose proof (SFltb_spec 53 a a ltac:(lia) Ha Ha) as Haa.
      cbn [Bool.eqb]. destruct (SFltb a a); [lra |].
      apply (trunc_near _ _ den (IZR x1)); try assumption; try lia; [| lra].
      rewrite (HP _ HPz), Hav, <- E12.
      replace (IZR x1 - (IZR x1 + X * (IZR x1 - IZR x1))) with 0 by lra.
      rewrite Rabs_R0. lra.
    + (* distinct end points *)
      assert (1 <= Rabs (IZR x2 - IZR x1)) as HD.
      { rewrite <- minus_IZR, <- abs_IZR. apply IZR_le. lia. }
      destruct (SFsub_normal 53 1024 b a false false 0 22)
        as (sd & Hd & _ & _ & Hde); try assumption; try lia; try (unfold emin; lia).
      { rewrite Hav, Hbv, bpow_0, (bpow_IZR 22) by lia. change (IZR (2 ^ 22)) with 4194304.
        split; [assumption |]. apply Rle_lt_trans with 2097152; [| lra].
        apply Rabs_le. lra. }
      change (SFsub 53 1024) with Float.f64_sub in *.
      rewrite Hav, Hbv, bpow_m52 in Hde.
      set (d := Float.f64_sub b a) in *.
      assert (/ 2 <= Rabs (SF2R d) <= 4194304) as Hdr.
      { pose proof (Rabs_le_inv _ _ Hde) as Hi.
        assert (Rabs (IZR x2 - IZR x1) <= 2097152) as HDu by (apply Rabs_le; lra).
        unfold Rabs in *. destruct (Rcase_abs (SF2R d)), (Rcase_abs (IZR x2 - IZR x1)); lra. }
      destruct (SFmul_normal 53 1024 t d false sd (-24) 23)
        as [Hp Hpe]; try assumption; try lia; try (unfold emin; lia).
      { rewrite (bpow_Zneg 24), (bpow_IZR 23) by lia.
        change (IZR (2 ^ 24)) with 16777216. change (IZR (2 ^ 23)) with 8388608.
        rewrite Rabs_mult, (Rabs_pos_eq (SF2R t)) by lra. split; nra. }
      change (SFmul 53 1024) with Float.f64_mul in *. rewrite bpow_m52 in Hpe.
      set (p := Float.f64_mul t d) in *.
      pose proof (errC (Rmax (IZR x1) (IZR x2)) X (SF2R t) (IZR x1) (IZR x2)
                    (SF2R d) (SF2R p)) as HerrC.
      assert (IZR x1 <= Rmax (IZR x1) (IZR x2)) as Hm1 by apply Rmax_l.
      assert (IZR x2 <= Rmax (IZR x1) (IZR x2)) as Hm2 by apply Rmax_r.
      assert (IZR den * Rmax (IZR x1) (IZR x2) <= 2097152) as HWm
        by (unfold Rmax; destruct (Rle_dec (IZR x1) (IZR x2)); assumption).
      assert (Rmax (IZR x1) (IZR x2) <= 2097152) as HWu
        by (unfold Rmax; destruct (Rle_dec (IZR x1) (IZR x2)); lra).
      (* the product is within the end points, up to the rounding *)
      assert (Rabs (SF2R p - X * (IZR x2 - IZR x1)) <= / 4194304 * Rabs (IZR x2 - IZR x1) + / 1048576)
        as Hpx.
      { pose proof (Rabs_le_inv _ _ Hpe) as Hi1. pose proof (Rabs_le_inv _ _ Hde) as Hi2.
        assert (Rabs (SF2R t * SF2R d) <= 4194304) as Htd
          by (rewrite Rabs_mult, (Rabs_pos_eq (SF2R t)) by lra; nra).
        assert (Rabs (IZR x2 - IZR x1) <= 2097152) as HDu by (apply Rabs_le; lra).
        assert (SF2R t * SF2R d - X * (IZR x2 - IZR x1)
                = SF2R t * (SF2R d - (IZR x2 - IZR x1)) + (SF2R t - X) * (IZR x2 - IZR x1))
          as E3 by ring.
        apply Rabs_le. unfold Rabs in *.
        destruct (Rcase_abs (IZR x2 - IZR x1)); split; nra. }
      assert (Rmin (IZR x1) (IZR x2) <= IZR x1 + X * (IZR x2 - IZR x1)
              <= Rmax (IZR x1) (IZR x2)) as HE.
      { unfold Rmin, Rmax. destruct (Rle_dec (IZR x1) (IZR x2)); split; nra. }
      assert (1 <= Rmin (IZR x1) (IZR x2)) as Hmin
        by (unfold Rmin; destruct (Rle_dec (IZR x1) (IZR x2)); lra).
      assert (/ 2 <= SF2R a + SF2R p <= 4194304) as Hsum.
      { rewrite Hav. pose proof (Rabs_le_inv _ _ Hpx) as Hi.
        assert (Rabs (IZR x2 - IZR x1) <= 1048576) as HDu by (apply Rabs_le; lra).
        assert (Rmax (IZR x1) (IZR x2) <= 1048576)
          by (unfold Rmax; destruct (Rle_dec (IZR x1) (IZR x2)); lra).
        split; lra. }
      destruct (SFadd_normal 53 1024 a p false (xorb false sd) (-1) 23)
        as (sx & Hx & Hxn & _ & Hxe); try assumption; try lia; try (unfold emin; lia).
      { rewrite (bpow_Zneg 1), (bpow_IZR 23) by lia.
        change (IZR (2 ^ 1)) with 2. change (IZR (2 ^ 23)) with 8388608.
        rewrite Rabs_pos_eq by lra. split; lra. }
      change (SFadd 53 1024) with Float.f64_add in *.
      destruct sx; [specialize (Hxn eq_refl); lra | clear Hxn].
      rewrite Hav, bpow_m52 in Hxe.
      set (x := Float.f64_add a p) in *.
      specialize (HerrC (SF2R x) ltac:(lra) ltac:(lra) ltac:(lra) Hterr Hde Hpe Hxe).
      pose proof (Rabs_le_inv _ _ HerrC) as Hxi.
      pose proof (SFltb_spec 53 b x ltac:(lia) Hb Hx) as Hbx. rewrite Hbv in Hbx.
      pose proof (SFltb_spec 53 x b ltac:(lia) Hx Hb) as Hxb. rewrite Hbv in Hxb.
      assert (forall r, r = x \/ (r = b /\ Rabs (IZR x2 - (IZR x1 + X * (IZR x2 - IZR x1)))
                                          <= Rmax (IZR x1) (IZR x2) / 4194304) ->
                (den * x1 + num * (x2 - x1) - den <= den * Float.trunc_i32 r
                 <= den * x1 + num * (x2 - x1))%Z) as Hfin.
      { intros r [-> | [-> Hrb]].
        - apply (trunc_near _ _ den (Rmax (IZR x1) (IZR x2))); try assumption; try lia.
          + rewrite (HP _ HPz). exact HerrC.
          + lra.
        - apply (trunc_near _ _ den (Rmax (IZR x1) (IZR x2))); try assumption; try lia.
          + rewrite (HP _ HPz), Hbv. exact Hrb.
          + rewrite Hbv. lra. }
      destruct (SFltb a b).
      * (* x1 < x2 *)
        cbn [Bool.eqb]. destruct (SFltb x b); apply Hfin; [left; reflexivity | right].
        split; [reflexivity |]. apply Rabs_le. split; nra.
      * (* x2 < x1 *)
        cbn [Bool.eqb]. destruct (SFltb b x); apply Hfin; [left; reflexivity | right].
        split; [reflexivity |]. apply Rabs_le. split; nra.
Qed.

End FloatFacts.

(** ** TextEdit: cursor index to pixel offset *)

Section CursorFacts.
Import Int.

Lemma sorted_head_le (a : Cluster) (l : list Cluster) :
  sorted_by_index (a :: l) = true ->
  forall j k, nth_error (a :: l) j = Some k -> index a <= index k.
Proof.
  revert a. induction l as [| b rest IH]; intros a Hs j k Hk.
  - destruct j as [| j]; cbn in Hk; [injection Hk as <-; lia |].
    destruct j; discriminate.
  - cbn [sorted_by_index] in Hs. apply andb_prop in Hs as [Hab Hrest].
    apply Z.leb_le in Hab.
    destruct j as [| j]; cbn [nth_error] in Hk; [injection Hk as <-; lia |].
    specialize (IH b Hrest j k Hk). lia.
Qed.

Lemma sorted_tail (a : Cluster) (l : list Cluster) :
  sorted_by_index (a :: l) = true -> sorted_by_index l = true.
Proof.
  destruct l as [| b rest]; [reflexivity |].
  cbn [sorted_by_index]. intros H. apply andb_prop in H. tauto.
Qed.

Lemma sorted_nth (l : list Cluster) :
  sorted_by_index l = true ->
  forall i j a b, (i <= j)%nat -> nth_error l i = Some a -> nth_error l j = Some b ->
                  index a <= index b.
Proof.
  induction l as [| h rest IH]; intros Hs i j a b Hij Ha Hb.
  - destruct i; discriminate.
  - destruct i as [| i].
    + cbn in Ha. injection Ha as <-. eapply sorted_head_le; eassumption.
    + destruct j as [| j]; [lia |]. cbn [nth_error] in Ha, Hb.
      apply (IH (sorted_tail _ _ Hs) i j); [lia | assumption | assumption].
Qed.

(** The binary search returns, and what it returns is the partition
    point. *)
Lemma lower_bound_loop_correct (l : list Cluster) (c : Z) :
  sorted_by_index l = true ->
  forall fuel first len,
    (len < fuel)%nat -> (first + len <= length l)%nat ->
    (forall j k, (j < first)%nat -> nth_error l j = Some k -> index k < c) ->
    (forall j k, (first + len <= j)%nat -> nth_error l j = Some k -> c <= index k) ->
    exists p, TextEdit.lower_bound_loop fuel l c first len = Some p /\ partition_at l c p.
Proof.
  intros Hs. induction fuel as [| fuel IH]; intros first len Hfuel Hlen Hlo Hhi; [lia |].
  cbn [TextEdit.lower_bound_loop].
  destruct (Nat.eqb_spec len 0) as [-> | Hnz].
  - exists first. split; [reflexivity |]. repeat split.
    + lia.
    + assumption.
    + intros j k Hj. apply Hhi. lia.
  - assert (len / 2 < len)%nat as Hhalf by (apply Nat.div_lt; lia).
    destruct (nth_error l (first + len / 2)) as [k |] eqn:Ek.
    2:{ apply nth_error_None in Ek. lia. }
    destruct (Z.ltb_spec (index k) c) as [Hlt | Hge].
    + apply IH.
      * lia.
      * lia.
      * intros j k' Hj Hk'.
        pose proof (sorted_nth l Hs j (first + len / 2)%nat k' k ltac:(lia) Hk' Ek). lia.
      * intros j k' Hj. apply Hhi. lia.
    + apply IH.
      * lia.
      * lia.
      * assumption.
      * intros j k' Hj Hk'.
        pose proof (sorted_nth l Hs (first + len / 2)%nat j k k' ltac:(lia) Ek Hk'). lia.
Qed.

Lemma lower_bound_correct (l : list Cluster) (c : Z) :
  sorted_by_index l = true ->
  exists p, TextEdit.lower_bound l c = Some p /\ partition_at l c p.
Proof.
  intros Hs. unfold TextEdit.lower_bound.
  apply lower_bound_loop_correct.
  - assumption.
  - lia.
  - lia.
  - intros j k Hj. lia.
  - intros j k Hj Hk. cbn in Hj.
    assert (nth_error l j <> None) as Hn by congruence.
    apply nth_error_Some in Hn. lia.
Qed.

Lemma partition_at_tail (a : Cluster) (l : list Cluster) (c : Z) (p : nat) :
  partition_at (a :: l) c (S p) -> partition_at l c p.
Proof.
  intros (H1 & H2 & H3). repeat split.
  - cbn in H1. lia.
  - intros j k Hj Hk. apply (H2 (S j) k); [lia | assumption].
  - intros j k Hj Hk. apply (H3 (S j) k); [lia | assumption].
Qed.

(** Walking the list finds the partition point and its predecessor. *)
Lemma bracket_partition (l : list Cluster) (c : Z) :
  forall p prev,
    partition_at l c p ->
    bracket c prev l =
    (match p with O => prev | S q => nth_error l q end, nth_error l p).
Proof.
  induction l as [| a rest IH]; intros p prev Hp.
  - destruct Hp as (H1 & _). cbn in H1. assert (p = 0)%nat as -> by lia. reflexivity.
  - cbn [bracket]. destruct p as [| p].
    + destruct Hp as (_ & _ & H3).
      specialize (H3 0%nat a ltac:(lia) eq_refl).
      destruct (Z.leb_spec c (index a)); [reflexivity | lia].
    + pose proof Hp as (_ & H2 & _).
      specialize (H2 0%nat a ltac:(lia) eq_refl).
      destruct (Z.leb_spec c (index a)); [lia |].
      rewrite (IH p (Some a) (partition_at_tail _ _ _ _ Hp)).
      cbn [nth_error]. destruct p; reflexivity.
Qed.

Lemma find_below (l : list Cluster) (c : Z) :
  (forall k, In k l -> index k <> c) -> find (fun k => index k =? c) l = None.
Proof.
  induction l as [| a rest IH]; intros H; [reflexivity |].
  cbn [find]. destruct (Z.eqb_spec (index a) c) as [E | _].
  - exfalso. apply (H a); [left; reflexivity | assumption].
  - apply IH. intros k Hk. apply H. right. assumption.
Qed.

(** The first cluster with index [c], by the partition point. *)
Lemma find_partition (l : list Cluster) (c : Z) :
  sorted_by_index l = true ->
  forall p, partition_at l c p ->
    find (fun k => index k =? c) l =
    match nth_error l p with
    | Some k => if index k =? c then Some k else None
    | None => None
    end.
Proof.
  induction l as [| a rest IH]; intros Hs p Hp.
  - destruct p; reflexivity.
  - destruct p as [| p].
    + cbn [nth_error find].
      destruct (Z.eqb_spec (index a) c) as [E | NE]; [reflexivity |].
      apply find_below. intros k Hk E.
      destruct Hp as (_ & _ & H3). specialize (H3 0%nat a ltac:(lia) eq_refl).
      apply In_nth_error in Hk as [j Hj].
      pose proof (sorted_head_le a rest Hs (S j) k Hj). lia.
    + pose proof Hp as (_ & H2 & _).
      specialize (H2 0%nat a ltac:(lia) eq_refl).
      cbn [find nth_error]. destruct (Z.eqb_spec (index a) c) as [E | _]; [lia |].
      apply IH; [eapply sorted_tail; eassumption | eapply partition_at_tail; eassumption].
Qed.

(** The interpolation of the code is the exact interpolation rounded down
    to whole pixels, or one pixel less when the exact interpolation is a
    whole number of pixels. *)
Lemma lerp_i32_floor (x1 x2 num den : Z) :
  0 <= x1 -> 0 <= x2 -> 0 < num < den ->
  den <= 2097152 -> den * x1 <= 2097152 -> den * x2 <= 2097152 ->
  lerp_i32 x1 x2 num den = whole_pixels (interpolate x1 x2 num den) \/
  (snd (interpolate x1 x2 num den) > 1 /\
   fst (interpolate x1 x2 num den) mod snd (interpolate x1 x2 num den) = 0 /\
   lerp_i32 x1 x2 num den = whole_pixels (interpolate x1 x2 num den) - 1).
Proof.
  intros H1 H2 Hnum Hden Hd1 Hd2.
  pose proof (lerp_i32_near x1 x2 num den H1 H2 Hnum Hden Hd1 Hd2) as Hnear.
  unfold whole_pixels, interpolate. cbn [fst snd].
  set (P := den * x1 + num * (x2 - x1)) in *.
  pose proof (Z.div_mod P den ltac:(lia)) as Hdm.
  pose proof (Z.mod_pos_bound P den ltac:(lia)) as Hm.
  destruct (Z.eq_dec (P mod den) 0) as [E0 | N0].
  - destruct (Z.eq_dec (lerp_i32 x1 x2 num den) (P / den)) as [E | NE]; [left; assumption |].
    right. split; [lia |]. split; [assumption |]. nia.
  - left. nia.
Qed.




End CursorFacts.

(** ** TextEdit: clicks and keyboard input *)

Section TextEditFacts.
Import Int.

Ltac te_simpl :=
  cbn [TextEdit.cursor TextEdit.text TextEdit.set_cursor TextEdit.set_text
       TextEdit.set_dirty TextEdit.set_no_blink_ticks Widget.impl Widget.set_impl] in *.

Lemma text_size_exact (d : TextEdit.data) :
  Z.of_nat (length (TextEdit.text d)) <= INT_MAX ->
  TextEdit.text_size d = Z.of_nat (length (TextEdit.text d)).
Proof.
  intros H. apply i32_id. unfold in_i32, INT_MIN, INT_MAX in *. lia.
Qed.

Lemma clamp_range (v lo hi : Z) : lo <= hi -> lo <= TextEdit.clamp v lo hi <= hi.
Proof.
  intros H. unfold TextEdit.clamp.
  destruct (Z.ltb_spec v lo); [lia |]. destruct (Z.ltb_spec hi v); lia.
Qed.

(** The loop of [event_click] leaves with a cursor once the fuel exceeds
    the distance of the cursor from the end of the text. *)
Lemma click_loop_returns (interp : Z -> Z -> Z -> Z -> Z) (N x0 mx : Z) :
  N <= INT_MAX ->
  forall fuel cur d it prev,
    0 <= cur -> (Z.to_nat (N - cur) < fuel)%nat ->
    exists r, TextEdit.click_loop interp N x0 mx fuel cur d it prev = Some r.
Proof.
  intros HN. induction fuel as [| fuel IH]; intros cur d it prev Hcur Hfuel; [lia |].
  cbn [TextEdit.click_loop].
  destruct (Z.ltb_spec cur N) as [Hlt | _]; [| eauto].
  destruct it as [| c rest]; [eauto |].
  destruct (_ <? _); [eauto |].
  assert (add32 cur 1 = cur + 1) as ->.
  { apply i32_id. unfold in_i32, INT_MIN, INT_MAX in *. lia. }
  apply IH; lia.
Qed.

(** C6: [TextEdit::event_click] sets the cursor to index 0 when the click
    is left of the left edge of the text, and to N, the text length, when
    the click is right of the right edge of the text, whatever the
    clusters. *)
Theorem click_outside_text (input : InputSystem.t) (parent_box : AABB) (w : TextEdit.t) :
  (i32 (x (pos (InputSystem.mouse input))) < TextEdit.text_left parent_box w ->
   exists w', TextEdit.event_click input parent_box w = Some w' /\
              TextEdit.cursor (Widget.impl w') = 0) /\
  (TextEdit.text_left parent_box w <= TextEdit.text_right parent_box w ->
   TextEdit.text_right parent_box w < i32 (x (pos (InputSystem.mouse input))) ->
   exists w', TextEdit.event_click input parent_box w = Some w' /\
              TextEdit.cursor (Widget.impl w') = TextEdit.text_size (Widget.impl w)).
Proof.
  unfold TextEdit.event_click. split.
  - intros H. destruct (Z.ltb_spec (i32 (x (pos (InputSystem.mouse input))))
                          (TextEdit.text_left parent_box w)); [| lia].
    eexists. split; reflexivity.
  - intros Hedges H.
    destruct (Z.ltb_spec (i32 (x (pos (InputSystem.mouse input))))
                (TextEdit.text_left parent_box w)); [lia |].
    destruct (Z.ltb_spec (TextEdit.text_right parent_box w)
                (i32 (x (pos (InputSystem.mouse input))))); [| lia].
    eexists. split; reflexivity.
Qed.

Lemma drop_while_length (f : Z -> bool) (s : u32string) :
  (length (TextEdit.drop_while f s) <= length s)%nat.
Proof.
  induction s as [| c rest IH]; cbn [TextEdit.drop_while]; [lia |].
  destruct (f c); cbn [length]; lia.
Qed.

Lemma word_start_length (s : u32string) :
  (length (TextEdit.drop_back_until_any (TextEdit.trim_back s)) <= length s)%nat.
Proof.
  unfold TextEdit.drop_back_until_any, TextEdit.trim_back.
  rewrite length_rev, rev_involutive.
  pose proof (drop_while_length (fun c => negb (TextEdit.is_ws c))
                (TextEdit.drop_while TextEdit.is_ws (rev s))).
  pose proof (drop_while_length TextEdit.is_ws (rev s)).
  rewrite length_rev in *. lia.
Qed.

Lemma erase_ok (p n : Z) (s : u32string) :
  0 <= p -> 0 <= n -> p + n <= Z.of_nat (length s) ->
  exists s', TextEdit.erase p n s = Some s' /\
             Z.of_nat (length s') = Z.of_nat (length s) - n.
Proof.
  intros Hp Hn Hlen. unfold TextEdit.erase.
  destruct (Z.leb_spec 0 p); [| lia].
  destruct (Z.leb_spec p (Z.of_nat (length s))); [| lia].
  cbn [andb]. eexists. split; [reflexivity |].
  rewrite length_app, length_firstn, length_skipn. lia.
Qed.

Lemma insert_ok (p : Z) (str s : u32string) :
  0 <= p <= Z.of_nat (length s) ->
  exists s', TextEdit.insert p str s = Some s' /\
             Z.of_nat (length s') = Z.of_nat (length s) + Z.of_nat (length str).
Proof.
  intros Hp. unfold TextEdit.insert.
  destruct (Z.leb_spec 0 p); [| lia].
  destruct (Z.leb_spec p (Z.of_nat (length s))); [| lia].
  cbn [andb]. eexists. split; [reflexivity |].
  rewrite !length_app, length_firstn, length_skipn. lia.
Qed.

Lemma Paste_ok (sdl : Sdl) (d : TextEdit.data) :
  TextEdit.cursor (TextEdit.Paste sdl d) = TextEdit.cursor d /\
  Z.of_nat (length (TextEdit.text d)) <= Z.of_nat (length (TextEdit.text (TextEdit.Paste sdl d)))
  <= Z.of_nat (length (TextEdit.text d)) + clipboard_length sdl.
Proof.
  unfold TextEdit.Paste, clipboard_length. destruct (clipboard sdl) as [clip |].
  - cbn. rewrite length_app. lia.
  - lia.
Qed.

(** One key event keeps the cursor within the text; the text grows by at
    most the clipboard. *)
Lemma handle_key_ok (sdl : Sdl) (d : TextEdit.data) (ev : Event) :
  cursor_in_text d ->
  Z.of_nat (length (TextEdit.text d)) + clipboard_length sdl < INT_MAX ->
  exists d', TextEdit.handle_key sdl d ev = Some d' /\ cursor_in_text d' /\
             Z.of_nat (length (TextEdit.text d'))
             <= Z.of_nat (length (TextEdit.text d)) + clipboard_length sdl.
Proof.
  unfold cursor_in_text. intros Hc Hlen.
  assert (0 <= clipboard_length sdl) as Hclip
    by (unfold clipboard_length; destruct (clipboard sdl); lia).
  assert (TextEdit.text_size (TextEdit.set_no_blink_ticks 20 d)
          = Z.of_nat (length (TextEdit.text d))) as Hsize
    by (apply (text_size_exact (TextEdit.set_no_blink_ticks 20 d)); te_simpl; lia).
  unfold TextEdit.handle_key. rewrite Hsize.
  cbn [TextEdit.cursor TextEdit.text TextEdit.set_no_blink_ticks].
  unfold INT_MAX in *.
  destruct (key ev).
  - (* Backspace *)
    destruct (TextEdit.has_mod (mod_ ev) SDL_KMOD_CTRL).
    + destruct (Z.leb_spec 0 (TextEdit.cursor d)); [| lia].
      destruct (Z.leb_spec (TextEdit.cursor d) (Z.of_nat (length (TextEdit.text d)))); [| lia].
      cbn [andb].
      pose proof (word_start_length (firstn (Z.to_nat (TextEdit.cursor d)) (TextEdit.text d)))
        as Hp.
      rewrite length_firstn in Hp.
      set (p := Z.of_nat (length (TextEdit.drop_back_until_any (TextEdit.trim_back
                   (firstn (Z.to_nat (TextEdit.cursor d)) (TextEdit.text d)))))) in *.
      assert (0 <= p <= TextEdit.cursor d) as Hp' by lia.
      assert (usz (TextEdit.cursor d - p) = TextEdit.cursor d - p) as ->
        by (apply usz_small; unfold INT_MAX; lia).
      destruct (erase_ok p (TextEdit.cursor d - p) (TextEdit.text d)) as (s' & -> & Hs');
        [lia | lia | lia |].
      eexists. split; [reflexivity |]. te_simpl.
      rewrite (i32_id p) by (unfold in_i32, INT_MIN, INT_MAX; lia). lia.
    + destruct (Z.eqb_spec (TextEdit.cursor d) 0); cbn [negb].
      * eexists. split; [reflexivity |]. te_simpl. lia.
      * assert (sub32 (TextEdit.cursor d) 1 = TextEdit.cursor d - 1) as ->
          by (apply i32_id; unfold in_i32, INT_MIN, INT_MAX; lia).
        destruct (erase_ok (TextEdit.cursor d - 1) 1 (TextEdit.text d)) as (s' & -> & Hs');
          [lia | lia | lia |].
        eexists. split; [reflexivity |]. te_simpl. lia.
  - (* Delete *)
    destruct (Z.eqb_spec (TextEdit.cursor d) (Z.of_nat (length (TextEdit.text d)))); cbn [negb].
    + eexists. split; [reflexivity |]. te_simpl. lia.
    + destruct (erase_ok (TextEdit.cursor d) 1 (TextEdit.text d)) as (s' & -> & Hs');
        [lia | lia | lia |].
      eexists. split; [reflexivity |]. te_simpl. lia.
  - (* Left *)
    eexists. split; [reflexivity |]. te_simpl.
    rewrite sub32_exact by (unfold in_i32, INT_MIN, INT_MAX; lia). lia.
  - (* Right *)
    eexists. split; [reflexivity |]. te_simpl.
    rewrite add32_exact by (unfold in_i32, INT_MIN, INT_MAX; lia). lia.
  - eexists. split; [reflexivity |]. te_simpl. lia.
  - eexists. split; [reflexivity |]. te_simpl. lia.
  - (* V *)
    eexists. split; [reflexivity |].
    pose proof (Paste_ok sdl (TextEdit.set_no_blink_ticks 20 d)) as [Hpc Hpl].
    cbn [TextEdit.cursor TextEdit.text TextEdit.set_no_blink_ticks] in Hpc, Hpl.
    destruct (TextEdit.has_mod _ _); [rewrite Hpc | te_simpl]; lia.
  - (* Insert *)
    eexists. split; [reflexivity |].
    pose proof (Paste_ok sdl (TextEdit.set_no_blink_ticks 20 d)) as [Hpc Hpl].
    cbn [TextEdit.cursor TextEdit.text TextEdit.set_no_blink_ticks] in Hpc, Hpl.
    destruct (TextEdit.has_mod _ _); [rewrite Hpc | te_simpl]; lia.
  - eexists. split; [reflexivity |]. te_simpl. lia.
Qed.

Lemma handle_keys_ok (sdl : Sdl) (evs : list Event) :
  forall d,
    cursor_in_text d ->
    Z.of_nat (length (TextEdit.text d)) + Z.of_nat (length evs) * clipboard_length sdl
    < INT_MAX ->
    exists d', TextEdit.handle_keys sdl d evs = Some d' /\ cursor_in_text d'.
Proof.
  assert (0 <= clipboard_length sdl) as Hclip
    by (unfold clipboard_length; destruct (clipboard sdl); lia).
  induction evs as [| ev rest IH]; intros d Hc Hlen; cbn [TextEdit.handle_keys]; [eauto |].
  change (length (ev :: rest)) with (S (length rest)) in Hlen.
  destruct (handle_key_ok sdl d ev Hc) as (d1 & -> & Hc1 & Hl1); [nia |].
  apply IH; [assumption | nia].
Qed.

(** C9: for every TextEdit whose cursor lies in [0, text length] (the text,
    the typed text and the pasted texts together being shorter than the
    largest [i32]), [event_click] and [event_input] return, without
    exception and without running out of steps, and leave the cursor in
    [0, new text length], whatever the clusters. *)
Theorem cursor_stays_in_text (sdl : Sdl) (input : InputSystem.t) (parent_box : AABB)
    (w : TextEdit.t) :
  cursor_in_text (Widget.impl w) ->
  Z.of_nat (length (TextEdit.text (Widget.impl w)))
  + Z.of_nat (length (InputSystem.text_input input))
  + Z.of_nat (length (InputSystem.kb_events input)) * clipboard_length sdl < INT_MAX ->
  (exists w', TextEdit.event_click input parent_box w = Some w' /\
              cursor_in_text (Widget.impl w')) /\
  (exists w', TextEdit.event_input sdl input w = Some w' /\
              cursor_in_text (Widget.impl w')).
Proof.
  intros Hc Hlen.
  assert (0 <= clipboard_length sdl) as Hclip
    by (unfold clipboard_length; destruct (clipboard sdl); lia).
  assert (Z.of_nat (length (TextEdit.text (Widget.impl w))) < INT_MAX) as Hl by nia.
  split.
  - unfold TextEdit.event_click.
    assert (TextEdit.text_size (TextEdit.set_no_blink_ticks 20 (Widget.impl w))
            = Z.of_nat (length (TextEdit.text (Widget.impl w)))) as ->
      by (apply (text_size_exact (TextEdit.set_no_blink_ticks 20 (Widget.impl w)));
          te_simpl; lia).
    unfold cursor_in_text in *.
    destruct (_ <? _); [eexists; split; [reflexivity | te_simpl; lia] |].
    destruct (_ <? _); [eexists; split; [reflexivity | te_simpl; lia] |].
    destruct (_ <? _)%nat; [eexists; split; [reflexivity | te_simpl; lia] |].
    edestruct (click_loop_returns lerp_i32
                 (Z.of_nat (length (TextEdit.text (Widget.impl w))))) as [r ->];
      [lia | | | eexists; split; [reflexivity |]].
    + apply Z.le_refl.
    + lia.
    + te_simpl. apply clamp_range. lia.
  - unfold TextEdit.event_input, TextEdit.copy_text_input.
    destruct (InputSystem.text_input input) as [| t0 ti] eqn:Eti.
    + destruct (handle_keys_ok sdl (InputSystem.kb_events input) (Widget.impl w) Hc)
        as (d' & -> & Hd'); [cbn [length] in Hlen; lia |].
      eexists. split; [reflexivity | exact Hd'].
    + te_simpl.
      destruct (insert_ok (TextEdit.cursor (Widget.impl w)) (t0 :: ti)
                  (TextEdit.text (Widget.impl w)) Hc) as (s' & -> & Hs').
      match goal with
      | |- context [TextEdit.handle_keys sdl ?d ?evs] =>
          destruct (handle_keys_ok sdl evs d) as (d' & -> & Hd')
      end.
      * unfold cursor_in_text in *. te_simpl.
        rewrite (i32_id (Z.of_nat (length (t0 :: ti))))
          by (unfold in_i32, INT_MIN, INT_MAX in *; nia).
        rewrite add32_exact by (unfold in_i32, INT_MIN, INT_MAX in *; nia).
        lia.
      * te_simpl. nia.
      * eexists. split; [reflexivity | exact Hd'].
Qed.

(** A click on and keyboard input to the text edit holding "fluff". *)
Lemma cursor_stays_in_text_witness :
  (exists w', TextEdit.event_click typing (Box (XY 0 0) (SZ 800 600)) fluff = Some w' /\
              cursor_in_text (Widget.impl w')) /\
  (exists w', TextEdit.event_input (SDL (Some [33]) true) typing fluff = Some w' /\
              cursor_in_text (Widget.impl w')).
Proof.
  apply (cursor_stays_in_text (SDL (Some [33]) true) typing (Box (XY 0 0) (SZ 800 600)) fluff).
  - unfold cursor_in_text. cbn. lia.
  - vm_compute. reflexivity.
Defined.

(** Clicks at x = 5 and x = 700 on the text edit holding "fluff", whose text spans 123 to 173. *)
Lemma click_outside_text_witness :
  (exists w', TextEdit.event_click
                (InputSystem.Make true [] [] (Mouse (XY 5 30) true false false) false)
                (Box (XY 0 0) (SZ 800 600)) fluff = Some w' /\
              TextEdit.cursor (Widget.impl w') = 0) /\
  (exists w', TextEdit.event_click
                (InputSystem.Make true [] [] (Mouse (XY 700 30) true false false) false)
                (Box (XY 0 0) (SZ 800 600)) fluff = Some w' /\
              TextEdit.cursor (Widget.impl w') = TextEdit.text_size (Widget.impl fluff)).
Proof.
  split.
  - apply (proj1 (click_outside_text
                    (InputSystem.Make true [] [] (Mouse (XY 5 30) true false false) false)
                    (Box (XY 0 0) (SZ 800 600)) fluff)).
    vm_compute. reflexivity.
  - apply (proj2 (click_outside_text
                    (InputSystem.Make true [] [] (Mouse (XY 700 30) true false false) false)
                    (Box (XY 0 0) (SZ 800 600)) fluff)).
    + vm_compute. discriminate.
    + vm_compute. reflexivity.
Defined.

End TextEditFacts.

(** ** Screen::refresh and Screen::tick *)

Section ScreenFacts.
Context {R T : Type} {V : Virtuals R T}.
Variable rsize : R -> Size.
Variable contains : AABB -> xy -> bool.

Lemma Size_eqb_eq (a b : Size) : Size_eqb a b = true <-> a = b.
Proof.
  destruct a as [w1 h1], b as [w2 h2]. unfold Size_eqb. cbn [wd ht].
  rewrite andb_true_iff, !Z.eqb_eq. split; [intros [-> ->]; reflexivity |].
  intros E. injection E as -> ->. split; reflexivity.
Qed.

Lemma nth_error_replace_nth_eq {A : Type} (l : list A) :
  forall i v, (i < length l)%nat -> nth_error (replace_nth i v l) i = Some v.
Proof.
  induction l as [| a rest IH]; intros i v Hi; cbn in Hi; [lia |].
  destruct i as [| i]; cbn; [reflexivity | apply IH; lia].
Qed.

Lemma nth_error_replace_nth_neq {A : Type} (l : list A) :
  forall i j v, i <> j -> nth_error (replace_nth i v l) j = nth_error l j.
Proof.
  induction l as [| a rest IH]; intros i j v Hij; [destruct i; reflexivity |].
  destruct i as [| i], j as [| j]; cbn; try reflexivity; [lia | apply IH; lia].
Qed.

(** What a loop of [Screen::refresh] does to each child and which calls it
    makes. *)
Lemma refresh_children_spec (cond : Widget.t T -> bool) (r : R) (box : AABB)
    (l : list (Widget.t T)) :
  forall i,
    (forall j e, nth_error l j = Some e ->
       nth_error (fst (Screen.refresh_children cond r box i l)) j =
       Some (if cond e then virtual_refresh r box (Widget.set_needs_refresh false e) else e)) /\
    (forall k, In (CallRefresh k) (snd (Screen.refresh_children cond r box i l)) <->
               exists j e, k = (i + j)%nat /\ nth_error l j = Some e /\ cond e = true).
Proof.
  induction l as [| a rest IH]; intros i.
  - split.
    + intros [| j] e H; discriminate.
    + intros k. cbn. split; [contradiction |]. intros ([| j] & e & _ & H & _); discriminate.
  - cbn [Screen.refresh_children]. specialize (IH (S i)).
    destruct (Screen.refresh_children cond r box (S i) rest) as [rest' calls].
    cbn [fst snd] in IH. destruct IH as [IHw IHc]. split.
    + intros [| j] e H; cbn [nth_error] in H.
      * injection H as ->. destruct (cond e); reflexivity.
      * destruct (cond a); cbn [fst nth_error]; apply IHw; assumption.
    + intros k. split.
      * intros H.
        assert (cond a = true /\ k = i \/ In (CallRefresh k) calls) as [[Ha ->] | Hin].
        { destruct (cond a); cbn [snd] in H; [| right; assumption].
          destruct H as [E | H]; [left; split; congruence | right; assumption]. }
        -- exists 0%nat, a. repeat split; [lia | assumption].
        -- apply IHc in Hin as (j & e & -> & Hj & He).
           exists (S j), e. repeat split; [lia | assumption | assumption].
      * intros ([| j] & e & -> & Hj & He); cbn [nth_error] in Hj.
        -- injection Hj as ->. rewrite He. cbn [snd]. left. f_equal. lia.
        -- assert (In (CallRefresh (i + S j)) calls) as Hin.
           { apply IHc. exists j, e. repeat split; [lia | assumption | assumption]. }
           destruct (cond a); cbn [snd]; [right |]; assumption.
Qed.

(** C7: if the container size equals the size cached at the previous
    [Screen::refresh], exactly the children whose [needs_refresh] flag is
    set are refreshed, after the flag is cleared and whatever their
    visibility, and all other children, so also their bounding boxes, are
    left as they were; if the size changed, exactly the children that are
    visible or flagged are refreshed, and the cached size becomes the new
    size. *)
Theorem refresh_by_flag_or_resize (r : R) (s : Screen.t T) :
  (Screen.prev_size s = rsize r ->
   Screen.prev_size (fst (Screen.refresh rsize r s)) = Screen.prev_size s /\
   forall i e, nth_error (Screen.children s) i = Some e ->
     (Widget.needs_refresh e = true ->
      nth_error (Screen.children (fst (Screen.refresh rsize r s))) i =
      Some (virtual_refresh r (Box (XY 0 0) (rsize r)) (Widget.set_needs_refresh false e)) /\
      In (CallRefresh i) (snd (Screen.refresh rsize r s))) /\
     (Widget.needs_refresh e = false ->
      nth_error (Screen.children (fst (Screen.refresh rsize r s))) i = Some e /\
      ~ In (CallRefresh i) (snd (Screen.refresh rsize r s)))) /\
  (Screen.prev_size s <> rsize r ->
   Screen.prev_size (fst (Screen.refresh rsize r s)) = rsize r /\
   forall i e, nth_error (Screen.children s) i = Some e ->
     (Widget.visible e = true \/ Widget.needs_refresh e = true ->
      nth_error (Screen.children (fst (Screen.refresh rsize r s))) i =
      Some (virtual_refresh r (Box (XY 0 0) (rsize r)) (Widget.set_needs_refresh false e)) /\
      In (CallRefresh i) (snd (Screen.refresh rsize r s))) /\
     (Widget.visible e = false -> Widget.needs_refresh e = false ->
      nth_error (Screen.children (fst (Screen.refresh rsize r s))) i = Some e /\
      ~ In (CallRefresh i) (snd (Screen.refresh rsize r s)))).
Proof.
  unfold Screen.refresh. split; intros Hsize.
  - apply Size_eqb_eq in Hsize. rewrite Hsize.
    pose proof (refresh_children_spec Widget.needs_refresh r (Box (XY 0 0) (rsize r))
                  (Screen.children s) 0) as [Hw Hc].
    destruct (Screen.refresh_children _ r _ 0 (Screen.children s)) as [cs calls].
    cbn [fst snd Screen.prev_size Screen.children] in *.
    split; [reflexivity |]. intros i e He. specialize (Hw i e He). split; intros Hflag.
    + rewrite Hflag in Hw. split; [assumption |]. apply Hc. exists i, e. auto.
    + rewrite Hflag in Hw. split; [assumption |].
      intros Hin. apply Hc in Hin as (j & e' & E & Hj & Hf).
      cbn in E. subst j. congruence.
  - destruct (Size_eqb (Screen.prev_size s) (rsize r)) eqn:E;
      [apply Size_eqb_eq in E; contradiction |].
    pose proof (refresh_children_spec (fun e => Widget.visible e || Widget.needs_refresh e)
                  r (Box (XY 0 0) (rsize r)) (Screen.children s) 0) as [Hw Hc].
    destruct (Screen.refresh_children _ r _ 0 (Screen.children s)) as [cs calls].
    cbn [fst snd Screen.prev_size Screen.children] in *.
    split; [reflexivity |]. intros i e He. specialize (Hw i e He). cbn beta in Hw.
    split.
    + intros Hor.
      assert (Widget.visible e || Widget.needs_refresh e = true) as Hb
        by (apply orb_true_iff; assumption).
      rewrite Hb in Hw. split; [assumption |]. apply Hc. exists i, e. auto.
    + intros Hv Hf. rewrite Hv, Hf in Hw. split; [assumption |].
      intros Hin. apply Hc in Hin as (j & e' & Ej & Hj & Hb).
      cbn in Ej. subst j. rewrite He in Hj. injection Hj as <-.
      rewrite Hv, Hf in Hb. discriminate.
Qed.

(** The body of the loop of [Screen::tick] in closed form. *)
Lemma tick_child_spec (input : InputSystem.t) (box : AABB) (i : nat) (sel : option nat)
    (e : Widget.t T) :
  Screen.tick_child contains input box i sel e =
  (Screen.ticked contains input box e,
   if Screen.clicked_on contains input e && Widget.selectable e then Some i else sel,
   if Screen.clicked_on contains input e then [CallEventClick i] else []).
Proof.
  unfold Screen.ticked, Screen.tick_child, Screen.clicked_on.
  destruct (Widget.visible e); [| reflexivity].
  cbn [Widget.reset_properties Widget.set_hovered Widget.set_selected Widget.hovered
       Widget.bounding_box Widget.selectable andb].
  destruct (contains (Widget.bounding_box e) (pos (InputSystem.mouse input)));
    [| reflexivity].
  destruct (left (InputSystem.mouse input)); [| reflexivity].
  cbn [andb fst]. destruct (Widget.selectable e); reflexivity.
Qed.

(** What the loop of [Screen::tick] does to each child, which calls it
    makes and which child it selects. *)
Lemma tick_children_spec (input : InputSystem.t) (box : AABB) (l : list (Widget.t T)) :
  forall i sel cs sel' calls,
    Screen.tick_children contains input box i sel l = (cs, sel', calls) ->
    length cs = length l /\
    (forall j e, nth_error l j = Some e -> nth_error cs j = Some (Screen.ticked contains input box e)) /\
    (forall k, In (CallEventClick k) calls <->
               exists j e, k = (i + j)%nat /\ nth_error l j = Some e /\
                           Screen.clicked_on contains input e = true) /\
    (forall k, ~ In (CallEventInput k) calls) /\
    (sel' = sel \/
     exists j e, sel' = Some (i + j)%nat /\ nth_error l j = Some e /\
                 Screen.clicked_on contains input e = true /\ Widget.selectable e = true) /\
    ((forall j e, nth_error l j = Some e ->
                  Screen.clicked_on contains input e && Widget.selectable e = false) -> sel' = sel).
Proof.
  induction l as [| a rest IH]; intros i sel cs sel' calls H.
  - cbn in H. injection H as <- <- <-. repeat split.
    + intros [| j] e H; discriminate.
    + contradiction.
    + intros ([| j] & e & _ & H & _); discriminate.
    + intros k H. contradiction.
    + left. reflexivity.
  - cbn [Screen.tick_children] in H. rewrite tick_child_spec in H.
    destruct (Screen.tick_children contains input box (S i) _ rest)
      as [[rest' sel1] calls1] eqn:Erest.
    injection H as <- <- <-.
    destruct (IH _ _ _ _ _ Erest) as (Hlen & Hw & Hc & Hi & Hsel & Hnone). clear IH Erest.
    split; [cbn [length]; congruence |].
    split; [| split; [| split; [| split]]].
    + intros [| j] e H; cbn [nth_error] in *; [congruence | auto].
    + intros k. rewrite in_app_iff, Hc. split.
      * intros [H | (j & e & -> & Hj & He)].
        -- destruct (Screen.clicked_on contains input a) eqn:Ea; [| contradiction].
           destruct H as [E | []]. injection E as <-.
           exists 0%nat, a. repeat split; [lia | assumption].
        -- exists (S j), e. repeat split; [lia | assumption | assumption].
      * intros ([| j] & e & -> & Hj & He); cbn [nth_error] in Hj.
        -- injection Hj as ->. rewrite He. left. left. f_equal. lia.
        -- right. exists j, e. repeat split; [lia | assumption | assumption].
    + intros k H. apply in_app_or in H as [H | H]; [| exact (Hi k H)].
      destruct (Screen.clicked_on contains input a); [destruct H as [E | []]; discriminate | contradiction].
    + destruct Hsel as [-> | (j & e & -> & Hj & He & Hs)].
      * destruct (Screen.clicked_on contains input a && Widget.selectable a) eqn:Ea; [| left; reflexivity].
        apply andb_prop in Ea as [Ha1 Ha2].
        right. exists 0%nat, a. repeat split; [f_equal; lia | assumption | assumption].
      * right. exists (S j), e. repeat split; [f_equal; lia | assumption | assumption | assumption].
    + intros Hall. rewrite Hnone.
      * rewrite (Hall 0%nat a eq_refl). reflexivity.
      * intros j e Hj. apply (Hall (S j) e Hj).
Qed.

(** [Screen::tick] in terms of the loop, when the selection is a child. *)
Lemma tick_unfold (input : InputSystem.t) (sdl : Sdl) (s : Screen.t T) :
  (left (InputSystem.mouse input) = false ->
   forall i, Screen.selected_element s = Some i -> (i < length (Screen.children s))%nat) ->
  exists cs sel calls,
    Screen.tick_children contains input (Screen.bounding_box s) 0
      (if left (InputSystem.mouse input) then None else Screen.selected_element s)
      (Screen.children s) = (cs, sel, calls) /\
    match sel with
    | Some i =>
        exists e, nth_error (Screen.children s) i = Some e /\
          Screen.tick contains input sdl s =
          Some (Screen.Make (Screen.bounding_box s)
                  (replace_nth i
                     (virtual_event_input input (Screen.bounding_box s)
                        (Widget.set_selected true (Screen.ticked contains input (Screen.bounding_box s) e)))
                     cs)
                  (Some i) (Screen.prev_size s),
                fst (InputSystem.update_selection true (input, sdl)),
                snd (InputSystem.update_selection true (input, sdl)),
                calls ++ [CallEventInput i])
    | None =>
        Screen.tick contains input sdl s =
        Some (Screen.Make (Screen.bounding_box s) cs None (Screen.prev_size s),
              fst (InputSystem.update_selection false (input, sdl)),
              snd (InputSystem.update_selection false (input, sdl)),
              calls)
    end.
Proof.
  intros Hvalid. unfold Screen.tick.
  destruct (Screen.tick_children contains input (Screen.bounding_box s) 0 _ (Screen.children s))
    as [[cs sel] calls] eqn:E.
  exists cs, sel, calls. split; [reflexivity |].
  destruct (tick_children_spec _ _ _ _ _ _ _ _ E) as (Hlen & Hw & _ & _ & Hsel & _).
  destruct sel as [i |].
  - assert (exists e, nth_error (Screen.children s) i = Some e) as [e He].
    { destruct Hsel as [Hs | (j & e & Hs & Hj & _)].
      - destruct (left (InputSystem.mouse input)); [discriminate |].
        specialize (Hvalid eq_refl i (eq_sym Hs)).
        destruct (nth_error (Screen.children s) i) eqn:En; [eauto |].
        apply nth_error_None in En. lia.
      - injection Hs as ->. eauto. }
    exists e. split; [assumption |]. rewrite (Hw i e He).
    destruct (InputSystem.update_selection true (input, sdl)). reflexivity.
  - destruct (InputSystem.update_selection false (input, sdl)). reflexivity.
Qed.

(** C8: on a tick with a left click the selection of the screen is cleared
    before the loop over the children, so that the tick is the tick of the
    screen without selection, and is set again only to a child that is
    visible, under the mouse and selectable; it stays empty when there is no
    such child.  On a
    tick without a click the selection stays.  On every tick the selected
    child, if any, has its [selected] flag set after the loop over the
    children and then receives [event_input]; no other child receives
    it. *)
Theorem tick_selection (input : InputSystem.t) (sdl : Sdl) (s : Screen.t T) :
  (forall i, Screen.selected_element s = Some i -> (i < length (Screen.children s))%nat) ->
  exists s' input' sdl' calls,
    Screen.tick contains input sdl s = Some (s', input', sdl', calls) /\
    (left (InputSystem.mouse input) = true ->
     Screen.tick contains input sdl s =
     Screen.tick contains input sdl
       (Screen.Make (Screen.bounding_box s) (Screen.children s) None (Screen.prev_size s)) /\
     (forall i, Screen.selected_element s' = Some i ->
        exists e, nth_error (Screen.children s) i = Some e /\
                  Widget.visible e = true /\
                  contains (Widget.bounding_box e) (pos (InputSystem.mouse input)) = true /\
                  Widget.selectable e = true) /\
     ((forall i e, nth_error (Screen.children s) i = Some e ->
                   Screen.clicked_on contains input e && Widget.selectable e = false) ->
      Screen.selected_element s' = None)) /\
    (left (InputSystem.mouse input) = false ->
     Screen.selected_element s' = Screen.selected_element s) /\
    (forall i, Screen.selected_element s' = Some i ->
       exists e, nth_error (Screen.children s) i = Some e /\
         nth_error (Screen.children s') i =
         Some (virtual_event_input input (Screen.bounding_box s)
                 (Widget.set_selected true (Screen.ticked contains input (Screen.bounding_box s) e))) /\
         exists before, calls = before ++ [CallEventInput i] /\
                        forall k, ~ In (CallEventInput k) before) /\
    (Screen.selected_element s' = None -> forall k, ~ In (CallEventInput k) calls).
Proof.
  intros Hvalid.
  destruct (tick_unfold input sdl s (fun _ => Hvalid)) as (cs & sel & calls & E & Htick).
  destruct (tick_children_spec _ _ _ _ _ _ _ _ E) as (Hlen & Hw & _ & Hi & Hsel & Hnone).
  assert (left (InputSystem.mouse input) = true ->
          Screen.tick contains input sdl s =
          Screen.tick contains input sdl
            (Screen.Make (Screen.bounding_box s) (Screen.children s) None
               (Screen.prev_size s)) /\
          (forall i, sel = Some i ->
             exists e, nth_error (Screen.children s) i = Some e /\
                       Widget.visible e = true /\
                       contains (Widget.bounding_box e) (pos (InputSystem.mouse input)) = true /\
                       Widget.selectable e = true) /\
          ((forall i e, nth_error (Screen.children s) i = Some e ->
                        Screen.clicked_on contains input e && Widget.selectable e = false) -> sel = None))
    as Hclick.
  { intros Hl. rewrite Hl in Hsel, Hnone. split; [| split].
    - unfold Screen.tick. rewrite Hl. reflexivity.
    - intros i ->. destruct Hsel as [Hs | (j & e & Hs & Hj & He & Hse)]; [discriminate |].
      injection Hs as ->. exists e. unfold Screen.clicked_on in He.
      apply andb_prop in He as [He _]. apply andb_prop in He as [Hv Hc]. auto.
    - exact Hnone. }
  assert (left (InputSystem.mouse input) = false -> sel = Screen.selected_element s) as Hquiet.
  { intros Hl. rewrite Hl in Hnone. apply Hnone.
    intros j e _. unfold Screen.clicked_on. rewrite Hl, andb_false_r. reflexivity. }
  destruct sel as [i |].
  - destruct Htick as (e & He & Htick). rewrite Htick in Hclick |- *.
    eexists _, _, _, _. split; [reflexivity |]. cbn [Screen.selected_element Screen.children].
    split; [exact Hclick |]. split; [exact Hquiet |]. split; [| discriminate].
    intros i' Hi'. injection Hi' as <-. exists e. split; [assumption |].
    split.
    + apply nth_error_replace_nth_eq. rewrite Hlen.
      apply nth_error_Some. congruence.
    + exists calls. split; [reflexivity | exact Hi].
  - rewrite Htick in Hclick |- *.
    eexists _, _, _, _. split; [reflexivity |]. cbn [Screen.selected_element Screen.children].
    split; [exact Hclick |]. split; [exact Hquiet |]. split; [discriminate |].
    intros _. exact Hi.
Qed.

(** The child [e] as the loop of [Screen::tick] leaves it, written out. *)
Lemma ticked_unfold (input : InputSystem.t) (box : AABB) (e : Widget.t T) :
  Screen.ticked contains input box e =
  if Widget.visible e then
    let e2 := Widget.set_hovered
                (contains (Widget.bounding_box e) (pos (InputSystem.mouse input)))
                (Widget.reset_properties e) in
    if Screen.clicked_on contains input e then virtual_event_click input box e2 else e2
  else e.
Proof.
  unfold Screen.ticked, Screen.tick_child, Screen.clicked_on.
  destruct (Widget.visible e); [| reflexivity].
  cbn [Widget.reset_properties Widget.set_hovered Widget.set_selected Widget.hovered
       Widget.bounding_box Widget.selectable andb].
  destruct (contains (Widget.bounding_box e) (pos (InputSystem.mouse input)));
    [| reflexivity].
  destruct (left (InputSystem.mouse input)); reflexivity.
Qed.

(** C10: on a tick with a left click every visible child whose bounding
    box contains the mouse position receives [event_click], also a child
    that is not selectable, which does not become the selected child: the
    call is made, and the child is left as [event_click] returns it when
    called on the child with [selected] cleared and [hovered] set, followed
    by [event_input] when the child is the selected one. *)
Theorem click_reaches_every_hovered_child (input : InputSystem.t) (sdl : Sdl)
    (s : Screen.t T) :
  left (InputSystem.mouse input) = true ->
  exists s' input' sdl' calls,
    Screen.tick contains input sdl s = Some (s', input', sdl', calls) /\
    forall i e, nth_error (Screen.children s) i = Some e ->
      Widget.visible e = true ->
      contains (Widget.bounding_box e) (pos (InputSystem.mouse input)) = true ->
      In (CallEventClick i) calls /\
      (Widget.selectable e = false -> Screen.selected_element s' <> Some i) /\
      nth_error (Screen.children s') i =
      Some (let clicked :=
              virtual_event_click input (Screen.bounding_box s)
                (Widget.set_hovered true (Widget.reset_properties e)) in
            match Screen.selected_element s' with
            | Some k =>
                if (k =? i)%nat
                then virtual_event_input input (Screen.bounding_box s)
                       (Widget.set_selected true clicked)
                else clicked
            | None => clicked
            end).
Proof.
  intros Hl.
  destruct (tick_unfold input sdl s) as (cs & sel & calls & E & Htick);
    [rewrite Hl; discriminate |].
  destruct (tick_children_spec _ _ _ _ _ _ _ _ E) as (Hlen & Hw & Hc & _ & Hsel & _).
  rewrite Hl in Hsel.
  assert (forall i e, nth_error (Screen.children s) i = Some e ->
            Widget.visible e = true ->
            contains (Widget.bounding_box e) (pos (InputSystem.mouse input)) = true ->
            In (CallEventClick i) calls /\ (Widget.selectable e = false -> sel <> Some i) /\
            nth_error cs i =
            Some (virtual_event_click input (Screen.bounding_box s)
                    (Widget.set_hovered true (Widget.reset_properties e))))
    as Hall.
  { intros i e He Hv Hin.
    assert (Screen.clicked_on contains input e = true) as Hon
      by (unfold Screen.clicked_on; rewrite Hv, Hin, Hl; reflexivity).
    split; [| split].
    - apply Hc. exists i, e. auto.
    - intros Hns Hs. destruct Hsel as [-> | (j & e' & -> & Hj & _ & Hse)]; [discriminate |].
      injection Hs as Hs. cbn in Hs. subst j. congruence.
    - rewrite (Hw i e He), ticked_unfold, Hv, Hon, Hin. reflexivity. }
  destruct sel as [k |].
  - destruct Htick as (e0 & He0 & ->).
    eexists _, _, _, _. split; [reflexivity |].
    cbn [Screen.selected_element Screen.children].
    intros i e He Hv Hin. destruct (Hall i e He Hv Hin) as (H1 & H2 & H3).
    split; [apply in_or_app; left; assumption |]. split; [assumption |].
    cbv zeta. destruct (Nat.eqb_spec k i) as [-> | Hne].
    + rewrite nth_error_replace_nth_eq
        by (rewrite Hlen; apply nth_error_Some; congruence).
      rewrite He in He0. injection He0 as <-.
      rewrite ticked_unfold, Hv, Hin.
      unfold Screen.clicked_on. rewrite Hv, Hin, Hl. reflexivity.
    + rewrite nth_error_replace_nth_neq by assumption. exact H3.
  - rewrite Htick. eexists _, _, _, _. split; [reflexivity |].
    cbn [Screen.selected_element Screen.children]. exact Hall.
Qed.

End ScreenFacts.

(** ** The concrete screen *)

Section ScreenExample.

(** The screen of three children refreshed at its cached size and at a new size. *)
Lemma refresh_by_flag_or_resize_witness :
  (Screen.prev_size
     (fst (Screen.refresh (V := Widget_defaults Size unit) (fun r => r) (SZ 800 600)
             three_children)) = SZ 800 600 /\
   snd (Screen.refresh (V := Widget_defaults Size unit) (fun r => r) (SZ 800 600)
          three_children) = [CallRefresh 2]) /\
  (Screen.prev_size
     (fst (Screen.refresh (V := Widget_defaults Size unit) (fun r => r) (SZ 1024 768)
             three_children)) = SZ 1024 768 /\
   snd (Screen.refresh (V := Widget_defaults Size unit) (fun r => r) (SZ 1024 768)
          three_children) = [CallRefresh 0; CallRefresh 1; CallRefresh 2]).
Proof.
  split; (split; [| reflexivity]).
  - apply (proj1 (refresh_by_flag_or_resize (V := Widget_defaults Size unit)
                    (fun r => r) (SZ 800 600) three_children)).
    reflexivity.
  - apply (proj2 (refresh_by_flag_or_resize (V := Widget_defaults Size unit)
                    (fun r => r) (SZ 1024 768) three_children)).
    discriminate.
Defined.

(** A left click at (15, 15) on the screen of three children. *)
Lemma tick_selection_witness :
  exists s' input' sdl' calls,
    Screen.tick (V := Widget_defaults Size unit) contains_half_open
      (left_click_at (XY 15 15)) (SDL None true) three_children
    = Some (s', input', sdl', calls) /\
    forall i, Screen.selected_element s' = Some i ->
      exists e, nth_error (Screen.children three_children) i = Some e /\
                Widget.selectable e = true.
Proof.
  destruct (tick_selection (V := Widget_defaults Size unit) contains_half_open
              (left_click_at (XY 15 15)) (SDL None true) three_children)
    as (s' & input' & sdl' & calls & Htick & Hclick & _).
  - intros i H. injection H as <-. cbn. lia.
  - exists s', input', sdl', calls. split; [exact Htick |].
    intros i Hi. destruct (proj1 (proj2 (Hclick eq_refl)) i Hi) as (e & He & _ & _ & Hs).
    exists e. split; assumption.
Defined.

(** The child at position 1 is not selectable and lies under the click at
    (15, 15); its [event_click] asks for a refresh. *)
Lemma click_reaches_every_hovered_child_witness :
  exists s' input' sdl' calls,
    Screen.tick (V := click_marks) contains_half_open
      (left_click_at (XY 15 15)) (SDL None true) three_children
    = Some (s', input', sdl', calls) /\
    In (CallEventClick 1) calls /\ Screen.selected_element s' <> Some 1%nat /\
    nth_error (Screen.children s') 1 =
    Some (Widget.Make true false false true true Position.default (Box (XY 0 0) (SZ 50 50)) tt).
Proof.
  destruct (click_reaches_every_hovered_child (V := click_marks)
              contains_half_open (left_click_at (XY 15 15)) (SDL None true) three_children)
    as (s' & input' & sdl' & calls & Htick & Hall).
  - reflexivity.
  - exists s', input', sdl', calls. split; [exact Htick |].
    destruct (Hall 1%nat (plain false true false (Box (XY 0 0) (SZ 50 50))))
      as (H1 & H2 & H3); [reflexivity | reflexivity | reflexivity |].
    split; [exact H1 |]. split; [exact (H2 eq_refl) |].
    rewrite H3. vm_compute in Htick. injection Htick as <- _ _ _. reflexivity.
Defined.

End ScreenExample.

(** * Further properties *)

(** ** Position *)

Section PositionMore.
Import Int.

Lemma i16_id (z : Z) : -32768 <= z <= 32767 -> i16 z = z.
Proof.
  intros H. unfold i16, signed.
  change (2 ^ (16 - 1)) with 32768. change (2 ^ 16) with 65536.
  rewrite Z.mod_small; lia.
Qed.

Lemma saturate_i16_id (z : Z) : -32768 <= z <= 32767 -> saturate_i16 z = z.
Proof. unfold saturate_i16. lia. Qed.

(** The resolved point before the anchor, with all wrapping in one place. *)
Lemma resolved_x_flat (p : Position.t) (parent : xy) (ps os : Size) :
  x (resolved p parent ps os) =
  i32 (x parent + Position.Clamp (x (Position.base p)) (wd os) (wd ps) + Position.xadjust p).
Proof.
  unfold resolved. cbn [x]. unfold add32.
  rewrite i32_add_l, <- Z.add_assoc, i32_add_l, Z.add_assoc. reflexivity.
Qed.

Lemma resolved_y_flat (p : Position.t) (parent : xy) (ps os : Size) :
  y (resolved p parent ps os) =
  i32 (y parent + Position.Clamp (y (Position.base p)) (ht os) (ht ps) + Position.yadjust p).
Proof.
  unfold resolved. cbn [y]. unfold add32.
  rewrite i32_add_l, <- Z.add_assoc, i32_add_l, Z.add_assoc. reflexivity.
Qed.

Lemma relative_x_flat (p : Position.t) (parent : xy) (ps os : Size) :
  x (Position.relative p parent ps os) =
  i32 (x parent + Position.Clamp (x (Position.base p)) (wd os) (wd ps) + Position.xadjust p
       - (if x (Position.base p) =? Position.Centered then 0
          else fst (anchor_extent (Position.anchor p) os))).
Proof.
  rewrite relative_unfold. unfold Position.Adjust. cbn [x].
  rewrite resolved_x_flat.
  destruct (x (Position.base p) =? Position.Centered).
  - f_equal. lia.
  - unfold sub32. apply i32_sub_l.
Qed.

Lemma relative_y_flat (p : Position.t) (parent : xy) (ps os : Size) :
  y (Position.relative p parent ps os) =
  i32 (y parent + Position.Clamp (y (Position.base p)) (ht os) (ht ps) + Position.yadjust p
       - (if y (Position.base p) =? Position.Centered then 0
          else snd (anchor_extent (Position.anchor p) os))).
Proof.
  rewrite relative_unfold. unfold Position.Adjust. cbn [y].
  rewrite resolved_y_flat.
  destruct (y (Position.base p) =? Position.Centered).
  - f_equal. lia.
  - unfold sub32. apply i32_sub_l.
Qed.

Lemma xy_eq (a b : xy) : x a = x b -> y a = y b -> a = b.
Proof. destruct a, b. cbn. congruence. Qed.

(** X1: moving the container moves the object with it: resolving a position
    against a container origin displaced by (dx, dy) gives the point resolved
    against the original origin displaced by (dx, dy), in [i32] arithmetic,
    for every base, adjustment and anchor; so [relative] in a box is
    [absolute] displaced by the origin of the box. *)
Theorem relative_follows_container :
  (forall p parent ps os dx dy,
      Position.relative p (XY (x parent + dx) (y parent + dy)) ps os =
      XY (i32 (x (Position.relative p parent ps os) + dx))
         (i32 (y (Position.relative p parent ps os) + dy))) /\
  (forall p box os,
      Position.relative_box p box os =
      XY (i32 (x (Position.absolute p (size box) os) + x (origin box)))
         (i32 (y (Position.absolute p (size box) os) + y (origin box)))).
Proof.
  assert (forall p parent ps os dx dy,
      Position.relative p (XY (x parent + dx) (y parent + dy)) ps os =
      XY (i32 (x (Position.relative p parent ps os) + dx))
         (i32 (y (Position.relative p parent ps os) + dy))) as H.
  { intros. apply xy_eq; cbn [x y].
    - rewrite !relative_x_flat, i32_add_l. cbn [x]. f_equal. lia.
    - rewrite !relative_y_flat, i32_add_l. cbn [y]. f_equal. lia. }
  split; [exact H |].
  intros p [[ox oy] sz] os. unfold Position.relative_box, Position.absolute.
  cbn [origin size x y]. rewrite <- (H p (XY 0 0) sz os ox oy). reflexivity.
Qed.

(** X2: an object centred on an axis of a container that is at least as
    large lies inside the container on that axis, and its two margins differ
    by at most one pixel, the larger one being on the far side. *)
Theorem centered_object_fits (p : Position.t) (parent : xy) (ps os : Size) :
  x (Position.base p) = Position.Centered ->
  Position.xadjust p = 0 ->
  0 <= wd os <= wd ps -> in_i32 (wd ps) ->
  in_i32 (x parent) -> in_i32 (x parent + wd ps) ->
  x parent <= x (Position.relative p parent ps os) /\
  x (Position.relative p parent ps os) + wd os <= x parent + wd ps /\
  0 <= (x parent + wd ps - (x (Position.relative p parent ps os) + wd os))
       - (x (Position.relative p parent ps os) - x parent) <= 1.
Proof.
  intros Hc Ha Hsz Hw Hp Hps.
  destruct p as [[bx by_] xa ya a]. cbn [Position.base Position.xadjust x] in *. subst bx xa.
  rewrite relative_x_centered.
  unfold in_i32, INT_MIN, INT_MAX in *.
  pose proof (Z.quot_rem (wd ps - wd os) 2 ltac:(lia)) as E.
  pose proof (Z.rem_bound_pos (wd ps - wd os) 2 ltac:(lia) ltac:(lia)) as B.
  rewrite centered_coordinate by (unfold in_i32, INT_MIN, INT_MAX; lia).
  lia.
Qed.

(** A 50 wide object centred in a 205 wide container at x = 10. *)
Lemma centered_object_fits_witness :
  10 <= x (Position.relative (Position.Center Anchor.North) (XY 10 0) (SZ 205 100) (SZ 50 20)) /\
  x (Position.relative (Position.Center Anchor.North) (XY 10 0) (SZ 205 100) (SZ 50 20)) + 50
  <= 10 + 205.
Proof.
  destruct (centered_object_fits (Position.Center Anchor.North) (XY 10 0) (SZ 205 100)
              (SZ 50 20)) as (H1 & H2 & _).
  - reflexivity.
  - reflexivity.
  - cbn. lia.
  - vm_compute. split; discriminate.
  - vm_compute. split; discriminate.
  - vm_compute. split; discriminate.
  - split; [exact H1 | exact H2].
Defined.

(** X3: [hoffset] and [voffset] displace the resolved point by the offset on
    their axis and leave the other axis alone, for every base (also a centred
    or far-edge one) and every anchor, as long as the accumulated adjustment
    fits an [i16]; the two commute. *)
Theorem offsets_displace_resolved_point (p : Position.t) (offset : Z) (parent : xy)
    (ps os : Size) :
  -32768 <= offset <= 32767 ->
  (-32768 <= Position.xadjust p + offset <= 32767 ->
   Position.relative (Position.hoffset offset p) parent ps os =
   XY (i32 (x (Position.relative p parent ps os) + offset))
      (y (Position.relative p parent ps os))) /\
  (-32768 <= Position.yadjust p + offset <= 32767 ->
   Position.relative (Position.voffset offset p) parent ps os =
   XY (x (Position.relative p parent ps os))
      (i32 (y (Position.relative p parent ps os) + offset))) /\
  (forall other,
      Position.hoffset offset (Position.voffset other p) =
      Position.voffset other (Position.hoffset offset p)).
Proof.
  intros Ho. split; [| split].
  - intros Hx. apply xy_eq; cbn [x y].
    + rewrite !relative_x_flat, i32_add_l. unfold Position.hoffset.
      cbn [Position.base Position.xadjust Position.anchor].
      rewrite saturate_i16_id, i16_id by lia. f_equal. lia.
    + rewrite !relative_y_flat. reflexivity.
  - intros Hy. apply xy_eq; cbn [x y].
    + rewrite !relative_x_flat. reflexivity.
    + rewrite !relative_y_flat, i32_add_l. unfold Position.voffset.
      cbn [Position.base Position.yadjust Position.anchor].
      rewrite saturate_i16_id, i16_id by lia. f_equal. lia.
  - intros other. reflexivity.
Qed.

(** A centred position anchored north-east, offset by 7 and by -3. *)
Lemma offsets_displace_resolved_point_witness :
  Position.relative (Position.hoffset 7 (Position.Center Anchor.NorthEast))
    (XY 10 20) (SZ 200 100) (SZ 50 20) = XY 92 60 /\
  Position.relative (Position.voffset (-3) (Position.at_ (-5) 4 Anchor.NorthEast))
    (XY 10 20) (SZ 200 100) (SZ 50 20) = XY 105 1.
Proof.
  split.
  - rewrite (proj1 (offsets_displace_resolved_point (Position.Center Anchor.NorthEast) 7
                      (XY 10 20) (SZ 200 100) (SZ 50 20) ltac:(lia))) by (cbn; lia).
    reflexivity.
  - rewrite (proj1 (proj2 (offsets_displace_resolved_point
                             (Position.at_ (-5) 4 Anchor.NorthEast) (-3)
                             (XY 10 20) (SZ 200 100) (SZ 50 20) ltac:(lia)))) by (cbn; lia).
    reflexivity.
Defined.

End PositionMore.

(** ** CardGroup *)

Section CardGroupMore.
Import Int.

Lemma relative_in_i32 (p : Position.t) (parent : xy) (ps os : Size) :
  in_i32 (x (Position.relative p parent ps os)) /\
  in_i32 (y (Position.relative p parent ps os)).
Proof. rewrite relative_x_flat, relative_y_flat. split; apply i32_range. Qed.

Lemma select_scale_autoscale (g : CardGroup.t) :
  CardGroup.autoscale (Widget.impl g) = true ->
  CardGroup.select_scale g =
  CardGroup.autoscale_loop (Z.to_nat Card.NumScales) (CardGroup.scale (Widget.impl g))
    (Z.of_nat (length (CardGroup.cards (Widget.impl g)))) (available_width g) Card.Large.
Proof.
  intros H. unfold CardGroup.select_scale, available_width. rewrite H.
  destruct (CardGroup.max_width (Widget.impl g) =? 0); reflexivity.
Qed.

Lemma select_scale_fixed (g : CardGroup.t) :
  CardGroup.autoscale (Widget.impl g) = false ->
  CardGroup.select_scale g = Some (CardGroup.scale (Widget.impl g)).
Proof. intros H. unfold CardGroup.select_scale. rewrite H. reflexivity. Qed.

Lemma select_scale_some (g : CardGroup.t) : exists s, CardGroup.select_scale g = Some s.
Proof.
  destruct (CardGroup.autoscale (Widget.impl g)) eqn:E.
  - rewrite select_scale_autoscale by assumption.
    destruct (autoscale_loop_spec (CardGroup.scale (Widget.impl g))
                (Z.of_nat (length (CardGroup.cards (Widget.impl g)))) (available_width g))
      as (s & H & _). eauto.
  - rewrite select_scale_fixed by assumption. eauto.
Qed.

(** [CardGroup::refresh] on a group with cards, written out. *)
Lemma refresh_result (code_ht : Card.t -> Z) (parent_box : AABB) (g : CardGroup.t)
    (s : Card.Scale) :
  CardGroup.cards (Widget.impl g) <> [] ->
  CardGroup.select_scale g = Some s ->
  CardGroup.refresh code_ht parent_box g =
  Some (let sz := SZ (sub32 (snd (CardGroup.place_cards s 0 (CardGroup.cards (Widget.impl g))))
                        (CardGroup.CardGaps s))
                     (ht (Card.CardSize s)) in
        let box := Box (Position.relative_box (Widget.pos g) parent_box sz) sz in
        Widget.set_impl
          (CardGroup.set_cards
             (map (fun c => Card.refresh (code_ht c) box c)
                (fst (CardGroup.place_cards s 0 (CardGroup.cards (Widget.impl g)))))
             (Widget.impl (Widget.SetBoundingBox box g)))
          (Widget.SetBoundingBox box g)).
Proof.
  intros Hne Hsel. unfold CardGroup.refresh. rewrite Hsel.
  destruct (CardGroup.cards (Widget.impl g)) as [| c0 rest] eqn:E; [contradiction |].
  destruct (CardGroup.place_cards s 0 (c0 :: rest)) as [placed xf]. reflexivity.
Qed.

(** The card at position [i] of the first loop of [refresh]. *)
Lemma place_cards_nth (s : Card.Scale) (cs : list Card.t) :
  forall x0 i c',
    i32 x0 = x0 ->
    nth_error (fst (CardGroup.place_cards s x0 cs)) i = Some c' ->
    exists c, nth_error cs i = Some c /\
      c' = Widget.set_pos
             (Position.VCenter (i32 (x0 + Z.of_nat i * card_step s)) Anchor.Default)
             (Card.set_scale s c).
Proof.
  induction cs as [| c rest IH]; intros x0 i c' Hx H.
  - destruct i; discriminate.
  - cbn [CardGroup.place_cards] in H. rewrite add32_step in H.
    specialize (IH (add32 x0 (card_step s))).
    destruct (CardGroup.place_cards s _ rest) as [rest' xf]. cbn [fst] in *.
    destruct i as [| i]; cbn [nth_error] in *.
    + injection H as <-. exists c. split; [reflexivity |].
      change (Z.of_nat 0) with 0. rewrite Z.mul_0_l, Z.add_0_r, Hx. reflexivity.
    + destruct (IH i c' (i32_idem _) H) as (c0 & Hc0 & ->).
      exists c0. split; [assumption |]. unfold add32. rewrite i32_add_l.
      do 3 f_equal. lia.
Qed.

Lemma Card_refresh_box (h : Z) (box : AABB) (c : Card.t) :
  Widget.bounding_box (Card.refresh h box c) =
  Box (Position.relative_box (Widget.pos c) box (Card.CardSize (Card.scale (Widget.impl c))))
      (Card.CardSize (Card.scale (Widget.impl c))).
Proof. unfold Card.refresh. destruct (Card.scale_changed (Widget.impl c)); reflexivity. Qed.

(** A card placed at x offset [xi] in a box as high as the card. *)
Lemma card_in_row (xi gx gy W : Z) (s : Card.Scale) :
  0 <= xi -> in_i32 gx -> in_i32 gy -> in_i32 (gx + xi) ->
  Position.relative_box (Position.VCenter xi Anchor.Default)
    (Box (XY gx gy) (SZ W (ht (Card.CardSize s)))) (Card.CardSize s)
  = XY (gx + xi) gy.
Proof.
  intros Hxi Hgx Hgy Hsum. unfold Position.relative_box. apply xy_eq; cbn [origin size x y].
  - rewrite relative_x_flat.
    cbn [Position.VCenter Position.at_ Position.base Position.xadjust Position.anchor x
         Anchor.Default anchor_extent fst wd].
    unfold Position.Clamp.
    destruct (Z.eqb_spec xi Position.Centered) as [E | _];
      [unfold Position.Centered, INT_MIN in E; lia |].
    destruct (Z.ltb_spec xi 0); [lia |].
    replace (gx + xi + 0 - 0) with (gx + xi) by lia. apply i32_id. assumption.
  - rewrite relative_y_flat.
    cbn [Position.VCenter Position.at_ Position.base Position.yadjust Position.anchor y ht].
    unfold Position.Clamp. rewrite Z.eqb_refl.
    unfold sub32. rewrite Z.sub_diag.
    change (div32 (i32 0) 2) with 0.
    replace (gy + 0 + 0 - 0) with gy by lia. apply i32_id. assumption.
Qed.

(** X4: [CardGroup::refresh] of a group with cards returns, and afterwards
    the cards stand side by side in the bounding box of the group: the box is as wide as the row and as high as a
    card, and the card at position i has the size of the selected scale and
    its origin i card widths and i gaps right of the origin of the box, at
    the same height; so the first card starts at the left edge, the last ends
    at the right edge and neighbours are one gap apart. *)
Theorem cards_tile_the_group (code_ht : Card.t -> Z) (parent_box : AABB) (g : CardGroup.t) :
  CardGroup.cards (Widget.impl g) <> [] ->
  Z.of_nat (length (CardGroup.cards (Widget.impl g))) * 260 <= INT_MAX ->
  exists g' s,
    CardGroup.refresh code_ht parent_box g = Some g' /\
    CardGroup.select_scale g = Some s /\
    size (Widget.bounding_box g') =
    SZ (Z.of_nat (length (CardGroup.cards (Widget.impl g))) * card_step s - CardGroup.CardGaps s)
       (ht (Card.CardSize s)) /\
    length (CardGroup.cards (Widget.impl g')) = length (CardGroup.cards (Widget.impl g)) /\
    (in_i32 (x (origin (Widget.bounding_box g')) + wd (size (Widget.bounding_box g'))) ->
     forall i c, nth_error (CardGroup.cards (Widget.impl g')) i = Some c ->
       Widget.bounding_box c =
       Box (XY (x (origin (Widget.bounding_box g')) + Z.of_nat i * card_step s)
               (y (origin (Widget.bounding_box g'))))
           (Card.CardSize s)).
Proof.
  intros Hne Hcount.
  destruct (select_scale_some g) as [s Hsel].
  rewrite (refresh_result code_ht parent_box g s Hne Hsel).
  eexists. exists s. split; [reflexivity |]. split; [assumption |].
  set (cs := CardGroup.cards (Widget.impl g)) in *.
  set (count := Z.of_nat (length cs)) in *.
  assert (1 <= count) as Hpos.
  { subst count. destruct cs; [contradiction | cbn [length]; lia]. }
  assert (sub32 (snd (CardGroup.place_cards s 0 cs)) (CardGroup.CardGaps s)
          = count * card_step s - CardGroup.CardGaps s) as Hwd.
  { rewrite (place_cards_final s cs 0 Hne). unfold sub32. rewrite i32_sub_l.
    fold count. rewrite Z.add_0_l. apply i32_id.
    unfold in_i32, INT_MIN, INT_MAX, card_step in *.
    clearbody count. destruct s; cbn [wd Card.CardSize CardGroup.CardGaps]; lia. }
  cbv zeta in *.
  cbn [Widget.bounding_box Widget.SetBoundingBox Widget.set_impl Widget.impl size origin
       CardGroup.cards CardGroup.set_cards] in *.
  rewrite Hwd in *.
  split; [reflexivity |]. split; [rewrite length_map; apply place_cards_length |].
  intros Hfit i c Hc. cbn [wd] in Hfit.
  rewrite nth_error_map in Hc.
  destruct (nth_error (fst (CardGroup.place_cards s 0 cs)) i) as [c' |] eqn:Ec';
    [| discriminate].
  cbn [option_map] in Hc. injection Hc as <-.
  destruct (place_cards_nth s cs 0 i c' eq_refl Ec') as (c0 & Hc0 & ->).
  assert (Z.of_nat i < count) as Hi.
  { assert (nth_error cs i <> None) as Hn by congruence.
    apply nth_error_Some in Hn. subst count. lia. }
  rewrite Card_refresh_box.
  cbn [Widget.pos Widget.set_pos Widget.impl]. rewrite set_scale_scale.
  rewrite Z.add_0_l.
  assert (0 <= Z.of_nat i * card_step s <= count * card_step s - CardGroup.CardGaps s) as Hxi.
  { unfold card_step. clearbody count.
    destruct s; cbn [wd Card.CardSize CardGroup.CardGaps]; nia. }
  rewrite (i32_id (Z.of_nat i * card_step s)).
  2:{ unfold in_i32, INT_MIN, INT_MAX, card_step in *. clearbody count.
      destruct s; cbn [wd Card.CardSize CardGroup.CardGaps] in *; nia. }
  f_equal.
  match goal with
  | |- Position.relative_box _ (Box ?o _) _ = _ =>
      pose proof (relative_in_i32 (Widget.pos g) (origin parent_box) (size parent_box)
                    (SZ (count * card_step s - CardGroup.CardGaps s) (ht (Card.CardSize s))))
        as [Hgx Hgy];
      fold (Position.relative_box (Widget.pos g) parent_box
              (SZ (count * card_step s - CardGroup.CardGaps s) (ht (Card.CardSize s))))
        in Hgx, Hgy;
      destruct o as [gx gy] eqn:Eo
  end.
  cbn [x y] in *.
  apply card_in_row; try assumption; try lia.
  unfold in_i32, INT_MIN, INT_MAX in *. lia.
Qed.

(** Four cards with the configured scale [OtherPlayer] and 300 available. *)
Lemma cards_tile_the_group_witness :
  exists g' s,
    CardGroup.refresh (fun _ => 12) (Box (XY 0 0) (SZ 800 600)) (four_cards Card.OtherPlayer)
    = Some g' /\
    CardGroup.select_scale (four_cards Card.OtherPlayer) = Some s /\
    size (Widget.bounding_box g') =
    SZ (Z.of_nat 4 * card_step s - CardGroup.CardGaps s) (ht (Card.CardSize s)) /\
    length (CardGroup.cards (Widget.impl g')) = 4%nat /\
    (in_i32 (x (origin (Widget.bounding_box g')) + wd (size (Widget.bounding_box g'))) ->
     forall i c, nth_error (CardGroup.cards (Widget.impl g')) i = Some c ->
       Widget.bounding_box c =
       Box (XY (x (origin (Widget.bounding_box g')) + Z.of_nat i * card_step s)
               (y (origin (Widget.bounding_box g'))))
           (Card.CardSize s)).
Proof.
  apply (cards_tile_the_group (fun _ => 12) (Box (XY 0 0) (SZ 800 600))
           (four_cards Card.OtherPlayer)).
  - discriminate.
  - vm_compute. discriminate.
Defined.

(** X5: the selection of the scale returns, and more room never selects
    smaller cards and more cards never select larger ones: of two groups with the same configured scale and the same
    mode, the one with the larger available width and no more cards gets a
    scale that is at least as large. *)
Theorem more_room_never_shrinks (g1 g2 : CardGroup.t) :
  CardGroup.scale (Widget.impl g1) = CardGroup.scale (Widget.impl g2) ->
  CardGroup.autoscale (Widget.impl g1) = CardGroup.autoscale (Widget.impl g2) ->
  available_width g1 <= available_width g2 ->
  (1 <= length (CardGroup.cards (Widget.impl g2))
     <= length (CardGroup.cards (Widget.impl g1)))%nat ->
  Z.of_nat (length (CardGroup.cards (Widget.impl g1))) * 260 <= INT_MAX ->
  exists s1 s2,
    CardGroup.select_scale g1 = Some s1 /\
    CardGroup.select_scale g2 = Some s2 /\
    Card.Scale_index s1 <= Card.Scale_index s2.
Proof.
  intros Hscale Hmode Hroom Hcards Hbound.
  destruct (select_scale_some g1) as [s1 H1]. destruct (select_scale_some g2) as [s2 H2].
  exists s1, s2. split; [assumption |]. split; [assumption |].
  destruct (CardGroup.autoscale (Widget.impl g1)) eqn:E1.
  - rewrite select_scale_autoscale in H1, H2 by congruence.
    destruct (autoscale_loop_spec (CardGroup.scale (Widget.impl g1))
                (Z.of_nat (length (CardGroup.cards (Widget.impl g1)))) (available_width g1))
      as (t1 & L1 & _ & Hfit1 & _).
    destruct (autoscale_loop_spec (CardGroup.scale (Widget.impl g2))
                (Z.of_nat (length (CardGroup.cards (Widget.impl g2)))) (available_width g2))
      as (t2 & L2 & Hge2 & _ & Habove2).
    rewrite L1 in H1. rewrite L2 in H2. injection H1 as ->. injection H2 as ->.
    destruct (Z.le_gt_cases (Card.Scale_index s1) (Card.Scale_index s2)) as [| Hgt];
      [assumption | exfalso].
    assert (s1 <> CardGroup.scale (Widget.impl g1)) as Hne.
    { intros ->. rewrite Hscale in Hgt. lia. }
    specialize (Hfit1 Hne). specialize (Habove2 s1 ltac:(lia)).
    rewrite row_width_exact in Hfit1, Habove2 by (unfold INT_MAX in *; lia).
    unfold total_width in *.
    assert (0 <= wd (Card.CardSize s1) /\ 0 <= CardGroup.CardGaps s1) as [? ?]
      by (destruct s1; cbn; lia).
    nia.
  - rewrite select_scale_fixed in H1, H2 by congruence.
    injection H1 as <-. injection H2 as <-. rewrite Hscale. lia.
Qed.

(** Four cards at the smallest configured scale, with 300 and with 600
    available. *)
Lemma more_room_never_shrinks_witness :
  exists s1 s2,
    CardGroup.select_scale (four_cards Card.OtherPlayer) = Some s1 /\
    CardGroup.select_scale (CardGroup.set_max_width 600 (four_cards Card.OtherPlayer))
    = Some s2 /\
    Card.Scale_index s1 <= Card.Scale_index s2.
Proof.
  apply (more_room_never_shrinks (four_cards Card.OtherPlayer)
           (CardGroup.set_max_width 600 (four_cards Card.OtherPlayer))).
  - reflexivity.
  - reflexivity.
  - vm_compute. discriminate.
  - cbn. lia.
  - vm_compute. discriminate.
Defined.

End CardGroupMore.

(** ** Screen *)

Section ScreenMore.
Context {R T : Type} {V : Virtuals R T}.
Variable rsize : R -> Size.
Variable contains : AABB -> xy -> bool.

Lemma refresh_children_length (cond : Widget.t T -> bool) (r : R) (box : AABB)
    (l : list (Widget.t T)) :
  forall i, length (fst (Screen.refresh_children cond r box i l)) = length l.
Proof.
  induction l as [| a rest IH]; intros i; [reflexivity |].
  cbn [Screen.refresh_children]. specialize (IH (S i)).
  destruct (Screen.refresh_children cond r box (S i) rest) as [rest' calls].
  cbn [fst] in IH. destruct (cond a); cbn [fst length]; congruence.
Qed.

Lemma refresh_children_clean (cond : Widget.t T -> bool) (r : R) (box : AABB)
    (l : list (Widget.t T)) :
  (forall r box w, Widget.needs_refresh w = false ->
                   Widget.needs_refresh (virtual_refresh r box w) = false) ->
  (forall e, cond e = false -> Widget.needs_refresh e = false) ->
  forall i, Forall (fun e => Widget.needs_refresh e = false)
              (fst (Screen.refresh_children cond r box i l)).
Proof.
  intros Hclean Hcond. induction l as [| a rest IH]; intros i; [constructor |].
  cbn [Screen.refresh_children]. specialize (IH (S i)).
  destruct (Screen.refresh_children cond r box (S i) rest) as [rest' calls].
  cbn [fst] in IH. destruct (cond a) eqn:Ea; cbn [fst]; constructor; try assumption.
  - apply Hclean. reflexivity.
  - apply Hcond. assumption.
Qed.

Lemma refresh_children_idle (r : R) (box : AABB) (l : list (Widget.t T)) :
  Forall (fun e => Widget.needs_refresh e = false) l ->
  forall i, Screen.refresh_children Widget.needs_refresh r box i l = (l, []).
Proof.
  induction 1 as [| a rest Ha Hrest IH]; intros i; [reflexivity |].
  cbn [Screen.refresh_children]. rewrite IH, Ha. reflexivity.
Qed.

(** X6: a refresh settles the screen: when the refresh functions of the
    widgets do not raise [needs_refresh] themselves, a second
    [Screen::refresh] at the same renderer size calls no widget and leaves
    the screen as the first refresh left it. *)
Theorem refresh_settles (r : R) (s : Screen.t T) :
  (forall r box w, Widget.needs_refresh w = false ->
                   Widget.needs_refresh (virtual_refresh r box w) = false) ->
  Screen.refresh rsize r (fst (Screen.refresh rsize r s)) =
  (fst (Screen.refresh rsize r s), []).
Proof.
  intros Hclean. unfold Screen.refresh at 2 3.
  destruct (Size_eqb (Screen.prev_size s) (rsize r)) eqn:E.
  - pose proof (refresh_children_clean Widget.needs_refresh r (Box (XY 0 0) (rsize r))
                  (Screen.children s) Hclean (fun e H => H) 0) as Hall.
    destruct (Screen.refresh_children _ r _ 0 (Screen.children s)) as [cs calls].
    cbn [fst] in *. unfold Screen.refresh. cbn [Screen.prev_size Screen.children
      Screen.selected_element]. rewrite E, (refresh_children_idle r _ cs Hall). reflexivity.
  - pose proof (refresh_children_clean (fun e => Widget.visible e || Widget.needs_refresh e)
                  r (Box (XY 0 0) (rsize r)) (Screen.children s) Hclean) as Hall.
    specialize (Hall (fun e H => proj2 (proj1 (orb_false_iff _ _) H)) 0%nat).
    destruct (Screen.refresh_children _ r _ 0 (Screen.children s)) as [cs calls].
    cbn [fst] in *. unfold Screen.refresh. cbn [Screen.prev_size Screen.children
      Screen.selected_element].
    assert (Size_eqb (rsize r) (rsize r) = true) as -> by (apply Size_eqb_eq; reflexivity).
    rewrite (refresh_children_idle r _ cs Hall). reflexivity.
Qed.

Lemma replace_nth_length {A : Type} (l : list A) :
  forall i v, length (replace_nth i v l) = length l.
Proof.
  induction l as [| a rest IH]; intros i v; [destruct i; reflexivity |].
  destruct i; cbn; [reflexivity | rewrite IH; reflexivity].
Qed.

(** X7: the selection stays a child of the screen: [Screen::Create],
    [Screen::refresh] and [Screen::tick] keep [selected_element] pointing to
    a child, keep the children in place and at their number (one more after
    [Create]), and [tick] does not fail. *)
Theorem selection_stays_valid (s : Screen.t T) :
  selection_valid s ->
  (forall w, selection_valid (Create w s) /\
             forall i e, nth_error (Screen.children s) i = Some e ->
                         nth_error (Screen.children (Create w s)) i = Some e) /\
  (forall r, selection_valid (fst (Screen.refresh rsize r s)) /\
             length (Screen.children (fst (Screen.refresh rsize r s)))
             = length (Screen.children s)) /\
  (forall input sdl,
      exists s' input' sdl' calls,
        Screen.tick contains input sdl s = Some (s', input', sdl', calls) /\
        selection_valid s' /\
        length (Screen.children s') = length (Screen.children s)).
Proof.
  intros Hvalid. split; [| split].
  - intros w. split.
    + intros i Hi. cbn [Create Screen.children Screen.selected_element] in *.
      rewrite length_app. specialize (Hvalid i Hi). lia.
    + intros i e He. cbn [Create Screen.children].
      rewrite nth_error_app1; [assumption |].
      apply nth_error_Some. congruence.
  - intros r. unfold Screen.refresh.
    destruct (Size_eqb (Screen.prev_size s) (rsize r)).
    + pose proof (refresh_children_length Widget.needs_refresh r (Box (XY 0 0) (rsize r))
                    (Screen.children s) 0) as Hlen.
      destruct (Screen.refresh_children _ r _ 0 (Screen.children s)) as [cs calls].
      cbn [fst Screen.children] in *. split; [| assumption].
      intros i Hi. cbn [Screen.children Screen.selected_element] in *.
      rewrite Hlen. apply Hvalid. assumption.
    + pose proof (refresh_children_length (fun e => Widget.visible e || Widget.needs_refresh e)
                    r (Box (XY 0 0) (rsize r)) (Screen.children s) 0) as Hlen.
      destruct (Screen.refresh_children _ r _ 0 (Screen.children s)) as [cs calls].
      cbn [fst Screen.children] in *. split; [| assumption].
      intros i Hi. cbn [Screen.children Screen.selected_element] in *.
      rewrite Hlen. apply Hvalid. assumption.
  - intros input sdl.
    destruct (tick_unfold contains input sdl s (fun _ => Hvalid))
      as (cs & sel & calls & E & Htick).
    destruct (tick_children_spec _ _ _ _ _ _ _ _ _ E) as (Hlen & _).
    destruct sel as [i |].
    + destruct Htick as (e & He & ->). eexists _, _, _, _. split; [reflexivity |].
      cbn [Screen.children Screen.selected_element]. rewrite replace_nth_length.
      split; [| assumption].
      intros i' Hi'. cbn [Screen.children Screen.selected_element] in *.
      injection Hi' as <-. rewrite replace_nth_length, Hlen.
      apply nth_error_Some. congruence.
    + rewrite Htick. eexists _, _, _, _. split; [reflexivity |].
      cbn [Screen.children]. split; [| assumption].
      intros i' Hi'. discriminate.
Qed.

Lemma last_of_cons {A : Type} (a : A) (l : list A) :
  last_of (a :: l) = match last_of l with Some k => Some k | None => Some a end.
Proof.
  unfold last_of. cbn [rev]. destruct (rev l); reflexivity.
Qed.

(** The calls and the selection of the loop of [Screen::tick] in closed
    form. *)
Lemma tick_children_closed (input : InputSystem.t) (box : AABB) (l : list (Widget.t T)) :
  forall i sel,
    snd (Screen.tick_children contains input box i sel l) =
    map CallEventClick (positions (Screen.clicked_on contains input) i l) /\
    snd (fst (Screen.tick_children contains input box i sel l)) =
    match last_of (positions (fun e => Screen.clicked_on contains input e && Widget.selectable e)
                     i l) with
    | Some k => Some k
    | None => sel
    end.
Proof.
  induction l as [| a rest IH]; intros i sel; [split; reflexivity |].
  cbn [Screen.tick_children positions]. rewrite tick_child_spec.
  specialize (IH (S i) (if Screen.clicked_on contains input a && Widget.selectable a
                        then Some i else sel)).
  destruct (Screen.tick_children contains input box (S i) _ rest) as [[rest' sel1] calls1].
  cbn [fst snd] in *. destruct IH as [-> ->]. split.
  - destruct (Screen.clicked_on contains input a); reflexivity.
  - destruct (Screen.clicked_on contains input a && Widget.selectable a).
    + rewrite last_of_cons. destruct (last_of _); reflexivity.
    + reflexivity.
Qed.

(** X8: the calls of a tick and what they leave.  The calls are, in this
    order, one [event_click] for each child that is visible and under the
    mouse during a left click, in the order of the children, and then
    [event_input] for the selected child, if any; so no child receives
    [event_click] without a left click, when it is hidden or when the mouse
    is outside its box, and none receives it twice.  Every child is left as
    these calls return it: a hidden child as it was; a visible child with
    [selected] cleared and [hovered] set to whether its box contains the
    mouse, passed through [event_click] when it was clicked on; and the
    selected child then with [selected] set and passed through
    [event_input]. *)
Theorem tick_calls (input : InputSystem.t) (sdl : Sdl) (s : Screen.t T) :
  selection_valid s ->
  exists s' input' sdl' calls,
    Screen.tick contains input sdl s = Some (s', input', sdl', calls) /\
    calls =
    map CallEventClick (positions (Screen.clicked_on contains input) 0 (Screen.children s))
    ++ match Screen.selected_element s' with
       | Some i => [CallEventInput i]
       | None => []
       end /\
    length (Screen.children s') = length (Screen.children s) /\
    forall i e, nth_error (Screen.children s) i = Some e ->
      nth_error (Screen.children s') i =
      Some (let e1 :=
              if Widget.visible e then
                let e2 := Widget.set_hovered
                            (contains (Widget.bounding_box e) (pos (InputSystem.mouse input)))
                            (Widget.reset_properties e) in
                if Screen.clicked_on contains input e
                then virtual_event_click input (Screen.bounding_box s) e2
                else e2
              else e in
            match Screen.selected_element s' with
            | Some k =>
                if (k =? i)%nat
                then virtual_event_input input (Screen.bounding_box s)
                       (Widget.set_selected true e1)
                else e1
            | None => e1
            end).
Proof.
  intros Hvalid.
  destruct (tick_unfold contains input sdl s (fun _ => Hvalid))
    as (cs & sel & calls & E & Htick).
  pose proof (proj1 (tick_children_closed input (Screen.bounding_box s) (Screen.children s) 0
                (if left (InputSystem.mouse input) then None else Screen.selected_element s)))
    as Hcalls.
  rewrite E in Hcalls. cbn [snd] in Hcalls. subst calls.
  destruct (tick_children_spec _ _ _ _ _ _ _ _ _ E) as (Hlen & Hw & _).
  destruct sel as [k |].
  - destruct Htick as (e0 & He0 & ->). eexists _, _, _, _. split; [reflexivity |].
    cbn [Screen.selected_element Screen.children].
    split; [reflexivity |]. split; [rewrite replace_nth_length; assumption |].
    intros i e He. cbv zeta. rewrite <- (ticked_unfold contains).
    destruct (Nat.eqb_spec k i) as [-> | Hne].
    + rewrite nth_error_replace_nth_eq
        by (rewrite Hlen; apply nth_error_Some; congruence).
      congruence.
    + rewrite nth_error_replace_nth_neq by assumption. apply Hw. assumption.
  - rewrite Htick. eexists _, _, _, _. split; [reflexivity |].
    cbn [Screen.selected_element Screen.children]. rewrite app_nil_r.
    split; [reflexivity |]. split; [assumption |].
    intros i e He. cbv zeta. rewrite <- (ticked_unfold contains). apply Hw. assumption.
Qed.

(** X9: when several selectable children lie under a left click, the last
    of them in the order of the children becomes the selection; when none
    does, a click clears the selection and a tick without a click keeps
    it. *)
Theorem last_selectable_hit_wins (input : InputSystem.t) (sdl : Sdl) (s : Screen.t T) :
  selection_valid s ->
  exists s' input' sdl' calls,
    Screen.tick contains input sdl s = Some (s', input', sdl', calls) /\
    Screen.selected_element s' =
    match last_of (positions (fun e => Screen.clicked_on contains input e
                                       && Widget.selectable e) 0 (Screen.children s)) with
    | Some k => Some k
    | None => if left (InputSystem.mouse input) then None else Screen.selected_element s
    end.
Proof.
  intros Hvalid.
  destruct (tick_unfold contains input sdl s (fun _ => Hvalid))
    as (cs & sel & calls & E & Htick).
  pose proof (proj2 (tick_children_closed input (Screen.bounding_box s) (Screen.children s) 0
                (if left (InputSystem.mouse input) then None else Screen.selected_element s)))
    as Hsel.
  rewrite E in Hsel. cbn [fst snd] in Hsel. rewrite <- Hsel.
  destruct sel as [i |].
  - destruct Htick as (e & He & ->). eexists _, _, _, _. split; reflexivity.
  - rewrite Htick. eexists _, _, _, _. split; reflexivity.
Qed.

Lemma update_selection_spec (b : bool) (input : InputSystem.t) (sdl : Sdl) :
  InputSystem.was_selected input = text_input_active sdl ->
  InputSystem.update_selection b (input, sdl) =
  (InputSystem.Make b (InputSystem.text_input input) (InputSystem.kb_events input)
     (InputSystem.mouse input) (InputSystem.quit input),
   SDL (clipboard sdl) b).
Proof.
  intros H. unfold InputSystem.update_selection.
  destruct input as [ws ti kb m q], sdl as [cb act]. cbn in *. subst act.
  destruct ws, b; reflexivity.
Qed.

(** X10: a tick keeps the text input of the system in step with the
    selection: if [was_selected] agreed with the state of the text input
    before, then after the tick text input is active exactly when a child is
    selected, [was_selected] records it, and the tick has changed nothing
    else of the input or of the clipboard. *)
Theorem text_input_follows_selection (input : InputSystem.t) (sdl : Sdl) (s : Screen.t T) :
  selection_valid s ->
  InputSystem.was_selected input = text_input_active sdl ->
  exists s' calls,
    Screen.tick contains input sdl s =
    Some (s',
          InputSystem.Make
            (match Screen.selected_element s' with Some _ => true | None => false end)
            (InputSystem.text_input input) (InputSystem.kb_events input)
            (InputSystem.mouse input) (InputSystem.quit input),
          SDL (clipboard sdl)
            (match Screen.selected_element s' with Some _ => true | None => false end),
          calls).
Proof.
  intros Hvalid Hsync.
  destruct (tick_unfold contains input sdl s (fun _ => Hvalid))
    as (cs & sel & calls & E & Htick).
  destruct sel as [i |].
  - destruct Htick as (e & He & ->). rewrite update_selection_spec by assumption.
    cbn [fst snd].
    match goal with
    | |- exists s' calls', Some (?a, _, _, ?c) = _ => exists a, c
    end.
    reflexivity.
  - rewrite Htick. rewrite update_selection_spec by assumption.
    cbn [fst snd].
    match goal with
    | |- exists s' calls', Some (?a, _, _, ?c) = _ => exists a, c
    end.
    reflexivity.
Qed.

(** X11: what a tick leaves of the children that are not selected: a hidden
    child is left exactly as it was, stale flags included; a visible child
    has [selected] cleared and [hovered] set to whether its box contains the
    mouse, when [event_click] does not change these two flags. *)
Theorem tick_flags (input : InputSystem.t) (sdl : Sdl) (s : Screen.t T) :
  selection_valid s ->
  (forall input box w,
      Widget.hovered (virtual_event_click input box w) = Widget.hovered w /\
      Widget.selected (virtual_event_click input box w) = Widget.selected w) ->
  exists s' input' sdl' calls,
    Screen.tick contains input sdl s = Some (s', input', sdl', calls) /\
    forall i e, nth_error (Screen.children s) i = Some e ->
      Screen.selected_element s' <> Some i ->
      exists e', nth_error (Screen.children s') i = Some e' /\
        (Widget.visible e = false -> e' = e) /\
        (Widget.visible e = true ->
         Widget.selected e' = false /\
         Widget.hovered e' = contains (Widget.bounding_box e) (pos (InputSystem.mouse input))).
Proof.
  intros Hvalid Hflags.
  destruct (tick_unfold contains input sdl s (fun _ => Hvalid))
    as (cs & sel & calls & E & Htick).
  destruct (tick_children_spec _ _ _ _ _ _ _ _ _ E) as (_ & Hw & _).
  assert (forall e,
            (Widget.visible e = false -> Screen.ticked contains input (Screen.bounding_box s) e = e) /\
            (Widget.visible e = true ->
             Widget.selected (Screen.ticked contains input (Screen.bounding_box s) e) = false /\
             Widget.hovered (Screen.ticked contains input (Screen.bounding_box s) e)
             = contains (Widget.bounding_box e) (pos (InputSystem.mouse input)))) as Hticked.
  { intros e. unfold Screen.ticked, Screen.tick_child. split; intros Hv; rewrite Hv.
    - reflexivity.
    - set (e2 := Widget.set_hovered _ (Widget.reset_properties e)).
      assert (Widget.selected e2 = false) as Hs2 by reflexivity.
      assert (Widget.hovered e2
              = contains (Widget.bounding_box e) (pos (InputSystem.mouse input))) as Hh2
        by reflexivity.
      destruct (Hflags input (Screen.bounding_box s) e2) as [H1 H2].
      destruct (Widget.hovered e2 && left (InputSystem.mouse input)); cbn [fst].
      + rewrite H1, H2. split; assumption.
      + split; assumption. }
  destruct sel as [k |].
  - destruct Htick as (e0 & He0 & ->). eexists _, _, _, _. split; [reflexivity |].
    cbn [Screen.children Screen.selected_element].
    intros i e He Hi. exists (Screen.ticked contains input (Screen.bounding_box s) e).
    split; [| apply Hticked].
    rewrite nth_error_replace_nth_neq by congruence. apply Hw. assumption.
  - rewrite Htick. eexists _, _, _, _. split; [reflexivity |].
    cbn [Screen.children Screen.selected_element].
    intros i e He Hi. exists (Screen.ticked contains input (Screen.bounding_box s) e).
    split; [apply Hw; assumption | apply Hticked].
Qed.

End ScreenMore.

(** ** The concrete screen, further *)

Section ScreenMoreExample.

(** The screen of three children refreshed twice at a new size. *)
Lemma refresh_settles_witness :
  Screen.refresh (V := Widget_defaults Size unit) (fun r => r) (SZ 1024 768)
    (fst (Screen.refresh (V := Widget_defaults Size unit) (fun r => r) (SZ 1024 768)
            three_children)) =
  (fst (Screen.refresh (V := Widget_defaults Size unit) (fun r => r) (SZ 1024 768)
          three_children), []).
Proof.
  apply (refresh_settles (V := Widget_defaults Size unit) (fun r => r) (SZ 1024 768)
           three_children).
  intros r box w H. exact H.
Defined.

Lemma three_children_valid : selection_valid three_children.
Proof. intros i H. injection H as <-. cbn. lia. Qed.

(** The screen of three children, whose selection is its third child. *)
Lemma selection_stays_valid_witness :
  selection_valid (Create (plain true true false (Box (XY 0 0) (SZ 5 5))) three_children) /\
  exists s' input' sdl' calls,
    Screen.tick (V := Widget_defaults Size unit) contains_half_open
      (left_click_at (XY 15 15)) (SDL None true) three_children
    = Some (s', input', sdl', calls) /\ selection_valid s'.
Proof.
  destruct (selection_stays_valid (V := Widget_defaults Size unit) (fun r => r)
              contains_half_open three_children three_children_valid) as (H1 & _ & H3).
  split; [apply H1 |].
  destruct (H3 (left_click_at (XY 15 15)) (SDL None true))
    as (s' & input' & sdl' & calls & Ht & Hv & _).
  exists s', input', sdl', calls. split; assumption.
Defined.

(** A left click at (15, 15) on the screen of three children, whose
    [event_click] asks for a refresh. *)
Lemma tick_calls_witness :
  exists s' input' sdl' calls,
    Screen.tick (V := click_marks) contains_half_open
      (left_click_at (XY 15 15)) (SDL None true) three_children
    = Some (s', input', sdl', calls) /\
    calls = [CallEventClick 0; CallEventClick 1; CallEventInput 0] /\
    Screen.children s' =
    [Widget.Make true true true true true Position.default (Box (XY 10 10) (SZ 100 20)) tt;
     Widget.Make true false false true true Position.default (Box (XY 0 0) (SZ 50 50)) tt;
     plain true false true (Box (XY 200 200) (SZ 10 10))].
Proof.
  destruct (tick_calls (V := click_marks) contains_half_open
              (left_click_at (XY 15 15)) (SDL None true) three_children three_children_valid)
    as (s' & input' & sdl' & calls & Ht & Hc & _ & _).
  exists s', input', sdl', calls. split; [exact Ht |].
  vm_compute in Ht. injection Ht as <- _ _ _. split; [exact Hc | reflexivity].
Defined.

(** A left click at (15, 15) on the screen of three children. *)
Lemma last_selectable_hit_wins_witness :
  exists s' input' sdl' calls,
    Screen.tick (V := Widget_defaults Size unit) contains_half_open
      (left_click_at (XY 15 15)) (SDL None true) three_children
    = Some (s', input', sdl', calls) /\
    Screen.selected_element s' = Some 0%nat.
Proof.
  destruct (last_selectable_hit_wins (V := Widget_defaults Size unit) contains_half_open
              (left_click_at (XY 15 15)) (SDL None true) three_children three_children_valid)
    as (s' & input' & sdl' & calls & Ht & Hs).
  exists s', input', sdl', calls. split; [exact Ht | exact Hs].
Defined.

(** A left click away from every child, while text input is active. *)
Lemma text_input_follows_selection_witness :
  exists s' calls,
    Screen.tick (V := Widget_defaults Size unit) contains_half_open
      (left_click_at (XY 500 500)) (SDL None true) three_children
    = Some (s', InputSystem.Make false [] [] (Mouse (XY 500 500) true false false) false,
            SDL None false, calls).
Proof.
  destruct (text_input_follows_selection (V := Widget_defaults Size unit) contains_half_open
              (left_click_at (XY 500 500)) (SDL None true) three_children three_children_valid)
    as (s' & calls & Ht).
  - reflexivity.
  - exists s', calls.
    assert (Screen.selected_element s' = None) as Hs.
    { vm_compute in Ht. injection Ht as <- _. reflexivity. }
    rewrite Hs in Ht. exact Ht.
Defined.

(** A left click at (15, 15) on the screen of three children. *)
Lemma tick_flags_witness :
  exists s' input' sdl' calls,
    Screen.tick (V := Widget_defaults Size unit) contains_half_open
      (left_click_at (XY 15 15)) (SDL None true) three_children
    = Some (s', input', sdl', calls) /\
    nth_error (Screen.children s') 2 =
    Some (plain true false true (Box (XY 200 200) (SZ 10 10))).
Proof.
  destruct (tick_flags (V := Widget_defaults Size unit) contains_half_open
              (left_click_at (XY 15 15)) (SDL None true) three_children three_children_valid)
    as (s' & input' & sdl' & calls & Ht & Hall).
  - intros input box w. split; reflexivity.
  - exists s', input', sdl', calls. split; [exact Ht |].
    destruct (Hall 2%nat (plain true false true (Box (XY 200 200) (SZ 10 10))) eq_refl)
      as (e' & He' & Hhidden & _).
    + vm_compute in Ht. injection Ht as <- _ _ _. discriminate.
    + rewrite He'. f_equal. apply Hhidden. reflexivity.
Defined.

End ScreenMoreExample.

(** ** InputSystem::process_events *)

Section PollFacts.

Lemma process_event_fold (events : list SDL_Event) :
  forall input n,
    fold_left process_event events (input, n) =
    (InputSystem.Make (InputSystem.was_selected input)
       (InputSystem.text_input input ++ texts_of events)
       (InputSystem.kb_events input ++ keys_of events)
       (Mouse (pos (InputSystem.mouse input))
          (left (InputSystem.mouse input) || pressed SDL_BUTTON_LEFT events)
          (right (InputSystem.mouse input) || pressed SDL_BUTTON_RIGHT events)
          (middle (InputSystem.mouse input) || pressed SDL_BUTTON_MIDDLE events))
       (InputSystem.quit input || quit_seen events),
     (n + F12_presses events)%nat).
Proof.
  unfold texts_of, keys_of, pressed, quit_seen, F12_presses,
    SDL_BUTTON_LEFT, SDL_BUTTON_RIGHT, SDL_BUTTON_MIDDLE.
  induction events as [| ev rest IH]; intros input n.
  - destruct input as [ws ti kb [p l r m] q]. cbn.
    rewrite !app_nil_r, !orb_false_r, Nat.add_0_r. reflexivity.
  - cbn [fold_left]. destruct ev as [| b | k km | txt |]; cbn [process_event]; rewrite IH;
      destruct input as [ws ti kb [p l r m] q];
      cbn [InputSystem.was_selected InputSystem.text_input InputSystem.kb_events
           InputSystem.mouse InputSystem.quit flat_map existsb filter app orb
           pos left right middle].
    + rewrite !orb_true_r. reflexivity.
    + unfold SDL_BUTTON_LEFT, SDL_BUTTON_RIGHT, SDL_BUTTON_MIDDLE.
      destruct (Z.eqb_spec b 1) as [E1 | E1]; destruct (Z.eqb_spec b 3) as [E3 | E3];
        destruct (Z.eqb_spec b 2) as [E2 | E2]; try lia;
        cbn [pos left right middle orb];
        repeat (rewrite orb_true_r || rewrite orb_true_l || rewrite orb_false_l);
        reflexivity.
    + rewrite <- app_assoc. cbn [app].
      destruct (is_F12 k); cbn [length]; apply f_equal2; try reflexivity; lia.
    + rewrite <- app_assoc. reflexivity.
    + reflexivity.
Qed.

Lemma process_events_closed (mouse_pos : xy) (events : list SDL_Event)
    (input : InputSystem.t) :
  process_events mouse_pos events input =
  (InputSystem.Make (InputSystem.was_selected input) (texts_of events) (keys_of events)
     (Mouse mouse_pos (pressed SDL_BUTTON_LEFT events) (pressed SDL_BUTTON_RIGHT events)
        (pressed SDL_BUTTON_MIDDLE events))
     (InputSystem.quit input || quit_seen events),
   F12_presses events).
Proof.
  unfold process_events. rewrite process_event_fold. reflexivity.
Qed.

(** X12: the snapshot [process_events] takes holds this poll only: the key
    presses in their order of arrival, the typed texts joined in that order,
    the sampled mouse position and, per button, whether it was pressed;
    nothing of the keys, text or buttons of the previous tick is carried
    over; [was_selected] is kept; the shaders are reloaded once per press of
    F12. *)
Theorem poll_snapshot (mouse_pos : xy) (events : list SDL_Event) (input : InputSystem.t) :
  process_events mouse_pos events input =
  (InputSystem.Make (InputSystem.was_selected input) (texts_of events) (keys_of events)
     (Mouse mouse_pos (pressed SDL_BUTTON_LEFT events) (pressed SDL_BUTTON_RIGHT events)
        (pressed SDL_BUTTON_MIDDLE events))
     (InputSystem.quit input || quit_seen events),
   F12_presses events).
Proof. apply process_events_closed. Qed.

Lemma pressed_app (b : Z) (l1 l2 : list SDL_Event) :
  pressed b (l1 ++ l2) = pressed b l1 || pressed b l2.
Proof. unfold pressed. apply existsb_app. Qed.

Lemma quit_seen_app (l1 l2 : list SDL_Event) :
  quit_seen (l1 ++ l2) = quit_seen l1 || quit_seen l2.
Proof. unfold quit_seen. apply existsb_app. Qed.

Lemma texts_of_app (l1 l2 : list SDL_Event) : texts_of (l1 ++ l2) = texts_of l1 ++ texts_of l2.
Proof. unfold texts_of. apply flat_map_app. Qed.

Lemma keys_of_app (l1 l2 : list SDL_Event) : keys_of (l1 ++ l2) = keys_of l1 ++ keys_of l2.
Proof. unfold keys_of. apply flat_map_app. Qed.

Lemma F12_presses_app (l1 l2 : list SDL_Event) :
  F12_presses (l1 ++ l2) = (F12_presses l1 + F12_presses l2)%nat.
Proof. unfold F12_presses. rewrite filter_app, length_app. reflexivity. Qed.

(** X13: clicks are debounced: a further press of a mouse button that was
    already pressed earlier in the same poll, wherever it arrives, changes
    nothing of the snapshot. *)
Theorem repeated_press_is_one_press (mouse_pos : xy) (b : Z)
    (before between after : list SDL_Event) (input : InputSystem.t) :
  process_events mouse_pos
    (before ++ SDL_EVENT_MOUSE_BUTTON_DOWN b :: between
            ++ SDL_EVENT_MOUSE_BUTTON_DOWN b :: after) input =
  process_events mouse_pos
    (before ++ SDL_EVENT_MOUSE_BUTTON_DOWN b :: between ++ after) input.
Proof.
  rewrite !process_events_closed.
  change (SDL_EVENT_MOUSE_BUTTON_DOWN b :: between ++ SDL_EVENT_MOUSE_BUTTON_DOWN b :: after)
    with ([SDL_EVENT_MOUSE_BUTTON_DOWN b] ++ between ++ [SDL_EVENT_MOUSE_BUTTON_DOWN b] ++ after).
  change (SDL_EVENT_MOUSE_BUTTON_DOWN b :: between ++ after)
    with ([SDL_EVENT_MOUSE_BUTTON_DOWN b] ++ between ++ after).
  rewrite !texts_of_app, !keys_of_app, !pressed_app, !quit_seen_app, !F12_presses_app.
  change (texts_of [SDL_EVENT_MOUSE_BUTTON_DOWN b]) with (@nil Z).
  change (keys_of [SDL_EVENT_MOUSE_BUTTON_DOWN b]) with (@nil Event).
  change (quit_seen [SDL_EVENT_MOUSE_BUTTON_DOWN b]) with false.
  change (F12_presses [SDL_EVENT_MOUSE_BUTTON_DOWN b]) with 0%nat.
  cbn [app Nat.add orb].
  assert (forall x p1 p2 p3 : bool,
            p1 || (x || (p2 || (x || p3))) = p1 || (x || (p2 || p3))) as Hb
    by (intros [] [] [] []; reflexivity).
  rewrite !Hb. reflexivity.
Qed.

Lemma process_polls_quit (polls : list (xy * list SDL_Event)) :
  forall input,
    InputSystem.quit (process_polls polls input) =
    InputSystem.quit input || existsb (fun poll => quit_seen (snd poll)) polls.
Proof.
  induction polls as [| [p events] rest IH]; intros input; cbn [process_polls existsb snd].
  - rewrite orb_false_r. reflexivity.
  - rewrite IH, process_events_closed. cbn [fst InputSystem.quit].
    rewrite orb_assoc. reflexivity.
Qed.

(** X14: the request to quit is never lost: once [quit] is set, no later
    poll clears it, whatever events arrive; over a run of polls [quit] holds
    at the end exactly when it held at the start or some poll saw a quit
    event. *)
Theorem quit_is_sticky (polls : list (xy * list SDL_Event)) (input : InputSystem.t) :
  (InputSystem.quit input = true -> InputSystem.quit (process_polls polls input) = true) /\
  InputSystem.quit (process_polls polls input) =
  InputSystem.quit input || existsb (fun poll => quit_seen (snd poll)) polls.
Proof.
  split; [intros H |]; rewrite process_polls_quit; [rewrite H |]; reflexivity.
Qed.

(** Two further polls after a quit was seen. *)
Lemma quit_is_sticky_witness :
  InputSystem.quit
    (process_polls [(XY 0 0, [SDL_EVENT_KEY_DOWN SDLK_LEFT 0]); (XY 5 5, [])]
       (fst (process_events (XY 1 1) [SDL_EVENT_QUIT] (left_click_at (XY 0 0))))) = true.
Proof.
  apply (proj1 (quit_is_sticky
                  [(XY 0 0, [SDL_EVENT_KEY_DOWN SDLK_LEFT 0]); (XY 5 5, [])]
                  (fst (process_events (XY 1 1) [SDL_EVENT_QUIT] (left_click_at (XY 0 0)))))).
  reflexivity.
Defined.

End PollFacts.

(** ** TextEdit, further *)

Section TextEditMore.
Import Int.

Ltac te_simpl :=
  cbn [TextEdit.cursor TextEdit.text TextEdit.set_cursor TextEdit.set_text
       TextEdit.set_dirty TextEdit.set_no_blink_ticks TextEdit.clusters TextEdit.dirty
       TextEdit.label TextEdit.hide_text TextEdit.no_blink_ticks TextEdit.cursor_offs
       Widget.impl Widget.set_impl] in *.

(** The loop of [event_click] never leaves with the index before [N] when
    the last cluster has an index of at least [N - 1]. *)
Lemma click_loop_skips_last (interp : Z -> Z -> Z -> Z -> Z) (N x0 mx : Z) :
  N <= INT_MAX ->
  forall fuel cur d it prev r,
    0 <= cur <= N ->
    match last_of it with Some c => N - 1 <= index c | None => N <= cur end ->
    TextEdit.click_loop interp N x0 mx fuel cur d it prev = Some r ->
    r <= N - 2 \/ r = N.
Proof.
  intros HN. induction fuel as [| fuel IH]; intros cur d it prev r Hcur Hlast H;
    [discriminate |].
  cbn [TextEdit.click_loop] in H.
  destruct (Z.ltb_spec cur N) as [Hlt | Hge].
  2:{ injection H as <-. right. lia. }
  destruct it as [| c rest].
  { cbn in Hlast. lia. }
  destruct (_ <? _) in H.
  { injection H as <-. left.
    rewrite sub32_exact by (unfold in_i32, INT_MIN, INT_MAX in *; lia). lia. }
  assert (add32 cur 1 = cur + 1) as E
    by (apply add32_exact; unfold in_i32, INT_MIN, INT_MAX in *; lia).
  rewrite E in H. apply IH in H; [assumption | lia |].
  rewrite last_of_cons in Hlast.
  destruct (Z.ltb_spec (index c) (cur + 1)) as [Hadv | Hstay].
  - destruct (last_of rest) as [cl |]; [assumption | lia].
  - rewrite last_of_cons. destruct (last_of rest); assumption.
Qed.

(** X15: a click on a text of two or more characters whose last cluster
    starts at the last character (as in every text that does not end in a
    ligature) is handled, and never puts the cursor right before the last
    character: the cursor ends at an index of at most N - 2 or at N. *)
Theorem click_never_lands_before_last_character (input : InputSystem.t) (parent_box : AABB)
    (w : TextEdit.t) :
  (2 <= length (TextEdit.text (Widget.impl w)))%nat ->
  Z.of_nat (length (TextEdit.text (Widget.impl w))) <= INT_MAX ->
  match last_of (TextEdit.clusters (Widget.impl w)) with
  | Some c => Z.of_nat (length (TextEdit.text (Widget.impl w))) - 1 <= index c
  | None => True
  end ->
  exists w',
    TextEdit.event_click input parent_box w = Some w' /\
    TextEdit.cursor (Widget.impl w') <> Z.of_nat (length (TextEdit.text (Widget.impl w))) - 1.
Proof.
  intros H2 Hmax Hlast. unfold TextEdit.event_click.
  assert (TextEdit.text_size (TextEdit.set_no_blink_ticks 20 (Widget.impl w))
          = Z.of_nat (length (TextEdit.text (Widget.impl w)))) as Hsize
    by (apply (text_size_exact (TextEdit.set_no_blink_ticks 20 (Widget.impl w))); te_simpl; lia).
  rewrite Hsize. set (N := Z.of_nat (length (TextEdit.text (Widget.impl w)))) in *.
  assert (2 <= N) as HN by (subst N; lia).
  destruct (_ <? _); [eexists; split; [reflexivity | te_simpl; lia] |].
  destruct (_ <? _); [eexists; split; [reflexivity | te_simpl; lia] |].
  destruct (_ <? _)%nat eqn:Esz; [eexists; split; [reflexivity | te_simpl; lia] |].
  destruct (click_loop_returns lerp_i32 N
              (TextEdit.text_left parent_box w) (i32 (x (pos (InputSystem.mouse input))))
              Hmax (S (Z.to_nat N)) 0
              (abs32 (sub32 (TextEdit.text_left parent_box w)
                        (i32 (x (pos (InputSystem.mouse input))))))
              (TextEdit.clusters (TextEdit.set_no_blink_ticks 20 (Widget.impl w))) None)
    as [r Eloop]; [lia | lia |].
  rewrite Eloop. eexists. split; [reflexivity |]. te_simpl.
  apply click_loop_skips_last in Eloop; [| assumption | lia |].
  - unfold TextEdit.clamp.
    destruct (Z.ltb_spec r 0); [lia |]. destruct (Z.ltb_spec N r); lia.
  - te_simpl.
    destruct (last_of (TextEdit.clusters (Widget.impl w))) as [c |] eqn:El; [assumption |].
    unfold last_of in El. apply Nat.ltb_ge in Esz. te_simpl.
    destruct (rev (TextEdit.clusters (Widget.impl w))) eqn:Er; [| discriminate].
    apply (f_equal (@length Cluster)) in Er. rewrite length_rev in Er. cbn in Er. lia.
Qed.

(** A click one pixel left of the last character of "abc". *)
Lemma click_never_lands_before_last_character_witness :
  exists w',
    TextEdit.event_click (left_click_at (XY 152 30)) (Box (XY 0 0) (SZ 800 600)) abc
    = Some w' /\
    TextEdit.cursor (Widget.impl w') <> 2.
Proof.
  apply (click_never_lands_before_last_character (left_click_at (XY 152 30))
           (Box (XY 0 0) (SZ 800 600)) abc).
  - cbn. lia.
  - vm_compute. discriminate.
  - vm_compute. discriminate.
Defined.

Lemma per_character_nth (l : list Cluster) :
  forall i px m k,
    per_character_from i px l = true -> nth_error l m = Some k ->
    index k = i + Z.of_nat m /\ px < xoffs k.
Proof.
  induction l as [| c rest IH]; intros i px m k H Hk; [destruct m; discriminate |].
  cbn [per_character_from] in H.
  apply andb_prop in H as [H Hrest]. apply andb_prop in H as [Hi Hx].
  apply Z.eqb_eq in Hi. apply Z.ltb_lt in Hx.
  destruct m as [| m]; cbn [nth_error] in Hk.
  - injection Hk as <-. split; lia.
  - destruct (IH _ _ _ _ Hrest Hk). split; lia.
Qed.

Lemma per_character_sorted (l : list Cluster) :
  forall i px, per_character_from i px l = true -> sorted_by_index l = true.
Proof.
  induction l as [| a rest IH]; intros i px H; [reflexivity |].
  cbn [per_character_from] in H.
  apply andb_prop in H as [H Hrest]. apply andb_prop in H as [Hi _]. apply Z.eqb_eq in Hi.
  destruct rest as [| b rest']; [reflexivity |].
  change (sorted_by_index (a :: b :: rest'))
    with ((index a <=? index b) && sorted_by_index (b :: rest')).
  rewrite (IH _ _ Hrest), andb_true_r.
  destruct (per_character_nth _ _ _ 0%nat b Hrest eq_refl) as [Hb _].
  apply Z.leb_le. lia.
Qed.

Lemma per_character_from_start (cl : list Cluster) :
  per_character cl = true -> per_character_from 0 (-1) cl = true.
Proof.
  destruct cl as [| c rest]; [discriminate |]. cbn [per_character per_character_from].
  intros H. apply andb_prop in H as [H Hrest]. apply andb_prop in H as [Hi Hx].
  apply Z.eqb_eq in Hx. rewrite Hx. change (0 + 1) with 1.
  rewrite Hi, Hrest. reflexivity.
Qed.

(** The distance the loop of [event_click] computes for the offset [xo]
    when the mouse is at offset [t] of the text. *)
Lemma click_distance (x0 xo t : Z) :
  - 2 ^ 29 <= x0 <= 2 ^ 29 -> 0 <= xo <= 2 ^ 29 -> 0 <= t <= 2 ^ 29 ->
  abs32 (sub32 (add32 x0 xo) (x0 + t)) = Z.abs (xo - t).
Proof.
  change (2 ^ 29) with 536870912. intros H0 Hx Ht.
  rewrite add32_exact by (unfold in_i32, INT_MIN, INT_MAX; lia).
  rewrite sub32_exact by (unfold in_i32, INT_MIN, INT_MAX; lia).
  unfold abs32. replace (x0 + xo - (x0 + t)) with (xo - t) by lia.
  apply i32_id. unfold in_i32, INT_MIN, INT_MAX. lia.
Qed.

(** The loop of [event_click] on one cluster per character, the mouse
    exactly at the start of the character at position [m] of [it]: it stops
    at that character, unless it is the last one. *)
Lemma click_loop_exact (interp : Z -> Z -> Z -> Z -> Z) (N x0 t : Z) :
  N <= INT_MAX -> - 2 ^ 29 <= x0 <= 2 ^ 29 -> 0 <= t <= 2 ^ 29 ->
  forall it fuel j px d prev m c,
    per_character_from j px it = true ->
    Forall (fun k => xoffs k <= 2 ^ 29) it ->
    -1 <= px -> 0 <= j -> j + Z.of_nat (length it) = N -> (length it < fuel)%nat ->
    nth_error it m = Some c -> xoffs c = t -> t - px - 1 <= d ->
    TextEdit.click_loop interp N x0 (x0 + t) fuel j d it prev =
    Some (if (S m <? length it)%nat then j + Z.of_nat m else N).
Proof.
  intros HN H0 Ht.
  induction it as [| a rest IH]; intros fuel j px d prev m c Hpc Hsmall Hpx Hj Hlen Hfuel
    Hm Hc Hd; [destruct m; discriminate |].
  destruct fuel as [| fuel]; [lia |]. cbn [TextEdit.click_loop].
  cbn [length] in Hlen, Hfuel.
  destruct (Z.ltb_spec j N) as [_ | ?]; [| lia].
  pose proof Hpc as Hpc'. cbn [per_character_from] in Hpc'.
  apply andb_prop in Hpc' as [Hpc' Hrest]. apply andb_prop in Hpc' as [Hi Hx].
  apply Z.eqb_eq in Hi. apply Z.ltb_lt in Hx.
  pose proof (Forall_inv Hsmall) as Ha. pose proof (Forall_inv_tail Hsmall) as Hsmall'.
  cbn beta in Ha.
  unfold TextEdit.click_xoffs. rewrite Hi, Z.eqb_refl.
  rewrite click_distance by lia.
  assert (add32 j 1 = j + 1) as ->
    by (apply add32_exact; unfold in_i32, INT_MIN, INT_MAX in *; lia).
  destruct (Z.ltb_spec j (j + 1)) as [_ | ?]; [| lia].
  destruct m as [| m]; cbn [nth_error] in Hm.
  - injection Hm as ->. rewrite Hc, Z.sub_diag. cbn [Z.abs].
    destruct (Z.ltb_spec d 0); [lia |].
    destruct rest as [| b rest'].
    + destruct fuel as [| fuel]; [lia |]. cbn [TextEdit.click_loop length].
      cbn [length] in Hlen. destruct (Z.ltb_spec (j + 1) N); [lia |].
      change (1 <? 1)%nat with false. cbv iota. f_equal. lia.
    + destruct fuel as [| fuel]; [cbn [length] in Hfuel; lia |].
      cbn [TextEdit.click_loop length]. cbn [length] in Hlen.
      destruct (Z.ltb_spec (j + 1) N); [| lia].
      destruct (per_character_nth _ _ _ 0%nat b Hrest eq_refl) as [Hbi Hbx].
      pose proof (Forall_inv Hsmall') as Hb. cbn beta in Hb.
      unfold TextEdit.click_xoffs. replace (index b) with (j + 1) by lia.
      rewrite Z.eqb_refl, click_distance by lia.
      destruct (Z.ltb_spec 0 (Z.abs (xoffs b - t))); [| lia].
      rewrite sub32_exact by (unfold in_i32, INT_MIN, INT_MAX in *; lia).
      change (1 <? S (S (length rest')))%nat with true. cbv iota. f_equal. lia.
  - destruct (per_character_nth _ _ _ m c Hrest Hm) as [_ Hgt].
    destruct (Z.ltb_spec d (Z.abs (xoffs a - t))); [lia |].
    rewrite (IH fuel (j + 1) (xoffs a) _ _ m c); try assumption; try lia.
    cbn [length].
    change (S (S m) <? S (length rest))%nat with (S m <? length rest)%nat.
    destruct (S m <? length rest)%nat; f_equal; lia.
Qed.

(** The same loop with the mouse at or right of the start of every
    character: it runs to the end of the text. *)
Lemma click_loop_end (interp : Z -> Z -> Z -> Z -> Z) (N x0 t : Z) :
  N <= INT_MAX -> - 2 ^ 29 <= x0 <= 2 ^ 29 -> 0 <= t <= 2 ^ 29 ->
  forall it fuel j px d prev,
    per_character_from j px it = true ->
    Forall (fun k => xoffs k <= t) it ->
    -1 <= px -> 0 <= j -> j + Z.of_nat (length it) = N -> (length it < fuel)%nat ->
    t - px - 1 <= d ->
    TextEdit.click_loop interp N x0 (x0 + t) fuel j d it prev = Some N.
Proof.
  intros HN H0 Ht.
  induction it as [| a rest IH]; intros fuel j px d prev Hpc Hsmall Hpx Hj Hlen Hfuel Hd.
  - destruct fuel as [| fuel]; [cbn in Hfuel; lia |]. cbn [TextEdit.click_loop].
    cbn [length] in Hlen. destruct (Z.ltb_spec j N); [lia |]. f_equal. lia.
  - destruct fuel as [| fuel]; [lia |]. cbn [TextEdit.click_loop].
    cbn [length] in Hlen, Hfuel.
    destruct (Z.ltb_spec j N) as [_ | ?]; [| lia].
    cbn [per_character_from] in Hpc.
    apply andb_prop in Hpc as [Hpc Hrest]. apply andb_prop in Hpc as [Hi Hx].
    apply Z.eqb_eq in Hi. apply Z.ltb_lt in Hx.
    pose proof (Forall_inv Hsmall) as Ha. pose proof (Forall_inv_tail Hsmall) as Hsmall'.
    cbn beta in Ha.
    unfold TextEdit.click_xoffs. rewrite Hi, Z.eqb_refl.
    rewrite click_distance by lia.
    assert (add32 j 1 = j + 1) as ->
      by (apply add32_exact; unfold in_i32, INT_MIN, INT_MAX in *; lia).
    destruct (Z.ltb_spec j (j + 1)) as [_ | ?]; [| lia].
    destruct (Z.ltb_spec d (Z.abs (xoffs a - t))); [lia |].
    apply (IH fuel (j + 1) (xoffs a)); try assumption; lia.
Qed.

(** With one cluster per character every character is at least one pixel
    wide. *)
Lemma per_character_grows (l : list Cluster) :
  forall i px m k,
    per_character_from i px l = true -> nth_error l m = Some k ->
    px + 1 + Z.of_nat m <= xoffs k.
Proof.
  induction l as [| a rest IH]; intros i px m k H Hk; [destruct m; discriminate |].
  cbn [per_character_from] in H.
  apply andb_prop in H as [H Hrest]. apply andb_prop in H as [_ Hx].
  apply Z.ltb_lt in Hx.
  destruct m as [| m]; cbn [nth_error] in Hk.
  - injection Hk as <-. lia.
  - specialize (IH _ _ _ _ Hrest Hk). lia.
Qed.

(** With one cluster per character, the pixel offset of a cursor strictly
    inside the text is the start of its character. *)
Lemma cursor_offset_per_character (cl : list Cluster) (N wdt c : Z) (k : Cluster) :
  per_character cl = true -> Z.of_nat (length cl) = N -> 0 < c < N ->
  nth_error cl (Z.to_nat c) = Some k ->
  TextEdit.cursor_offset cl N wdt c = Some (xoffs k).
Proof.
  intros Hpc Hlen Hc Hk. apply per_character_from_start in Hpc.
  pose proof (per_character_sorted _ _ _ Hpc) as Hs.
  destruct (lower_bound_correct cl c Hs) as (p & Hlb & Hp1 & Hp2 & Hp3).
  destruct (per_character_nth _ _ _ _ _ Hpc Hk) as [Hik _].
  assert (p = Z.to_nat c) as ->.
  { destruct (Nat.lt_trichotomy p (Z.to_nat c)) as [Hlt | [E | Hgt]]; [| assumption |].
    - destruct (nth_error cl p) as [kp |] eqn:Ekp.
      + destruct (per_character_nth _ _ _ _ _ Hpc Ekp) as [Hip _].
        specialize (Hp3 p kp (Nat.le_refl _) Ekp). lia.
      + apply nth_error_None in Ekp. lia.
    - specialize (Hp2 _ _ Hgt Hk). lia. }
  unfold TextEdit.cursor_offset.
  destruct (Z.eqb_spec c 0); [lia |]. destruct (Z.eqb_spec c N); [lia |].
  rewrite Hlb. destruct (Z.to_nat c) as [| q] eqn:Eq; [lia |].
  destruct (nth_error cl q) as [pr |] eqn:Epr; [| apply nth_error_None in Epr; lia].
  rewrite Hk. destruct (Z.eqb_spec (index k) c); [reflexivity | lia].
Qed.



(** Backspace pressed once for every character of [mid], the cursor behind
    [mid]: [mid] is erased and the cursor ends in front of it. *)
Lemma backspaces_erase (sdl : Sdl) (m : Z) :
  TextEdit.has_mod m SDL_KMOD_CTRL = false ->
  forall mid pre post d,
    TextEdit.text d = pre ++ mid ++ post ->
    TextEdit.cursor d = Z.of_nat (length pre + length mid) ->
    Z.of_nat (length (TextEdit.text d)) <= INT_MAX ->
    exists d',
      TextEdit.handle_keys sdl d (repeat (Ev SDLK_BACKSPACE m) (length mid)) = Some d' /\
      TextEdit.text d' = pre ++ post /\
      TextEdit.cursor d' = Z.of_nat (length pre).
Proof.
  intros Hm. induction mid as [| c mid' IH] using rev_ind; intros pre post d Ht Hc Hmax.
  - cbn [length repeat TextEdit.handle_keys]. exists d. cbn [app length] in *.
    repeat split; [assumption | rewrite Hc; f_equal; lia].
  - rewrite length_app in *. cbn [length] in *.
    replace (length mid' + 1)%nat with (S (length mid')) by lia.
    cbn [repeat TextEdit.handle_keys]. unfold TextEdit.handle_key.
    cbn [key mod_]. rewrite Hm. te_simpl.
    destruct (Z.eqb_spec (TextEdit.cursor d) 0) as [E | _]; [lia |]. cbn [negb].
    rewrite Ht in Hmax. rewrite !length_app in Hmax. cbn [length] in Hmax.
    rewrite sub32_exact by (unfold in_i32, INT_MIN, INT_MAX in *; lia).
    assert (TextEdit.erase (TextEdit.cursor d - 1) 1 (TextEdit.text d)
            = Some (pre ++ mid' ++ post)) as ->.
    { unfold TextEdit.erase. rewrite Ht, !length_app. cbn [length].
      destruct (Z.leb_spec 0 (TextEdit.cursor d - 1)); [| lia].
      destruct (Z.leb_spec (TextEdit.cursor d - 1)
                  (Z.of_nat (length pre + (length mid' + 1 + length post)))); [| lia].
      cbn [andb]. f_equal.
      replace (Z.to_nat (TextEdit.cursor d - 1)) with (length (pre ++ mid')) 
        by (rewrite length_app; lia).
      replace (Z.to_nat (TextEdit.cursor d - 1 + 1)) with (length ((pre ++ mid') ++ [c]))
        by (rewrite !length_app; cbn [length]; lia).
      replace (pre ++ (mid' ++ [c]) ++ post) with (((pre ++ mid') ++ [c]) ++ post)
        by (rewrite <- !app_assoc; reflexivity).
      rewrite skipn_app, skipn_all, Nat.sub_diag. cbn [skipn app].
      rewrite <- app_assoc, firstn_app, firstn_all, Nat.sub_diag. cbn [firstn].
      rewrite app_nil_r, <- app_assoc. reflexivity. }
    apply IH; te_simpl.
    + reflexivity.
    + lia.
    + rewrite !length_app. lia.
Qed.

(** X17: what was typed in one frame is taken back by as many presses of
    Backspace in the next: the widget handles both frames, and the text and
    the cursor are as before the typing. *)
Theorem backspaces_take_back_typed_text (sdl : Sdl) (in1 in2 : InputSystem.t)
    (w : TextEdit.t) (m : Z) :
  InputSystem.kb_events in1 = [] ->
  InputSystem.text_input in2 = [] ->
  InputSystem.kb_events in2
  = repeat (Ev SDLK_BACKSPACE m) (length (InputSystem.text_input in1)) ->
  TextEdit.has_mod m SDL_KMOD_CTRL = false ->
  cursor_in_text (Widget.impl w) ->
  Z.of_nat (length (TextEdit.text (Widget.impl w)))
  + Z.of_nat (length (InputSystem.text_input in1)) <= INT_MAX ->
  exists w1 w2,
    TextEdit.event_input sdl in1 w = Some w1 /\
    TextEdit.event_input sdl in2 w1 = Some w2 /\
    TextEdit.text (Widget.impl w2) = TextEdit.text (Widget.impl w) /\
    TextEdit.cursor (Widget.impl w2) = TextEdit.cursor (Widget.impl w).
Proof.
  unfold cursor_in_text. intros Hk1 Ht2 Hk2 Hm Hc Hmax.
  unfold TextEdit.event_input at 1. rewrite Hk1. unfold TextEdit.copy_text_input at 1.
  destruct (InputSystem.text_input in1) as [| t0 ti'] eqn:Eti.
  - cbn [TextEdit.handle_keys]. exists (Widget.set_impl (Widget.impl w) w).
    exists (Widget.set_impl (Widget.impl w) w). split; [reflexivity |].
    unfold TextEdit.event_input, TextEdit.copy_text_input.
    rewrite Ht2, Hk2. cbn [length repeat TextEdit.handle_keys].
    destruct w as [? ? ? ? ? ? ? d]. cbn. repeat split; reflexivity.
  - set (ti := t0 :: ti') in *. set (d := Widget.impl w) in *. te_simpl.
    unfold TextEdit.insert.
    destruct (Z.leb_spec 0 (TextEdit.cursor d)); [| lia].
    destruct (Z.leb_spec (TextEdit.cursor d) (Z.of_nat (length (TextEdit.text d)))); [| lia].
    cbn [andb TextEdit.handle_keys].
    match goal with
    | |- exists _ _, Some ?a = Some _ /\ _ => remember a as w1 eqn:Ew1
    end.
    exists w1.
    assert (exists d2, TextEdit.handle_keys sdl (Widget.impl w1)
                         (repeat (Ev SDLK_BACKSPACE m) (length ti)) = Some d2 /\
                       TextEdit.text d2
                       = firstn (Z.to_nat (TextEdit.cursor d)) (TextEdit.text d)
                         ++ skipn (Z.to_nat (TextEdit.cursor d)) (TextEdit.text d) /\
                       TextEdit.cursor d2
                       = Z.of_nat (length (firstn (Z.to_nat (TextEdit.cursor d))
                                             (TextEdit.text d)))) as (d2 & Hd2 & Ht & Hcur).
    { apply (backspaces_erase sdl m Hm).
      - subst w1. reflexivity.
      - subst w1. te_simpl. rewrite length_firstn.
        rewrite (i32_id (Z.of_nat (length ti)))
          by (unfold in_i32, INT_MIN, INT_MAX in *; lia).
        rewrite add32_exact by (unfold in_i32, INT_MIN, INT_MAX in *; lia). lia.
      - subst w1. te_simpl. rewrite !length_app, length_firstn, length_skipn. lia. }
    exists (Widget.set_impl d2 w1). split; [reflexivity |].
    unfold TextEdit.event_input, TextEdit.copy_text_input. rewrite Ht2, Hk2, Hd2.
    split; [reflexivity |]. te_simpl. rewrite Ht, Hcur, firstn_skipn, length_firstn.
    split; [reflexivity | lia].
Qed.

(** "xy" typed into "abc" and taken back by two presses of Backspace. *)
Lemma backspaces_take_back_typed_text_witness :
  exists w1 w2,
    TextEdit.event_input (SDL None true) (frame_input [120; 121] []) abc = Some w1 /\
    TextEdit.event_input (SDL None true)
      (frame_input [] [Ev SDLK_BACKSPACE 0; Ev SDLK_BACKSPACE 0]) w1 = Some w2 /\
    TextEdit.text (Widget.impl w2) = [97; 98; 99] /\
    TextEdit.cursor (Widget.impl w2) = 0.
Proof.
  apply (backspaces_take_back_typed_text (SDL None true) (frame_input [120; 121] [])
           (frame_input [] [Ev SDLK_BACKSPACE 0; Ev SDLK_BACKSPACE 0]) abc 0).
  - reflexivity.
  - reflexivity.
  - reflexivity.
  - reflexivity.
  - unfold cursor_in_text. cbn. lia.
  - vm_compute. discriminate.
Defined.

(** X18: Backspace is Left followed by Delete when there is a character
    before the cursor, and Delete is Right followed by Backspace when there
    is one after it: the same text, cursor and flags result. *)
Theorem backspace_and_delete_mirror (sdl : Sdl) (d : TextEdit.data) (m1 m2 m3 : Z) :
  TextEdit.has_mod m3 SDL_KMOD_CTRL = false ->
  cursor_in_text d ->
  Z.of_nat (length (TextEdit.text d)) <= INT_MAX ->
  (0 < TextEdit.cursor d ->
   TextEdit.handle_keys sdl d [Ev SDLK_LEFT m1; Ev SDLK_DELETE m2]
   = TextEdit.handle_keys sdl d [Ev SDLK_BACKSPACE m3]) /\
  (TextEdit.cursor d < Z.of_nat (length (TextEdit.text d)) ->
   TextEdit.handle_keys sdl d [Ev SDLK_RIGHT m1; Ev SDLK_BACKSPACE m3]
   = TextEdit.handle_keys sdl d [Ev SDLK_DELETE m2]).
Proof.
  unfold cursor_in_text. intros Hm Hc Hmax.
  assert (forall n c, TextEdit.text_size
            (TextEdit.set_no_blink_ticks n (TextEdit.set_cursor c
               (TextEdit.set_no_blink_ticks n d)))
          = Z.of_nat (length (TextEdit.text d))) as Hsize1
    by (intros; apply i32_id; unfold in_i32, INT_MIN, INT_MAX in *; lia).
  assert (forall n, TextEdit.text_size (TextEdit.set_no_blink_ticks n d)
          = Z.of_nat (length (TextEdit.text d))) as Hsize
    by (intros; apply i32_id; unfold in_i32, INT_MIN, INT_MAX in *; lia).
  split; intros Hpos.
  - cbn [TextEdit.handle_keys]. unfold TextEdit.handle_key. cbn [key mod_].
    rewrite Hm, Hsize1. te_simpl.
    rewrite sub32_exact by (unfold in_i32, INT_MIN, INT_MAX in *; lia).
    rewrite Z.max_r by lia.
    destruct (Z.eqb_spec (TextEdit.cursor d - 1) (Z.of_nat (length (TextEdit.text d))));
      [lia |].
    destruct (Z.eqb_spec (TextEdit.cursor d) 0); [lia |]. cbn [negb].
    destruct (TextEdit.erase (TextEdit.cursor d - 1) 1 (TextEdit.text d));
      [| reflexivity].
    destruct d; reflexivity.
  - cbn [TextEdit.handle_keys]. unfold TextEdit.handle_key. cbn [key mod_].
    rewrite Hm, !Hsize. te_simpl.
    rewrite add32_exact by (unfold in_i32, INT_MIN, INT_MAX in *; lia).
    rewrite Z.min_r by lia.
    destruct (Z.eqb_spec (TextEdit.cursor d + 1) 0); [lia |].
    destruct (Z.eqb_spec (TextEdit.cursor d) (Z.of_nat (length (TextEdit.text d))));
      [lia |]. cbn [negb].
    rewrite sub32_exact by (unfold in_i32, INT_MIN, INT_MAX in *; lia).
    replace (TextEdit.cursor d + 1 - 1) with (TextEdit.cursor d) by lia.
    destruct (TextEdit.erase (TextEdit.cursor d) 1 (TextEdit.text d)); [| reflexivity].
    destruct d; reflexivity.
Qed.

(** The cursor between "a" and "b" of "abc". *)
Lemma backspace_and_delete_mirror_witness :
  (0 < 1 ->
   TextEdit.handle_keys (SDL None true) (TextEdit.set_cursor 1 (Widget.impl abc))
     [Ev SDLK_LEFT 0; Ev SDLK_DELETE 0]
   = TextEdit.handle_keys (SDL None true) (TextEdit.set_cursor 1 (Widget.impl abc))
       [Ev SDLK_BACKSPACE 0]) /\
  (1 < 3 ->
   TextEdit.handle_keys (SDL None true) (TextEdit.set_cursor 1 (Widget.impl abc))
     [Ev SDLK_RIGHT 0; Ev SDLK_BACKSPACE 0]
   = TextEdit.handle_keys (SDL None true) (TextEdit.set_cursor 1 (Widget.impl abc))
       [Ev SDLK_DELETE 0]).
Proof.
  apply (backspace_and_delete_mirror (SDL None true)
           (TextEdit.set_cursor 1 (Widget.impl abc)) 0 0 0).
  - reflexivity.
  - unfold cursor_in_text. cbn. lia.
  - vm_compute. discriminate.
Defined.

(** Keys that do not edit leave the text and its shaping alone. *)
Lemma handle_keys_frame (sdl : Sdl) (evs : list Event) :
  Forall (fun ev => edits ev = false) evs ->
  forall d,
    exists d',
      TextEdit.handle_keys sdl d evs = Some d' /\
      TextEdit.text d' = TextEdit.text d /\
      TextEdit.dirty d' = TextEdit.dirty d /\
      TextEdit.label d' = TextEdit.label d /\
      TextEdit.clusters d' = TextEdit.clusters d /\
      TextEdit.hide_text d' = TextEdit.hide_text d /\
      TextEdit.cursor_offs d' = TextEdit.cursor_offs d.
Proof.
  induction 1 as [| ev rest Hev _ IH]; intros d; cbn [TextEdit.handle_keys].
  - exists d. repeat split; reflexivity.
  - assert (exists d1, TextEdit.handle_key sdl d ev = Some d1 /\
                       TextEdit.text d1 = TextEdit.text d /\
                       TextEdit.dirty d1 = TextEdit.dirty d /\
                       TextEdit.label d1 = TextEdit.label d /\
                       TextEdit.clusters d1 = TextEdit.clusters d /\
                       TextEdit.hide_text d1 = TextEdit.hide_text d /\
                       TextEdit.cursor_offs d1 = TextEdit.cursor_offs d)
      as (d1 & -> & E1 & E2 & E3 & E4 & E5 & E6).
    { unfold edits in Hev. unfold TextEdit.handle_key.
      destruct (key ev); try discriminate; try rewrite Hev;
        eexists; (split; [reflexivity | repeat split; reflexivity]). }
    destruct (IH d1) as (d' & -> & F1 & F2 & F3 & F4 & F5 & F6).
    exists d'. repeat split; congruence.
Qed.

(** X19: a frame without typed text in which only keys that do not edit
    were pressed (anything but Backspace, Delete, Ctrl+V and Shift+Insert)
    is handled whatever the cursor is, and changes nothing of the widget but
    the cursor index and the blink delay: the text is not marked for
    reshaping. *)
Theorem navigation_never_edits (sdl : Sdl) (input : InputSystem.t) (w : TextEdit.t) :
  InputSystem.text_input input = [] ->
  Forall (fun ev => edits ev = false) (InputSystem.kb_events input) ->
  exists d',
    TextEdit.event_input sdl input w = Some (Widget.set_impl d' w) /\
    TextEdit.text d' = TextEdit.text (Widget.impl w) /\
    TextEdit.dirty d' = TextEdit.dirty (Widget.impl w) /\
    TextEdit.label d' = TextEdit.label (Widget.impl w) /\
    TextEdit.clusters d' = TextEdit.clusters (Widget.impl w) /\
    TextEdit.hide_text d' = TextEdit.hide_text (Widget.impl w) /\
    TextEdit.cursor_offs d' = TextEdit.cursor_offs (Widget.impl w).
Proof.
  intros Hti Hevs. unfold TextEdit.event_input, TextEdit.copy_text_input. rewrite Hti.
  destruct (handle_keys_frame sdl _ Hevs (Widget.impl w)) as (d' & -> & H).
  exists d'. split; [reflexivity | exact H].
Qed.

(** End, Left, V without Ctrl and F1 pressed on "abc". *)
Lemma navigation_never_edits_witness :
  exists d',
    TextEdit.event_input (SDL (Some [120]) true)
      (frame_input [] [Ev SDLK_END 0; Ev SDLK_LEFT 0; Ev SDLK_V 0; Ev (SDLK_other 1073741882) 0])
      abc
    = Some (Widget.set_impl d' abc) /\
    TextEdit.text d' = [97; 98; 99] /\
    TextEdit.dirty d' = false /\
    TextEdit.label d' = Shaped 30 12 3 (SZ 30 12) /\
    TextEdit.clusters d' = [CL 0 0; CL 1 10; CL 2 20] /\
    TextEdit.hide_text d' = false /\
    TextEdit.cursor_offs d' = -1.
Proof.
  apply (navigation_never_edits (SDL (Some [120]) true)
           (frame_input [] [Ev SDLK_END 0; Ev SDLK_LEFT 0; Ev SDLK_V 0;
                            Ev (SDLK_other 1073741882) 0]) abc).
  - reflexivity.
  - repeat constructor.
Defined.

Ltac draw_simpl :=
  cbn [Widget.impl Widget.set_impl Widget.set_needs_refresh Widget.selected
       Widget.hovered Widget.selectable Widget.visible Widget.pos Widget.bounding_box
       Widget.needs_refresh
       TextEdit.set_shaped TextEdit.set_dirty TextEdit.set_no_blink_ticks
       TextEdit.set_cursor_offs TextEdit.set_text TextEdit.set_cursor
       TextEdit.no_blink_ticks TextEdit.clusters TextEdit.label TextEdit.cursor
       TextEdit.text TextEdit.dirty TextEdit.hide_text TextEdit.cursor_offs snd fst] in *.

(** The cursor lambda of [draw] returns on well-formed clusters. *)
Lemma cursor_offset_returns (cl : list Cluster) (N wdt c : Z) :
  well_formed cl = true -> 0 <= c ->
  exists o, TextEdit.cursor_offset cl N wdt c = Some o.
Proof.
  intros Hwf Hc. unfold well_formed in Hwf. apply andb_prop in Hwf as [Hs H0].
  destruct cl as [| k0 rest]; [discriminate |]. apply Z.eqb_eq in H0.
  unfold TextEdit.cursor_offset.
  destruct (Z.eqb_spec c 0); [eauto |]. destruct (Z.eqb_spec c N); [eauto |].
  destruct (lower_bound_correct (k0 :: rest) c Hs) as (p & -> & Hp1 & Hp2 & Hp3).
  destruct p as [| q]; [specialize (Hp3 0%nat k0 ltac:(lia) eq_refl); lia |].
  destruct (nth_error (k0 :: rest) q) as [prev |] eqn:Eprev;
    [| apply nth_error_None in Eprev; lia].
  destruct (nth_error (k0 :: rest) (S q)) as [k |]; [| eauto].
  destruct (_ =? _); eauto.
Qed.

(** X20: [draw] returns whenever the clusters it reads are well formed or
    there are none and the cursor is not negative; it changes neither the
    text nor the cursor index, leaves the text shaped, and raises
    [needs_refresh] when it reshaped, keeping the flag otherwise. *)
Theorem draw_returns (r : TextEdit.Renderer) (w : TextEdit.t) :
  drawn_clusters r (Widget.impl w) = [] \/ well_formed (drawn_clusters r (Widget.impl w)) = true ->
  0 <= TextEdit.cursor (Widget.impl w) ->
  exists w',
    TextEdit.draw r w = Some w' /\
    TextEdit.dirty (Widget.impl w') = false /\
    TextEdit.text (Widget.impl w') = TextEdit.text (Widget.impl w) /\
    TextEdit.cursor (Widget.impl w') = TextEdit.cursor (Widget.impl w) /\
    TextEdit.clusters (Widget.impl w') = drawn_clusters r (Widget.impl w) /\
    Widget.needs_refresh w' = Widget.needs_refresh w || TextEdit.dirty (Widget.impl w).
Proof.
  intros Hcl Hc. unfold drawn_clusters in *. unfold TextEdit.draw.
  destruct w as [hov sel seld vis nr p bb d]. destruct d as [lbl co txt cl drt hide cur nb].
  draw_simpl.
  destruct drt; [destruct (TextEdit.make_text r _) as [shaped cl'] |];
    draw_simpl; destruct (nb =? 0); draw_simpl;
    (destruct Hcl as [-> | Hwf];
     [cbn [negb]; rewrite andb_false_r; cbn [andb]; eexists; split; [reflexivity |];
      draw_simpl; rewrite ?orb_true_r, ?orb_false_r; repeat split; reflexivity |]);
    (destruct (_ && _ && _);
     [| eexists; split; [reflexivity |]; draw_simpl; rewrite ?orb_true_r, ?orb_false_r;
        repeat split; reflexivity]);
    match goal with
    | |- context [TextEdit.cursor_offset ?a ?b ?c ?e] =>
        destruct (cursor_offset_returns a b c e Hwf Hc) as [o ->]
    end;
    eexists; (split; [reflexivity |]); draw_simpl; rewrite ?orb_true_r, ?orb_false_r;
    repeat split; reflexivity.
Qed.

(** The first draw of "abcd" after it was typed. *)
Lemma draw_returns_witness :
  exists w',
    TextEdit.draw (monospace false) abcd_typed = Some w' /\
    TextEdit.dirty (Widget.impl w') = false /\
    TextEdit.text (Widget.impl w') = [97; 98; 99; 100] /\
    TextEdit.cursor (Widget.impl w') = 4 /\
    TextEdit.clusters (Widget.impl w') = [CL 0 0; CL 1 10; CL 2 20; CL 3 30] /\
    Widget.needs_refresh w' = true.
Proof.
  apply (draw_returns (monospace false) abcd_typed).
  - right. reflexivity.
  - cbn. lia.
Defined.

(** One draw of a selected text edit that needs no reshaping. *)
Lemma draw_shaped (r : TextEdit.Renderer) (w : TextEdit.t) (o : Z) :
  TextEdit.dirty (Widget.impl w) = false ->
  Widget.selected w = true ->
  well_formed (TextEdit.clusters (Widget.impl w)) = true ->
  TextEdit.cursor_offset (TextEdit.clusters (Widget.impl w))
    (TextEdit.text_size (Widget.impl w)) (width (TextEdit.label (Widget.impl w)))
    (TextEdit.cursor (Widget.impl w)) = Some o ->
  0 <= TextEdit.no_blink_ticks (Widget.impl w) < 2 ^ 32 ->
  TextEdit.draw r w =
  Some (Widget.set_impl
          (TextEdit.set_cursor_offs
             (if (1 <? TextEdit.no_blink_ticks (Widget.impl w)) || TextEdit.blink_cursor r
              then o else -1)
             (TextEdit.set_no_blink_ticks
                (Z.max 0 (TextEdit.no_blink_ticks (Widget.impl w) - 1)) (Widget.impl w)))
          w).
Proof.
  intros Hd Hsel Hwf Ho Hnb. unfold TextEdit.draw. rewrite Hd, Hsel.
  destruct w as [hov sel seld vis nr p bb d]. destruct d as [lbl co txt cl drt hide cur nb].
  unfold TextEdit.text_size in *. draw_simpl.
  destruct cl as [| k0 rest]; [discriminate |].
  destruct (Z.eqb_spec nb 0) as [-> | Hne]; draw_simpl.
  - cbn [negb andb orb Z.ltb Z.compare Z.eqb]. unfold TextEdit.text_size. draw_simpl.
    destruct (TextEdit.blink_cursor r); cbn [negb andb orb]; [rewrite Ho |]; reflexivity.
  - assert (u32 (nb - 1) = nb - 1) as ->
      by (unfold u32, unsigned; apply Z.mod_small; lia).
    rewrite Z.max_r by lia. cbn [negb andb]. unfold TextEdit.text_size. draw_simpl.
    destruct (Z.eqb_spec (nb - 1) 0); destruct (Z.ltb_spec 1 nb); try lia; cbn [negb orb].
    + destruct (TextEdit.blink_cursor r); [rewrite Ho |]; reflexivity.
    + rewrite Ho. reflexivity.
Qed.



(** X22: a text edit that hides its text hands the renderer nothing of the
    text but its length: drawing it with another text of the same length
    gives the same widget, the text apart. *)
Theorem hidden_text_never_reaches_renderer (r : TextEdit.Renderer) (w : TextEdit.t)
    (t1 t2 : u32string) :
  TextEdit.hide_text (Widget.impl w) = true ->
  length t1 = length t2 ->
  TextEdit.draw r (with_text t2 w) = option_map (with_text t2) (TextEdit.draw r (with_text t1 w)).
Proof.
  intros Hh Hlen. unfold with_text, TextEdit.draw.
  destruct w as [hov sel seld vis nr p bb d]. destruct d as [lbl co txt cl drt hide cur nb].
  draw_simpl. subst hide. rewrite Hlen.
  destruct drt; [destruct (TextEdit.make_text r _) as [shaped cl'] |];
    draw_simpl; destruct (nb =? 0); draw_simpl; unfold TextEdit.text_size; draw_simpl;
    rewrite Hlen;
    destruct (_ && _ && _); try reflexivity;
    destruct (TextEdit.cursor_offset _ _ _ _); reflexivity.
Qed.

(** A password field holding "abc" or "xyz". *)
Lemma hidden_text_never_reaches_renderer_witness :
  TextEdit.draw (monospace true)
    (with_text [120; 121; 122]
       (with_data (TextEdit.Make (Shaped 0 0 0 (SZ 0 0)) (-1) [] [] true true 0 0) abc))
  = option_map (with_text [120; 121; 122])
      (TextEdit.draw (monospace true)
         (with_text [97; 98; 99]
            (with_data (TextEdit.Make (Shaped 0 0 0 (SZ 0 0)) (-1) [] [] true true 0 0) abc))).
Proof.
  apply (hidden_text_never_reaches_renderer (monospace true)
           (with_data (TextEdit.Make (Shaped 0 0 0 (SZ 0 0)) (-1) [] [] true true 0 0) abc)
           [97; 98; 99] [120; 121; 122]).
  - reflexivity.
  - reflexivity.
Defined.

End TextEditMore.
